(** * Sentinel-Shop rate limiter: a shallow embedding of [src/bot/rate_limiter.py]

    Modelling conventions.

    - Python [float] values (tokens, capacities, rates, timestamps, durations)
      are exact rationals [Q] in the limiter and in [Bucket]: rounding,
      infinities and NaN are outside that model; a float division by zero is
      the Python exception [ZeroDivisionError].  The bucket alone is also
      given over binary64 ([Binary64]), where its rounding is what the
      interpreter does; the statements that rounding decides are settled
      there.
    - [time.time()] is an explicit argument [now] of the bucket methods, and the
      field [clock] of the world for the limiter methods.  Computation takes no
      time: the clock moves only while a task is suspended.
    - Python [int] is [Z]; a [dict] is a [gmap]; a [deque(maxlen=k)] is a list
      together with its bound.
    - A target operation returns, raises an [Exception], or raises something
      that [except Exception] does not catch ([BaseError]).
    - [shutdown] and the module-level instance are not modelled.
    - Statements about rationals use [==] ([Qeq]), the equality of [Q]. *)

From Stdlib Require Import QArith Qminmax Qabs Lqa ZArith List Lia String.
From Stdlib Require Import Floats.PrimFloat.
From stdpp Require Import gmap strings.

Local Open Scope Q_scope.

(** ** Exceptions and results of fallible calls *)

Inductive PyExn : Type :=
| ZeroDivisionError
| ValueError (msg : string)
| KeyError
| OtherError (name : string)      (* any other [Exception] a target operation raises *)
| BaseError (name : string).      (* a [BaseException] that is no [Exception]:
                                     [asyncio.CancelledError] (Python 3.8 and
                                     later), [KeyboardInterrupt], [SystemExit] *)

(** [isinstance(e, Exception)]: what a clause [except Exception] catches. *)
Definition is_exception (e : PyExn) : bool :=
  match e with
  | BaseError _ => false
  | _ => true
  end.

Inductive outcome (A : Type) : Type :=
| Returned (a : A)
| Raised (e : PyExn).
Arguments Returned {A} a.
Arguments Raised {A} e.

(** ** [class RateLimitBucket] *)

Module Bucket.

Record RateLimitBucket : Type := mkBucket {
  tokens : Q;
  capacity : Q;
  refill_rate : Q;
  last_refill : Q
}.

Definition set_tokens (b : RateLimitBucket) (t : Q) : RateLimitBucket :=
  {| tokens := t; capacity := capacity b;
     refill_rate := refill_rate b; last_refill := last_refill b |}.

Definition set_last_refill (b : RateLimitBucket) (t : Q) : RateLimitBucket :=
  {| tokens := tokens b; capacity := capacity b;
     refill_rate := refill_rate b; last_refill := t |}.

(** [refill(self, now)]: returns the available tokens and the updated bucket. *)
Definition refill (b : RateLimitBucket) (now : Q) : Q * RateLimitBucket :=
  let elapsed := now - last_refill b in
  let b1 := set_tokens b (Qmin (capacity b) (tokens b + elapsed * refill_rate b)) in
  let b2 := set_last_refill b1 now in
  (tokens b2, b2).

(** [consume(self, tokens)], with [time.time()] read as [now]. *)
Definition consume (b : RateLimitBucket) (n : Q) (now : Q) : bool * RateLimitBucket :=
  let '(available, b1) := refill b now in
  if Qle_bool n available
  then (true, set_tokens b1 (tokens b1 - n))
  else (false, b1).

(** [wait_time(self, tokens)], with [time.time()] read as [now].  The final
    division raises when [refill_rate] is zero. *)
Definition wait_time (b : RateLimitBucket) (n : Q) (now : Q)
  : outcome Q * RateLimitBucket :=
  let '(available, b1) := refill b now in
  if Qle_bool n available
  then (Returned 0, b1)
  else
    let needed := n - available in
    if Qeq_bool (refill_rate b1) 0
    then (Raised ZeroDivisionError, b1)
    else (Returned (needed / refill_rate b1), b1).

(** The two assignments of [handle_rate_limit_response] on a bucket:
    [bucket.tokens = 0; bucket.last_refill = time.time() + retry_after]. *)
Definition backoff (b : RateLimitBucket) (now retry_after : Q) : RateLimitBucket :=
  set_last_refill (set_tokens b 0) (now + retry_after).

(** *** Sequences of accesses to one bucket *)

Inductive access : Type :=
| ARefill
| AConsume (n : Q)
| AWaitTime (n : Q)
| ABackoff (retry_after : Q).

Definition apply_access (b : RateLimitBucket) (now : Q) (a : access) : RateLimitBucket :=
  match a with
  | ARefill => snd (refill b now)
  | AConsume n => snd (consume b n now)
  | AWaitTime n => snd (wait_time b n now)
  | ABackoff r => backoff b now r
  end.

(** The bucket states seen after each access of a schedule. *)
Fixpoint observe (b : RateLimitBucket) (sched : list (Q * access)) : list RateLimitBucket :=
  match sched with
  | [] => []
  | (now, a) :: rest =>
      let b' := apply_access b now a in b' :: observe b' rest
  end.

(** An access is timely when it does not happen before the bucket's refill
    baseline and takes or postpones a non-negative amount. *)
Definition timely_access (b : RateLimitBucket) (now : Q) (a : access) : Prop :=
  last_refill b <= now /\
  match a with
  | AConsume n => 0 <= n
  | ABackoff r => 0 <= r
  | _ => True
  end.

Fixpoint timely (b : RateLimitBucket) (sched : list (Q * access)) : Prop :=
  match sched with
  | [] => True
  | (now, a) :: rest => timely_access b now a /\ timely (apply_access b now a) rest
  end.

Fixpoint nondecreasing (l : list Q) : Prop :=
  match l with
  | x :: ((y :: _) as rest) => x <= y /\ nondecreasing rest
  | _ => True
  end.

Definition bucket_inv (b : RateLimitBucket) : Prop :=
  0 <= tokens b /\ tokens b <= capacity b.

End Bucket.
Import Bucket.

(** ** Accounting for one bucket *)

(** The amount one access takes out of the bucket. *)
Definition taken (b : RateLimitBucket) (now : Q) (a : access) : Q :=
  match a with
  | AConsume n => if fst (consume b n now) then n else 0
  | _ => 0
  end.

(** The tokens a schedule hands out: the amounts of its successful consumes. *)
Fixpoint consumed (b : RateLimitBucket) (sched : list (Q * access)) : Q :=
  match sched with
  | [] => 0
  | (now, a) :: rest => taken b now a + consumed (apply_access b now a) rest
  end.

(** The bucket a schedule leaves. *)
Fixpoint final (b : RateLimitBucket) (sched : list (Q * access)) : RateLimitBucket :=
  match sched with
  | [] => b
  | (now, a) :: rest => final (apply_access b now a) rest
  end.

(** What the bucket would hold at time [s], were it neither capped nor used
    until then. *)
Definition potential (b : RateLimitBucket) (s : Q) : Q :=
  tokens b + (s - last_refill b) * refill_rate b.

(** Schedules without the reset of [handle_rate_limit_response]. *)
Definition no_backoff (a : access) : Prop :=
  match a with
  | ABackoff _ => False
  | _ => True
  end.

(** ** [class RateLimitBucket] in binary64

    The same three methods over IEEE 754 binary64, the [float] of CPython,
    with its own rounding: every [+], [-], [*] and [/] below rounds to the
    nearest double as the interpreter does, there is no fused operation, and
    an overflow gives an infinity, not an exception.  The only exception is
    the [ZeroDivisionError] of a division by [0.0] or [-0.0].  [min(a, b)] is
    the builtin: [b] when [b < a], else [a].  Fields hold floats, as their
    annotations say (an [int] such as the [0] of line 318 enters the
    arithmetic as the same double).

    This module decides the statements whose truth depends on rounding; the
    limiter below is stated over the exact buckets of [Bucket]. *)

Module Binary64.

Local Open Scope float_scope.

Record RateLimitBucket : Type := mkBucket {
  tokens : float;
  capacity : float;
  refill_rate : float;
  last_refill : float
}.

Definition set_tokens (b : RateLimitBucket) (t : float) : RateLimitBucket :=
  {| tokens := t; capacity := capacity b;
     refill_rate := refill_rate b; last_refill := last_refill b |}.

Definition set_last_refill (b : RateLimitBucket) (t : float) : RateLimitBucket :=
  {| tokens := tokens b; capacity := capacity b;
     refill_rate := refill_rate b; last_refill := t |}.

(** The builtin [min] on two floats. *)
Definition py_min (a b : float) : float := if b <? a then b else a.

(** [refill(self, now)]. *)
Definition refill (b : RateLimitBucket) (now : float) : float * RateLimitBucket :=
  let elapsed := now - last_refill b in
  let b1 := set_tokens b (py_min (capacity b) (tokens b + elapsed * refill_rate b)) in
  let b2 := set_last_refill b1 now in
  (tokens b2, b2).

(** [consume(self, tokens)]; [available >= tokens] is [tokens <= available]. *)
Definition consume (b : RateLimitBucket) (n : float) (now : float)
  : bool * RateLimitBucket :=
  let '(available, b1) := refill b now in
  if n <=? available
  then (true, set_tokens b1 (tokens b1 - n))
  else (false, b1).

(** [wait_time(self, tokens)]. *)
Definition wait_time (b : RateLimitBucket) (n : float) (now : float)
  : outcome float * RateLimitBucket :=
  let '(available, b1) := refill b now in
  if n <=? available
  then (Returned 0, b1)
  else
    let needed := n - available in
    if refill_rate b1 =? 0
    then (Raised ZeroDivisionError, b1)
    else (Returned (needed / refill_rate b1), b1).

(** After sleeping exactly what [wait_time(n)] said, [consume(n)] fails and
    leaves fewer than [n] tokens. *)
Definition short_after_wait (b : RateLimitBucket) (n now : float) : Prop :=
  exists w b1 b2,
    wait_time b n now = (Returned w, b1) /\ (0 <? w) = true /\
    consume b1 n (now + w) = (false, b2) /\
    (tokens b2 <? n) = true.

End Binary64.

(** A sample target operation for the closed instances at the end of the
    file: an even number is returned, an odd one fails. *)
Definition echo (n : nat) : outcome nat :=
  if Nat.even n then Returned n else Raised (OtherError "odd").

(** A second sample: as [echo], but a multiple of 5 is cancelled while it
    runs. *)
Definition touchy (n : nat) : outcome nat :=
  if (n mod 5 =? 0)%nat then Raised (BaseError "CancelledError") else echo n.

(** ** [class RateLimiter] *)

Section Limiter.

(** A target operation is opaque: [Op] stands for the coroutine function
    together with its arguments ([coro], [args], [kwargs]), and awaiting it
    gives [run op]: a value or an exception. *)
Context {Op Val : Type}.
Variable run : Op -> outcome Val.

(** [asyncio.Future]: pending, or done with a result or an exception. *)
Inductive FutureState : Type :=
| Pending
| Done (r : outcome Val).

(** [class QueuedItem]; [future] is a reference into the world's futures. *)
Record QueuedItem : Type := mkItem {
  coro : Op;
  future : option nat;
  timestamp : Q
}.

(** [collections.deque] with [maxlen]. *)
Record deque : Type := mkDeque {
  items : list QueuedItem;
  maxlen : nat
}.

(** [deque(maxlen=m)].  CPython reads [m] as a C [Py_ssize_t] and raises
    [OverflowError] when it does not fit, before it looks at the sign; the
    bound kept here is a [nat] of any size, so [deque_new] is the constructor
    for the sizes of [fits_ssize] only. *)
Definition fits_ssize (m : Z) : Prop := (- 2 ^ 63 <= m < 2 ^ 63)%Z.

Definition deque_new (m : Z) : outcome deque :=
  if (m <? 0)%Z
  then Raised (ValueError "maxlen must be non-negative")
  else Returned {| items := []; maxlen := Z.to_nat m |}.

(** [append] on a full deque discards from the left end, [appendleft] from the
    right end. *)
Definition append (x : QueuedItem) (d : deque) : deque :=
  let l := items d ++ [x] in
  {| items := if (maxlen d <? length l)%nat then tl l else l; maxlen := maxlen d |}.

Definition appendleft (x : QueuedItem) (d : deque) : deque :=
  let l := x :: items d in
  {| items := if (maxlen d <? length l)%nat then removelast l else l; maxlen := maxlen d |}.

Definition popleft (d : deque) : option (QueuedItem * deque) :=
  match items d with
  | [] => None
  | x :: rest => Some (x, {| items := rest; maxlen := maxlen d |})
  end.

(** The [_stats] dictionary. *)
Record Stats : Type := mkStats {
  rate_limit_hits : Z;
  messages_queued : Z;
  messages_sent : Z;
  queue_overflows : Z
}.

(** A drain task ([_process_channel_queue]) between two runs: where it is
    suspended, with the local variables it holds there. *)
Inductive Task : Type :=
| TStart                                      (* created, not yet run *)
| TWaitGlobalLock (item : QueuedItem)         (* line 192, lock taken by another task *)
| TGlobalSleep (item : QueuedItem) (wake : Q) (* line 195, holding the global lock *)
| TChannelSleep (item : QueuedItem) (wake : Q) (* line 204 *)
| TAwaitCoro (item : QueuedItem)              (* line 209, target operation in flight *)
| TRetrySleep (wake : Q)                      (* line 229 *)
| TFailed (e : PyExn).                        (* ended by an exception; the entry stays *)

Record RateLimiter : Type := mkRateLimiter {
  _channel_queues : gmap Z deque;
  _channel_locks : gmap Z bool;               (* [true] while held *)
  _channel_buckets : gmap Z RateLimitBucket;
  _processing_tasks : gmap Z Task;
  _global_bucket : RateLimitBucket;
  _global_lock : bool;
  _audit_log_bucket : RateLimitBucket;
  _audit_log_lock : bool;
  _channel_rate_limit : Q;
  _channel_window : Q;
  _send_spacing : Q;
  _max_queue_size : Z;
  _enabled : bool;
  _stats : Stats
}.

(** [RateLimiter.__init__], with [time.time()] read as [now]. *)
Definition init (now : Q) : RateLimiter :=
  {| _channel_queues := ∅;
     _channel_locks := ∅;
     _channel_buckets := ∅;
     _processing_tasks := ∅;
     _global_bucket := mkBucket 50 50 50 now;
     _global_lock := false;
     _audit_log_bucket := mkBucket 2 2 2 now;
     _audit_log_lock := false;
     _channel_rate_limit := 5;
     _channel_window := 5;
     _send_spacing := 0.1;
     _max_queue_size := 100;
     _enabled := true;
     _stats := mkStats 0 0 0 0 |}.

(** Field updates. *)
Definition set_channel_queues (v : gmap Z deque) (rl : RateLimiter) : RateLimiter :=
  mkRateLimiter v (_channel_locks rl) (_channel_buckets rl) (_processing_tasks rl)
    (_global_bucket rl) (_global_lock rl) (_audit_log_bucket rl) (_audit_log_lock rl)
    (_channel_rate_limit rl) (_channel_window rl) (_send_spacing rl)
    (_max_queue_size rl) (_enabled rl) (_stats rl).

Definition set_channel_locks (v : gmap Z bool) (rl : RateLimiter) : RateLimiter :=
  mkRateLimiter (_channel_queues rl) v (_channel_buckets rl) (_processing_tasks rl)
    (_global_bucket rl) (_global_lock rl) (_audit_log_bucket rl) (_audit_log_lock rl)
    (_channel_rate_limit rl) (_channel_window rl) (_send_spacing rl)
    (_max_queue_size rl) (_enabled rl) (_stats rl).

Definition set_channel_buckets (v : gmap Z RateLimitBucket) (rl : RateLimiter) : RateLimiter :=
  mkRateLimiter (_channel_queues rl) (_channel_locks rl) v (_processing_tasks rl)
    (_global_bucket rl) (_global_lock rl) (_audit_log_bucket rl) (_audit_log_lock rl)
    (_channel_rate_limit rl) (_channel_window rl) (_send_spacing rl)
    (_max_queue_size rl) (_enabled rl) (_stats rl).

Definition set_processing_tasks (v : gmap Z Task) (rl : RateLimiter) : RateLimiter :=
  mkRateLimiter (_channel_queues rl) (_channel_locks rl) (_channel_buckets rl) v
    (_global_bucket rl) (_global_lock rl) (_audit_log_bucket rl) (_audit_log_lock rl)
    (_channel_rate_limit rl) (_channel_window rl) (_send_spacing rl)
    (_max_queue_size rl) (_enabled rl) (_stats rl).

Definition set_global_bucket (v : RateLimitBucket) (rl : RateLimiter) : RateLimiter :=
  mkRateLimiter (_channel_queues rl) (_channel_locks rl) (_channel_buckets rl)
    (_processing_tasks rl) v (_global_lock rl) (_audit_log_bucket rl) (_audit_log_lock rl)
    (_channel_rate_limit rl) (_channel_window rl) (_send_spacing rl)
    (_max_queue_size rl) (_enabled rl) (_stats rl).

Definition set_global_lock (v : bool) (rl : RateLimiter) : RateLimiter :=
  mkRateLimiter (_channel_queues rl) (_channel_locks rl) (_channel_buckets rl)
    (_processing_tasks rl) (_global_bucket rl) v (_audit_log_bucket rl) (_audit_log_lock rl)
    (_channel_rate_limit rl) (_channel_window rl) (_send_spacing rl)
    (_max_queue_size rl) (_enabled rl) (_stats rl).

Definition set_audit_log_bucket (v : RateLimitBucket) (rl : RateLimiter) : RateLimiter :=
  mkRateLimiter (_channel_queues rl) (_channel_locks rl) (_channel_buckets rl)
    (_processing_tasks rl) (_global_bucket rl) (_global_lock rl) v (_audit_log_lock rl)
    (_channel_rate_limit rl) (_channel_window rl) (_send_spacing rl)
    (_max_queue_size rl) (_enabled rl) (_stats rl).

Definition set_audit_log_lock (v : bool) (rl : RateLimiter) : RateLimiter :=
  mkRateLimiter (_channel_queues rl) (_channel_locks rl) (_channel_buckets rl)
    (_processing_tasks rl) (_global_bucket rl) (_global_lock rl) (_audit_log_bucket rl) v
    (_channel_rate_limit rl) (_channel_window rl) (_send_spacing rl)
    (_max_queue_size rl) (_enabled rl) (_stats rl).

Definition set_stats (v : Stats) (rl : RateLimiter) : RateLimiter :=
  mkRateLimiter (_channel_queues rl) (_channel_locks rl) (_channel_buckets rl)
    (_processing_tasks rl) (_global_bucket rl) (_global_lock rl) (_audit_log_bucket rl)
    (_audit_log_lock rl) (_channel_rate_limit rl) (_channel_window rl) (_send_spacing rl)
    (_max_queue_size rl) (_enabled rl) v.

Definition incr_rate_limit_hits (st : Stats) : Stats :=
  mkStats (rate_limit_hits st + 1)%Z (messages_queued st) (messages_sent st) (queue_overflows st).
Definition incr_messages_queued (st : Stats) : Stats :=
  mkStats (rate_limit_hits st) (messages_queued st + 1)%Z (messages_sent st) (queue_overflows st).
Definition incr_messages_sent (st : Stats) : Stats :=
  mkStats (rate_limit_hits st) (messages_queued st) (messages_sent st + 1)%Z (queue_overflows st).
Definition incr_queue_overflows (st : Stats) : Stats :=
  mkStats (rate_limit_hits st) (messages_queued st) (messages_sent st) (queue_overflows st + 1)%Z.

(** [configure]: every argument is optional, [None] keeps the current value. *)
Definition configure
    (channel_rate_limit channel_window send_spacing : option Q)
    (max_queue_size : option Z) (enabled : option bool)
    (rl : RateLimiter) : RateLimiter :=
  mkRateLimiter (_channel_queues rl) (_channel_locks rl) (_channel_buckets rl)
    (_processing_tasks rl) (_global_bucket rl) (_global_lock rl) (_audit_log_bucket rl)
    (_audit_log_lock rl)
    (default (_channel_rate_limit rl) channel_rate_limit)
    (default (_channel_window rl) channel_window)
    (default (_send_spacing rl) send_spacing)
    (default (_max_queue_size rl) max_queue_size)
    (default (_enabled rl) enabled)
    (_stats rl).

(** [get_stats]: the counters, the length of every queue, the number of queues. *)
Definition get_stats (rl : RateLimiter) : Stats * gmap Z nat * nat :=
  (_stats rl, (fun q => length (items q)) <$> _channel_queues rl, size (_channel_queues rl)).

(** [_get_channel_bucket]: the limiter after the get-or-create; the bucket is
    then [_channel_buckets !! channel_id].  Creating one divides by
    [_channel_window]. *)
Definition _get_channel_bucket (channel_id : Z) (now : Q) (rl : RateLimiter)
  : outcome RateLimiter :=
  match _channel_buckets rl !! channel_id with
  | Some _ => Returned rl
  | None =>
      if Qeq_bool (_channel_window rl) 0
      then Raised ZeroDivisionError
      else
        let b := {| tokens := _channel_rate_limit rl;
                    capacity := _channel_rate_limit rl;
                    refill_rate := _channel_rate_limit rl / _channel_window rl;
                    last_refill := now |} in
        Returned (set_channel_buckets (<[channel_id := b]> (_channel_buckets rl)) rl)
  end.

(** [_get_channel_lock]. *)
Definition _get_channel_lock (channel_id : Z) (rl : RateLimiter) : RateLimiter :=
  match _channel_locks rl !! channel_id with
  | Some _ => rl
  | None => set_channel_locks (<[channel_id := false]> (_channel_locks rl)) rl
  end.

(** [_get_channel_queue]: a new queue takes its [maxlen] from the
    [_max_queue_size] of the moment. *)
Definition _get_channel_queue (channel_id : Z) (rl : RateLimiter) : outcome RateLimiter :=
  match _channel_queues rl !! channel_id with
  | Some _ => Returned rl
  | None =>
      match deque_new (_max_queue_size rl) with
      | Raised e => Raised e
      | Returned q =>
          Returned (set_channel_queues (<[channel_id := q]> (_channel_queues rl)) rl)
      end
  end.

(** [get_channel_queue_size]. *)
Definition get_channel_queue_size (channel_id : Z) (rl : RateLimiter)
  : outcome (nat * RateLimiter) :=
  match _get_channel_queue channel_id rl with
  | Raised e => Raised e
  | Returned rl1 =>
      Returned (length (items (default (mkDeque [] 0) (_channel_queues rl1 !! channel_id))), rl1)
  end.

(** ** The world: the limiter, the clock and the objects around it *)

(** Who invoked a target operation. *)
Inductive origin : Type :=
| FromChannel (channel_id : Z)
| FromAudit
| FromBypass.

Record World : Type := mkWorld {
  clock : Q;
  limiter : RateLimiter;
  futures : list FutureState;     (* every [asyncio.Future()] made so far *)
  created_tasks : list (Op * FutureState);
                                  (* every [asyncio.create_task(coro(...))] of
                                     the bypass, with the state of the task *)
  calls : list (origin * Op)      (* target operations invoked so far, oldest first *)
}.

Definition set_clock (v : Q) (w : World) : World :=
  mkWorld v (limiter w) (futures w) (created_tasks w) (calls w).
Definition set_limiter (v : RateLimiter) (w : World) : World :=
  mkWorld (clock w) v (futures w) (created_tasks w) (calls w).
Definition set_futures (v : list FutureState) (w : World) : World :=
  mkWorld (clock w) (limiter w) v (created_tasks w) (calls w).
Definition set_created_tasks (v : list (Op * FutureState)) (w : World) : World :=
  mkWorld (clock w) (limiter w) (futures w) v (calls w).
Definition set_calls (v : list (origin * Op)) (w : World) : World :=
  mkWorld (clock w) (limiter w) (futures w) (created_tasks w) v.

Definition new_world (now : Q) : World :=
  {| clock := now; limiter := init now; futures := []; created_tasks := []; calls := [] |}.

(** [await asyncio.sleep(d)] seen by the sleeping task alone: it resumes
    exactly [d] later; a non-positive delay does not wait. *)
Definition sleep (d : Q) (w : World) : World :=
  if Qle_bool d 0 then w else set_clock (clock w + d) w.

(** What a caller of [enqueue_send] gets back. *)
Inductive Handle : Type :=
| HFuture (id : nat)              (* the new [asyncio.Future] *)
| HTask (id : nat).               (* the task made by [asyncio.create_task] *)

(** [future.set_result] / [future.set_exception]. *)
Definition set_done (id : nat) (r : outcome Val) (fs : list FutureState) : list FutureState :=
  <[id := Done r]> fs.

(** [if item.future and not item.future.done(): item.future.set_...(r)]. *)
Definition resolve (f : option nat) (r : outcome Val) (fs : list FutureState)
  : list FutureState :=
  match f with
  | None => fs
  | Some id =>
      match fs !! id with
      | Some Pending => set_done id r fs
      | _ => fs
      end
  end.

(** [enqueue_send].  The channel lock is free whenever a task runs (no task
    keeps it across a suspension), so the whole call is one uninterrupted run.
    With limiting disabled, [asyncio.create_task] only schedules the
    operation: the new task is pending when [enqueue_send] returns, and the
    event loop runs it afterwards ([run_created_task]). *)
Definition enqueue_send (channel_id : Z) (c : Op) (w : World) : outcome Handle * World :=
  let rl := limiter w in
  if negb (_enabled rl) then
    (Returned (HTask (length (created_tasks w))),
     set_created_tasks (created_tasks w ++ [(c, Pending)]) w)
  else
    let fid := length (futures w) in
    let w1 := set_futures (futures w ++ [Pending]) w in
    let item := {| coro := c; future := Some fid; timestamp := clock w |} in
    match _get_channel_queue channel_id rl with
    | Raised e => (Raised e, w1)
    | Returned rl1 =>
        let rl2 := _get_channel_lock channel_id rl1 in
        match _channel_queues rl2 !! channel_id with
        | None => (Raised KeyError, w1)
        | Some queue =>
            if (_max_queue_size rl2 <=? Z.of_nat (length (items queue)))%Z then
              let rl3 := set_stats (incr_queue_overflows (_stats rl2)) rl2 in
              (Returned (HFuture fid),
               set_futures
                 (set_done fid (Raised (ValueError "Rate limit queue overflow")) (futures w1))
                 (set_limiter rl3 w1))
            else
              let rl3 := set_channel_queues
                           (<[channel_id := append item queue]> (_channel_queues rl2)) rl2 in
              let rl4 := set_stats (incr_messages_queued (_stats rl3)) rl3 in
              let rl5 :=
                match _processing_tasks rl4 !! channel_id with
                | Some _ => rl4
                | None => set_processing_tasks
                            (<[channel_id := TStart]> (_processing_tasks rl4)) rl4
                end in
              (Returned (HFuture fid), set_limiter rl5 w1)
        end
    end.

(** The event loop runs the task [id] that the bypass of [enqueue_send] made:
    the operation is awaited, and what it returns or raises is the result of
    the task.  A task that is done does not run again. *)
Definition run_created_task (id : nat) (w : World) : World :=
  match created_tasks w !! id with
  | Some (c, Pending) =>
      set_calls (calls w ++ [(FromBypass, c)])
        (set_created_tasks (<[id := (c, Done (run c))]> (created_tasks w)) w)
  | _ => w
  end.

(** The state changes of [handle_rate_limit_response] (lines 313-327). *)
Definition rate_limit_update (channel_id : option Z) (retry_after : Q) (w : World)
  : outcome unit * World :=
  let rl := set_stats (incr_rate_limit_hits (_stats (limiter w))) (limiter w) in
  match channel_id with
  | Some ch =>
      match _get_channel_bucket ch (clock w) rl with
      | Raised e => (Raised e, set_limiter rl w)
      | Returned rl1 =>
          match _channel_buckets rl1 !! ch with
          | None => (Raised KeyError, set_limiter rl1 w)
          | Some bucket =>
              (Returned tt,
               set_limiter
                 (set_channel_buckets
                    (<[ch := backoff bucket (clock w) retry_after]> (_channel_buckets rl1))
                    rl1) w)
          end
      end
  | None =>
      (Returned tt,
       set_limiter
         (set_global_bucket (backoff (_global_bucket rl) (clock w) retry_after) rl) w)
  end.

(** [handle_rate_limit_response]: the update, then the caller's own
    [await asyncio.sleep(retry_after)]. *)
Definition handle_rate_limit_response (channel_id : option Z) (retry_after : Q) (w : World)
  : outcome unit * World :=
  match rate_limit_update channel_id retry_after w with
  | (Raised e, w1) => (Raised e, w1)
  | (Returned _, w1) => (Returned tt, sleep retry_after w1)
  end.

(** [execute_with_audit_log_limit], for a caller that finds the audit lock
    free: it then runs to its end against the audit bucket, which only holders
    of that lock touch. *)
Definition execute_with_audit_log_limit (c : Op) (w : World) : outcome Val * World :=
  if negb (_enabled (limiter w)) then
    (run c, set_calls (calls w ++ [(FromAudit, c)]) w)
  else
    let '(r1, b1) := wait_time (_audit_log_bucket (limiter w)) 1 (clock w) in
    let w1 := set_limiter (set_audit_log_bucket b1 (limiter w)) w in
    match r1 with
    | Raised e => (Raised e, w1)
    | Returned wt1 =>
        let w2 := if Qle_bool wt1 0 then w1 else sleep wt1 w1 in
        let '(ok, b2) := consume (_audit_log_bucket (limiter w2)) 1 (clock w2) in
        let w3 := set_limiter (set_audit_log_bucket b2 (limiter w2)) w2 in
        if ok then
          (run c, set_calls (calls w3 ++ [(FromAudit, c)]) w3)
        else
          let '(r2, b3) := wait_time (_audit_log_bucket (limiter w3)) 1 (clock w3) in
          let w4 := set_limiter (set_audit_log_bucket b3 (limiter w3)) w3 in
          match r2 with
          | Raised e => (Raised e, w4)
          | Returned wt2 =>
              let w5 := if Qle_bool wt2 0 then w4 else sleep wt2 w4 in
              (run c, set_calls (calls w5 ++ [(FromAudit, c)]) w5)
          end
    end.

(** ** [_process_channel_queue]: the drain task of one channel

    Tasks are scheduled cooperatively, so a task runs without interruption from
    one suspension point to the next.  [dispatch ch] is one such run of channel
    [ch]'s drain task; the functions below are the stretches of the loop body
    between suspension points, each ending where the task suspends next. *)

Definition set_task (ch : Z) (t : Task) (w : World) : World :=
  set_limiter
    (set_processing_tasks (<[ch := t]> (_processing_tasks (limiter w))) (limiter w)) w.

(** Lines 186-187: [self._processing_tasks.pop(channel_id, None); return]. *)
Definition finish_task (ch : Z) (w : World) : World :=
  set_limiter
    (set_processing_tasks (delete ch (_processing_tasks (limiter w))) (limiter w)) w.

Definition put_channel_bucket (ch : Z) (b : RateLimitBucket) (w : World) : World :=
  set_limiter
    (set_channel_buckets (<[ch := b]> (_channel_buckets (limiter w))) (limiter w)) w.

Definition put_channel_queue (ch : Z) (q : deque) (w : World) : World :=
  set_limiter
    (set_channel_queues (<[ch := q]> (_channel_queues (limiter w))) (limiter w)) w.

Definition put_global_bucket (b : RateLimitBucket) (w : World) : World :=
  set_limiter (set_global_bucket b (limiter w)) w.

Definition put_global_lock (v : bool) (w : World) : World :=
  set_limiter (set_global_lock v (limiter w)) w.

(** Lines 207-229: consume a channel token, then start the target operation or
    put the item back at the head of the queue. *)
Definition consume_phase (ch : Z) (item : QueuedItem) (w : World) : World :=
  match _channel_buckets (limiter w) !! ch, _channel_queues (limiter w) !! ch with
  | Some bucket, Some queue =>
      let '(ok, bucket') := consume bucket 1 (clock w) in
      let w1 := put_channel_bucket ch bucket' w in
      if ok then
        set_task ch (TAwaitCoro item)
          (set_calls (calls w1 ++ [(FromChannel ch, coro item)]) w1)
      else
        set_task ch (TRetrySleep (clock w1 + 0.1))
          (put_channel_queue ch (appendleft item queue) w1)
  | _, _ => set_task ch (TFailed KeyError) w
  end.

(** Lines 199-204: wait for the channel bucket. *)
Definition channel_phase (ch : Z) (item : QueuedItem) (w : World) : World :=
  match _channel_buckets (limiter w) !! ch with
  | Some bucket =>
      let '(r, bucket') := wait_time bucket 1 (clock w) in
      let w1 := put_channel_bucket ch bucket' w in
      match r with
      | Raised e => set_task ch (TFailed e) w1
      | Returned wt =>
          if Qle_bool wt 0
          then consume_phase ch item w1
          else set_task ch (TChannelSleep item (clock w1 + wt)) w1
      end
  | None => set_task ch (TFailed KeyError) w
  end.

(** Line 196 and the end of the [async with self._global_lock] block. *)
Definition after_global_wait (ch : Z) (item : QueuedItem) (w : World) : World :=
  let '(_, g) := consume (_global_bucket (limiter w)) 1 (clock w) in
  channel_phase ch item (put_global_lock false (put_global_bucket g w)).

(** Lines 192-195: take the global lock and wait for the global bucket. *)
Definition global_phase (ch : Z) (item : QueuedItem) (w : World) : World :=
  if _global_lock (limiter w) then set_task ch (TWaitGlobalLock item) w
  else
    let '(r, g) := wait_time (_global_bucket (limiter w)) 1 (clock w) in
    let w1 := put_global_bucket g w in
    match r with
    | Raised e => set_task ch (TFailed e) w1
    | Returned wt =>
        if Qle_bool wt 0
        then after_global_wait ch item (put_global_lock true w1)
        else set_task ch (TGlobalSleep item (clock w1 + wt)) (put_global_lock true w1)
    end.

(** Lines 183-189: the head of the queue, or the end of the task. *)
Definition loop_top (ch : Z) (w : World) : World :=
  match _channel_queues (limiter w) !! ch with
  | Some queue =>
      match popleft queue with
      | None => finish_task ch w
      | Some (item, queue') => global_phase ch item (put_channel_queue ch queue' w)
      end
  | None => set_task ch (TFailed KeyError) w
  end.

(** Lines 177-179: the task's first run gets or creates the queue, the lock
    and the bucket of its channel. *)
Definition start_task (ch : Z) (w : World) : World :=
  match _get_channel_queue ch (limiter w) with
  | Raised e => set_task ch (TFailed e) w
  | Returned rl1 =>
      let rl2 := _get_channel_lock ch rl1 in
      match _get_channel_bucket ch (clock w) rl2 with
      | Raised e => set_task ch (TFailed e) (set_limiter rl2 w)
      | Returned rl3 => loop_top ch (set_limiter rl3 w)
      end
  end.

(** Lines 209-220: the target operation has ended.  The handler is
    [except Exception]: a raise that is no [Exception] is not caught, leaves
    the future as it is and leaves the coroutine. *)
Definition complete (ch : Z) (item : QueuedItem) (w : World) : outcome World :=
  match run (coro item) with
  | Returned v =>
      let w1 := set_futures (resolve (future item) (Returned v) (futures w)) w in
      Returned
        (set_limiter (set_stats (incr_messages_sent (_stats (limiter w1))) (limiter w1)) w1)
  | Raised e =>
      if is_exception e
      then Returned (set_futures (resolve (future item) (Raised e) (futures w)) w)
      else Raised e
  end.

(** The operation ends with a raise that [except Exception] does not catch. *)
Definition escapes (c : Op) : bool :=
  match run c with
  | Raised e => negb (is_exception e)
  | Returned _ => false
  end.

(** One run of channel [ch]'s drain task, from where it is suspended to its
    next suspension.  A task asleep before its wake-up time, or waiting for a
    lock that is still taken, does not move. *)
Definition dispatch (ch : Z) (w : World) : World :=
  match _processing_tasks (limiter w) !! ch with
  | None => w
  | Some TStart => start_task ch w
  | Some (TWaitGlobalLock item) => global_phase ch item w
  | Some (TGlobalSleep item wake) =>
      if Qle_bool wake (clock w) then after_global_wait ch item w else w
  | Some (TChannelSleep item wake) =>
      if Qle_bool wake (clock w) then consume_phase ch item w else w
  | Some (TAwaitCoro item) =>
      match complete ch item w with
      | Returned w1 => loop_top ch w1
      | Raised e => set_task ch (TFailed e) w
      end
  | Some (TRetrySleep wake) =>
      if Qle_bool wake (clock w) then loop_top ch w else w
  | Some (TFailed _) => w
  end.

(** *** Schedules *)

(** What can happen between two suspension points of the system.  [shutdown]
    is not among the events: what its [task.cancel()] does to a task whose
    operation is in flight is up to that operation, and the drain tasks
    started while it waits for the cancelled ones lose their entry in
    [_processing_tasks] while they run, which the registry below, one task
    per channel, cannot hold.  The schedules of this development are those
    in which [shutdown] is not called. *)
Inductive event : Type :=
| EvEnqueue (ch : Z) (c : Op)                     (* a caller runs [enqueue_send] *)
| EvDispatch (ch : Z)                             (* the drain task of [ch] runs *)
| EvAdvance (d : Q)                               (* time passes *)
| EvRateLimited (ch : option Z) (retry_after : Q) (* [handle_rate_limit_response] up to its sleep *)
| EvConfigure (channel_rate_limit channel_window send_spacing : option Q)
              (max_queue_size : option Z) (enabled : option bool)
| EvRunTask (id : nat).                           (* the event loop runs a task of the bypass *)

Definition advance (d : Q) (w : World) : World :=
  if Qle_bool 0 d then set_clock (clock w + d) w else w.

Definition step (w : World) (e : event) : World :=
  match e with
  | EvEnqueue ch c => snd (enqueue_send ch c w)
  | EvDispatch ch => dispatch ch w
  | EvAdvance d => advance d w
  | EvRateLimited ch r => snd (rate_limit_update ch r w)
  | EvConfigure a b c d e => set_limiter (configure a b c d e (limiter w)) w
  | EvRunTask id => run_created_task id w
  end.

Definition run_events (w : World) (evs : list event) : World := fold_left step evs w.

(** The drain task of [ch] running alone: whenever it sleeps, the clock moves
    to its wake-up time and it runs again, at most [fuel] times. *)
Definition wake_time (t : Task) (now : Q) : Q :=
  match t with
  | TGlobalSleep _ wake | TChannelSleep _ wake | TRetrySleep wake => Qmax now wake
  | _ => now
  end.

Fixpoint drain (fuel : nat) (ch : Z) (w : World) : World :=
  match fuel with
  | O => w
  | S fuel' =>
      match _processing_tasks (limiter w) !! ch with
      | None => w
      | Some t => drain fuel' ch (dispatch ch (set_clock (wake_time t (clock w)) w))
      end
  end.

(** The operations that channel [ch]'s drain task has invoked, oldest first. *)
Fixpoint calls_of (ch : Z) (l : list (origin * Op)) : list Op :=
  match l with
  | [] => []
  | (FromChannel ch', c) :: rest =>
      if decide (ch' = ch) then c :: calls_of ch rest else calls_of ch rest
  | (FromAudit, _) :: rest | (FromBypass, _) :: rest => calls_of ch rest
  end.

(** ** Words for the statements about admission *)

(** The state of a future that [enqueue_send] has refused. *)
Definition overflow_failure : FutureState :=
  Done (Raised (ValueError "Rate limit queue overflow")).

(** The items that admitting [cs] at time [now] creates, the first with
    future [start]. *)
Fixpoint queued_items (start : nat) (now : Q) (cs : list Op) : list QueuedItem :=
  match cs with
  | [] => []
  | c :: rest => mkItem c (Some start) now :: queued_items (S start) now rest
  end.

(** ** What one channel sees of a run

    The proofs about queues follow one channel through a schedule.  What
    matters of the world is then the channel's queue, its drain task, the
    operations invoked for it and the futures; [drain_step] lists what one run
    of the drain task can do to these, whatever the buckets say. *)

Definition view : Type :=
  (option deque * option Task * list Op * list FutureState)%type.

Definition view_of (ch : Z) (w : World) : view :=
  (_channel_queues (limiter w) !! ch, _processing_tasks (limiter w) !! ch,
   calls_of ch (calls w), futures w).

(** The item a suspended task holds back from the queue, not yet invoked. *)
Definition held_item (t : Task) : option QueuedItem :=
  match t with
  | TWaitGlobalLock item | TGlobalSleep item _ | TChannelSleep item _ => Some item
  | _ => None
  end.

(** The item a task refers to at all. *)
Definition task_item (t : Task) : option QueuedItem :=
  match t with
  | TAwaitCoro item => Some item
  | _ => held_item t
  end.

(** The tasks that resume at the top of the loop. *)
Definition at_top (t : Task) : Prop :=
  match t with
  | TStart | TRetrySleep _ => True
  | _ => False
  end.

Inductive held_outcome (item : QueuedItem) (qo : option deque)
    (cs : list Op) (fs : list FutureState) : view -> Prop :=
| HO_lock : held_outcome item qo cs fs (qo, Some (TWaitGlobalLock item), cs, fs)
| HO_global_sleep wake :
    held_outcome item qo cs fs (qo, Some (TGlobalSleep item wake), cs, fs)
| HO_channel_sleep wake :
    held_outcome item qo cs fs (qo, Some (TChannelSleep item wake), cs, fs)
| HO_invoke :
    held_outcome item qo cs fs (qo, Some (TAwaitCoro item), cs ++ [coro item], fs)
| HO_requeue q wake :
    qo = Some q ->
    held_outcome item qo cs fs (Some (appendleft item q), Some (TRetrySleep wake), cs, fs)
| HO_fail e : held_outcome item qo cs fs (qo, Some (TFailed e), cs, fs).

Inductive top_outcome (q : deque) (cs : list Op) (fs : list FutureState) : view -> Prop :=
| TO_finish : items q = [] -> top_outcome q cs fs (Some q, None, cs, fs)
| TO_pop item q' v :
    popleft q = Some (item, q') -> held_outcome item (Some q') cs fs v ->
    top_outcome q cs fs v.

Inductive drain_step : view -> view -> Prop :=
| DS_stay v : drain_step v v
| DS_fail qo t cs fs e : drain_step (qo, Some t, cs, fs) (qo, Some (TFailed e), cs, fs)
| DS_create_fail q t cs fs e :
    at_top t -> items q = [] ->
    drain_step (None, Some t, cs, fs) (Some q, Some (TFailed e), cs, fs)
| DS_create q t cs fs v :
    at_top t -> items q = [] -> top_outcome q cs fs v ->
    drain_step (None, Some t, cs, fs) v
| DS_top q t cs fs v :
    at_top t -> top_outcome q cs fs v ->
    drain_step (Some q, Some t, cs, fs) v
| DS_complete q item cs fs r v :
    top_outcome q cs (resolve (future item) r fs) v ->
    drain_step (Some q, Some (TAwaitCoro item), cs, fs) v
| DS_complete_fail qo item cs fs r e :
    drain_step (qo, Some (TAwaitCoro item), cs, fs)
               (qo, Some (TFailed e), cs, resolve (future item) r fs)
| DS_held qo t item cs fs v :
    held_item t = Some item -> held_outcome item qo cs fs v ->
    drain_step (qo, Some t, cs, fs) v.

(** What a run for channel [ch] leaves alone: the admission settings, and the
    queue, the task and the invoked operations of every other channel. *)
Definition frame (ch : Z) (w w' : World) : Prop :=
  _enabled (limiter w') = _enabled (limiter w) /\
  _max_queue_size (limiter w') = _max_queue_size (limiter w) /\
  forall ch', ch' <> ch ->
    _channel_queues (limiter w') !! ch' = _channel_queues (limiter w) !! ch' /\
    _processing_tasks (limiter w') !! ch' = _processing_tasks (limiter w) !! ch' /\
    calls_of ch' (calls w') = calls_of ch' (calls w).


(** Events that leave [_max_queue_size] and [_enabled] as they are. *)
Definition keeps_admission (e : event) : Prop :=
  match e with
  | EvConfigure _ _ _ max_queue_size enabled => max_queue_size = None /\ enabled = None
  | _ => True
  end.



(** *** A drain task running alone

    What [drain] needs of a world to empty the queue of [ch]: a global bucket
    whose [wait_time] returns, and a channel bucket that refills and can hold
    the one token a send takes. *)

Definition bucket_good (b : RateLimitBucket) : Prop :=
  0 < refill_rate b /\ 1 <= capacity b.

(** The bucket a new channel gets is good. *)
Definition channel_ready (ch : Z) (rl : RateLimiter) : Prop :=
  match _channel_buckets rl !! ch with
  | Some b => bucket_good b
  | None => 1 <= _channel_rate_limit rl /\ 0 < _channel_window rl
  end.

(** A task asleep until [wake] finds its token then. *)
Definition sleeper_ready (b : RateLimitBucket) (wake : Q) : Prop :=
  1 <= tokens b + (wake - last_refill b) * refill_rate b.

Definition seq_good (ch : Z) (w : World) : Prop :=
  ~ refill_rate (_global_bucket (limiter w)) == 0 /\
  (exists q, _channel_queues (limiter w) !! ch = Some q) /\
  match _processing_tasks (limiter w) !! ch with
  | Some TStart =>
      _global_lock (limiter w) = false /\ channel_ready ch (limiter w)
  | Some (TGlobalSleep _ _) =>
      exists b, _channel_buckets (limiter w) !! ch = Some b /\ bucket_good b
  | Some (TChannelSleep _ wake) =>
      _global_lock (limiter w) = false /\
      exists b, _channel_buckets (limiter w) !! ch = Some b /\ bucket_good b /\
                sleeper_ready b wake
  | Some (TAwaitCoro _) =>
      _global_lock (limiter w) = false /\
      exists b, _channel_buckets (limiter w) !! ch = Some b /\ bucket_good b
  | _ => False
  end.

(** A bound on the runs the task still needs. *)
Definition kind_rank (t : Task) : nat :=
  match t with
  | TGlobalSleep _ _ => 3
  | TChannelSleep _ _ => 2
  | TStart | TAwaitCoro _ => 1
  | _ => 0
  end.

Definition rank (ch : Z) (w : World) : nat :=
  match _channel_queues (limiter w) !! ch, _processing_tasks (limiter w) !! ch with
  | Some q, Some t => 3 * length (items q) + kind_rank t
  | _, _ => 0
  end.

(** What a stretch of the loop that holds an item leaves when all goes well:
    the queue as it was, and the task suspended at most [k] runs away from
    the next item. *)
Definition seq_held_post (ch : Z) (k : nat) (w w' : World) : Prop :=
  seq_good ch w' /\
  _channel_queues (limiter w') !! ch = _channel_queues (limiter w) !! ch /\
  exists t, _processing_tasks (limiter w') !! ch = Some t /\ (kind_rank t <= k)%nat.


Definition caught (c : Op) : Prop := escapes c = false.


(** *** Futures nobody can resolve any more *)

(** No queued item and no drain task refers to future [f]. *)
Definition unreferenced (f : nat) (w : World) : Prop :=
  (forall ch q item, _channel_queues (limiter w) !! ch = Some q ->
                     In item (items q) -> future item <> Some f) /\
  (forall ch t item, _processing_tasks (limiter w) !! ch = Some t ->
                     task_item t = Some item -> future item <> Some f).

(** The same, of what one channel sees, for a future that is still pending. *)
Definition view_quiet (f : nat) (v : view) : Prop :=
  let '(qo, t, _, fs) := v in
  fs !! f = Some Pending /\
  (forall q item, qo = Some q -> In item (items q) -> future item <> Some f) /\
  (forall t' item, t = Some t' -> task_item t' = Some item -> future item <> Some f).

(** *** What a run does to a channel bucket *)

(** The accesses of a drain run: [wait_time()] and [consume()], both with the
    default amount of one token, at the time of the run. *)
Definition drain_accesses (now : Q) (sched : list (Q * access)) : Prop :=
  Forall (fun ta => fst ta = now /\ (snd ta = AWaitTime 1 \/ snd ta = AConsume 1)) sched.

(** One stretch of a drain task of [ch] leaves the clock and the buckets of
    the other channels alone, and moves the bucket of [ch] by a schedule of
    accesses, invoking one operation per token it hands out. *)
Definition bucket_trace (ch : Z) (w w' : World) : Prop :=
  clock w' = clock w /\
  (forall c, c <> ch ->
     _channel_buckets (limiter w') !! c = _channel_buckets (limiter w) !! c) /\
  forall b, _channel_buckets (limiter w) !! ch = Some b ->
    exists sched l,
      drain_accesses (clock w) sched /\
      _channel_buckets (limiter w') !! ch = Some (final b sched) /\
      calls_of ch (calls w') = calls_of ch (calls w) ++ l /\
      inject_Z (Z.of_nat (length l)) == consumed b sched.

(** Events that are no reset of the bucket of [ch]. *)
Definition no_reset (ch : Z) (e : event) : Prop :=
  match e with
  | EvRateLimited (Some c) _ => c <> ch
  | _ => True
  end.

(** The accesses a schedule of events makes to one channel bucket. *)
Definition bucket_access (a : access) : Prop :=
  a = AWaitTime 1 \/ a = AConsume 1 \/ exists r, a = ABackoff r.

(** A schedule of events moves the bucket of [ch] by a schedule of accesses
    made between its first and its last instant. *)
Definition run_trace (ch : Z) (resets : bool) (w w' : World) : Prop :=
  clock w <= clock w' /\
  forall b, _channel_buckets (limiter w) !! ch = Some b ->
    exists sched l,
      Forall (fun ta => clock w <= fst ta /\ fst ta <= clock w' /\
                        bucket_access (snd ta) /\
                        (resets = false -> no_backoff (snd ta))) sched /\
      _channel_buckets (limiter w') !! ch = Some (final b sched) /\
      calls_of ch (calls w') = calls_of ch (calls w) ++ l /\
      inject_Z (Z.of_nat (length l)) == consumed b sched /\
      (resets = false -> last_refill b <= clock w ->
       timely b sched /\ last_refill (final b sched) <= clock w').

(** *** Queues and their drain tasks *)

(** A queue within its [maxlen]. *)
Definition bounded (q : deque) : Prop := (length (items q) <= maxlen q)%nat.

(** What one channel sees of a queue within its [maxlen]. *)
Definition queue_bounded (v : view) : Prop :=
  let '(qo, _, _, _) := v in
  forall q, qo = Some q -> bounded q.

Definition queues_bounded (w : World) : Prop := forall ch, queue_bounded (view_of ch w).

(** What one channel sees of a queue in order: it is within its [maxlen], and
    it holds nothing unless a drain task is registered. *)
Definition queue_ok (v : view) : Prop :=
  let '(qo, t, _, _) := v in
  forall q, qo = Some q -> bounded q /\ (t = None -> items q = []).

(** The queue is still there, with the [maxlen] it had. *)
Definition same_maxlen (v v' : view) : Prop :=
  let '(qo, _, _, _) := v in
  let '(qo', _, _, _) := v' in
  forall q, qo = Some q -> exists q', qo' = Some q' /\ maxlen q' = maxlen q.

Definition queues_ok (w : World) : Prop := forall ch, queue_ok (view_of ch w).

(** Future [f] is referred to by channel [ch] at most: no queue and no drain
    task of another channel holds an item with that future. *)
Definition only_in (ch : Z) (f : nat) (w : World) : Prop :=
  (forall ch' q item, ch' <> ch -> _channel_queues (limiter w) !! ch' = Some q ->
                      In item (items q) -> future item <> Some f) /\
  (forall ch' t item, ch' <> ch -> _processing_tasks (limiter w) !! ch' = Some t ->
                      task_item t = Some item -> future item <> Some f).

(** *** Events of other channels *)

(** Events that are no call, no drain run and no rate-limit response of
    channel [ch]: those of other channels, global rate-limit responses,
    changes of the settings, the passing of time and the tasks of the
    bypass. *)
Definition foreign (ch : Z) (e : event) : Prop :=
  match e with
  | EvEnqueue c _ | EvDispatch c | EvRateLimited (Some c) _ => c <> ch
  | _ => True
  end.

(** *** Counting calls *)

(** The calls of [enqueue_send] and of [handle_rate_limit_response] in a
    schedule. *)
Fixpoint enqueues (evs : list event) : nat :=
  match evs with
  | [] => 0
  | EvEnqueue _ _ :: rest => S (enqueues rest)
  | _ :: rest => enqueues rest
  end.

Fixpoint responses (evs : list event) : nat :=
  match evs with
  | [] => 0
  | EvRateLimited _ _ :: rest => S (responses rest)
  | _ :: rest => responses rest
  end.

(** *** Callers of the audit path *)

(** Callers of [execute_with_audit_log_limit] served one after the other, as
    the audit lock makes them.  Each is given by the time that passes between
    the return of the previous call and its own start, and by its
    operation. *)
Fixpoint audit_calls (cs : list (Q * Op)) (w : World) : list (outcome Val) * World :=
  match cs with
  | [] => ([], w)
  | (d, c) :: rest =>
      let '(r, w1) := execute_with_audit_log_limit c (advance d w) in
      let '(rs, w2) := audit_calls rest w1 in
      (r :: rs, w2)
  end.

(** The time that passes between the calls. *)
Fixpoint idle_time (cs : list (Q * Op)) : Q :=
  match cs with
  | [] => 0
  | (d, _) :: rest => Qmax 0 d + idle_time rest
  end.

(** An audit bucket in working order: within its bounds, refilling, able to
    hold one token, its refill baseline not in the future. *)
Definition audit_ready (w : World) : Prop :=
  _enabled (limiter w) = true /\
  bucket_inv (_audit_log_bucket (limiter w)) /\
  0 < refill_rate (_audit_log_bucket (limiter w)) /\
  1 <= capacity (_audit_log_bucket (limiter w)) /\
  last_refill (_audit_log_bucket (limiter w)) <= clock w.

(** *** The setting that nothing reads *)

(** Two worlds that differ at most in [_send_spacing]. *)
Definition spacing_apart (w w' : World) : Prop :=
  exists s, w' = set_limiter (configure None None (Some s) None None (limiter w)) w.

(** *** Whose result a future gets *)

(** The items a channel still refers to: those in its queue, and the one its
    drain task holds or has invoked. *)
Definition view_items (v : view) (item : QueuedItem) : Prop :=
  let '(qo, t, _, _) := v in
  (exists q, qo = Some q /\ In item (items q)) \/
  (exists t0, t = Some t0 /\ task_item t0 = Some item).

(** Future [f] is the future of operation [c]: every item that carries it is
    an item of [c], and it is pending or holds the outcome of [c]. *)
Definition routed (f : nat) (c : Op) (w : World) : Prop :=
  (forall ch item, view_items (view_of ch w) item -> future item = Some f -> coro item = c) /\
  (futures w !! f = Some Pending \/ futures w !! f = Some (Done (run c))).

(** The same within one channel, for a future that is resolved before its
    item leaves the channel: while it is pending, an item carries it. *)
Definition owned (f : nat) (c : Op) (v : view) : Prop :=
  (forall item, view_items v item -> future item = Some f -> coro item = c) /\
  (snd v !! f = Some Pending -> exists item, view_items v item /\ future item = Some f) /\
  (snd v !! f = Some Pending \/ snd v !! f = Some (Done (run c))).

(** A drain task that has neither died nor put its item back. *)
Definition task_alive (t : option Task) : Prop :=
  match t with
  | Some (TFailed _) | Some (TRetrySleep _) => False
  | _ => True
  end.

(* ===================================================================== *)
(** * Theorems *)
(* ===================================================================== *)

(** ** Token bucket *)

Section BucketFacts.

Implicit Types (b : RateLimitBucket) (n now : Q).

Lemma Qle_bool_false x y : Qle_bool x y = false <-> y < x.
Proof.
  split; intros H.
  - apply Qnot_le_lt. intros Hle. apply Qle_bool_iff in Hle. congruence.
  - destruct (Qle_bool x y) eqn:E; [|reflexivity].
    apply Qle_bool_iff in E. lra.
Qed.

Lemma Qeq_bool_false x y : Qeq_bool x y = false <-> ~ x == y.
Proof.
  split; intros H.
  - intros Heq. apply Qeq_bool_iff in Heq. congruence.
  - destruct (Qeq_bool x y) eqn:E; [|reflexivity].
    apply Qeq_bool_iff in E. contradiction.
Qed.

Lemma refill_available b now : fst (refill b now) = tokens (snd (refill b now)).
Proof. reflexivity. Qed.

Lemma refill_fields b now :
  capacity (snd (refill b now)) = capacity b /\
  refill_rate (snd (refill b now)) = refill_rate b /\
  last_refill (snd (refill b now)) = now.
Proof. repeat split. Qed.

Lemma refill_le_capacity b now : tokens (snd (refill b now)) <= capacity b.
Proof. cbn. apply Q.le_min_l. Qed.

Lemma refill_nonneg b now :
  0 <= tokens b -> 0 <= capacity b -> 0 <= refill_rate b -> last_refill b <= now ->
  0 <= tokens (snd (refill b now)).
Proof.
  intros Ht Hc Hr Hnow. cbn.
  assert (0 <= (now - last_refill b) * refill_rate b)
    by (apply Qmult_le_0_compat; lra).
  apply Q.min_glb; lra.
Qed.

Lemma wait_time_state b n now : snd (wait_time b n now) = snd (refill b now).
Proof.
  unfold wait_time. destruct (refill b now) as [a b1]. cbn.
  destruct (Qle_bool n a); [reflexivity|].
  destruct (Qeq_bool (refill_rate b1) 0); reflexivity.
Qed.

Lemma consume_true b n now :
  n <= fst (refill b now) ->
  consume b n now = (true, set_tokens (snd (refill b now)) (tokens (snd (refill b now)) - n)).
Proof.
  intros H. unfold consume. destruct (refill b now) as [a b1]. cbn in *.
  apply Qle_bool_iff in H. rewrite H. reflexivity.
Qed.

Lemma consume_false b n now :
  fst (refill b now) < n -> consume b n now = (false, snd (refill b now)).
Proof.
  intros H. unfold consume. destruct (refill b now) as [a b1]. cbn in *.
  apply Qle_bool_false in H. rewrite H. reflexivity.
Qed.

Lemma wait_time_zero b n now :
  n <= fst (refill b now) -> wait_time b n now = (Returned 0, snd (refill b now)).
Proof.
  intros H. unfold wait_time. destruct (refill b now) as [a b1]. cbn in *.
  apply Qle_bool_iff in H. rewrite H. reflexivity.
Qed.

Lemma wait_time_positive b n now :
  fst (refill b now) < n -> ~ refill_rate b == 0 ->
  wait_time b n now =
    (Returned ((n - fst (refill b now)) / refill_rate b), snd (refill b now)).
Proof.
  intros H Hr. unfold wait_time.
  destruct (refill b now) as [a b1] eqn:E.
  assert (refill_rate b1 = refill_rate b) as Hb1
    by (change b1 with (snd (a, b1)); rewrite <- E; reflexivity).
  cbn in *. apply Qle_bool_false in H. rewrite H.
  rewrite Hb1. apply Qeq_bool_false in Hr. rewrite Hr. reflexivity.
Qed.

Lemma wait_time_raises b n now :
  fst (refill b now) < n -> refill_rate b == 0 ->
  wait_time b n now = (Raised ZeroDivisionError, snd (refill b now)).
Proof.
  intros H Hr. unfold wait_time.
  destruct (refill b now) as [a b1] eqn:E.
  assert (refill_rate b1 = refill_rate b) as Hb1
    by (change b1 with (snd (a, b1)); rewrite <- E; reflexivity).
  cbn in *. apply Qle_bool_false in H. rewrite H.
  rewrite Hb1. apply Qeq_bool_iff in Hr. rewrite Hr. reflexivity.
Qed.

(** One timely access keeps the bounds, the rate and the capacity, and does
    not move the refill baseline backwards. *)
Lemma apply_access_timely b now a :
  bucket_inv b -> 0 <= refill_rate b -> timely_access b now a ->
  let b' := apply_access b now a in
  bucket_inv b' /\ refill_rate b' = refill_rate b /\
  last_refill b <= last_refill b'.
Proof.
  intros [Ht Hc] Hr [Hnow Ha].
  assert (0 <= capacity b) as Hcap by lra.
  assert (bucket_inv (snd (refill b now))) as Hlo0
    by (split; [apply refill_nonneg; assumption | exact (refill_le_capacity b now)]).
  destruct a as [|n|n|r]; cbn [apply_access]; cbv zeta.
  - split; [exact Hlo0 | split; [reflexivity | exact Hnow]].
  - destruct (Qlt_le_dec (fst (refill b now)) n) as [Hlt|Hle].
    + rewrite (consume_false _ _ _ Hlt).
      split; [exact Hlo0 | split; [reflexivity | exact Hnow]].
    + rewrite (consume_true _ _ _ Hle).
      rewrite refill_available in Hle.
      destruct (refill_fields b now) as (Hc' & Hr' & Hl').
      destruct Hlo0 as [Hlo Hhi]. revert Hle Hlo Hhi Hc' Hr' Hl'.
      generalize (snd (refill b now)). intros [t c r l]; cbn; intros.
      subst. unfold bucket_inv; cbn. repeat split; try lra; reflexivity.
  - rewrite wait_time_state.
    split; [exact Hlo0 | split; [reflexivity | exact Hnow]].
  - unfold backoff, bucket_inv. cbn. repeat split; lra.
Qed.

End BucketFacts.

(** C1 (counterexample).  A default per-channel bucket (5 tokens, 1 token per
    second) is reset at time 0 with [retry_after = 2]; a refill at time 1,
    before the deadline, leaves [tokens = -1] and moves [last_refill] from 2
    back to 1. *)
Lemma C1_counterexample :
  let b0 := mkBucket 5 5 1 0 in
  let b1 := backoff b0 0 2 in
  let b2 := snd (refill b1 1) in
  bucket_inv b0 /\ bucket_inv b1 /\
  tokens b2 == -1 /\ ~ bucket_inv b2 /\
  last_refill b1 == 2 /\ last_refill b2 == 1 /\ ~ last_refill b1 <= last_refill b2.
Proof.
  cbv zeta. unfold bucket_inv. vm_compute.
  repeat split; try discriminate; intros H; try destruct H as [H _]; apply H; reflexivity.
Qed.

Lemma bucket_bounds_run (b : RateLimitBucket) (sched : list (Q * access)) :
  bucket_inv b -> 0 <= refill_rate b -> timely b sched ->
  Forall bucket_inv (observe b sched) /\
  nondecreasing (map last_refill (b :: observe b sched)).
Proof.
  revert b. induction sched as [|[now a] rest IH]; intros b Hinv Hr Ht.
  - split; [constructor | exact I].
  - destruct Ht as [Ha Hrest].
    destruct (apply_access_timely b now a Hinv Hr Ha) as (Hinv' & Hr' & Hmono).
    cbn zeta in *.
    assert (0 <= refill_rate (apply_access b now a)) as Hr'' by (rewrite Hr'; exact Hr).
    destruct (IH _ Hinv' Hr'' Hrest) as [IH1 IH2].
    split.
    + cbn [observe]. constructor; assumption.
    + cbn [observe map]. cbn [map] in IH2. split; assumption.
Qed.

(** C1 (amended).  Every refill leaves [tokens <= capacity], whatever the
    time.  Along every schedule of accesses (refill, consume, wait_time, and
    the reset of handle_rate_limit_response) in which no access happens before
    the bucket's current [last_refill], a bucket with a non-negative refill
    rate that starts within [0 <= tokens <= capacity] stays within these
    bounds at every observation, and [last_refill] never decreases. *)
Theorem C1_bucket_bounds_timely :
  (forall (b : RateLimitBucket) (now : Q),
      tokens (snd (refill b now)) <= capacity (snd (refill b now))) /\
  (forall (b : RateLimitBucket) (sched : list (Q * access)),
      bucket_inv b -> 0 <= refill_rate b -> timely b sched ->
      Forall bucket_inv (observe b sched) /\
      nondecreasing (map last_refill (b :: observe b sched))).
Proof.
  split.
  - intros b now. exact (refill_le_capacity b now).
  - exact bucket_bounds_run.
Qed.

(** Over exact buckets: a full bucket of capacity 5 refilling at 1 token per
    second is asked for 6 tokens: [wait_time(6)] says 1 second, and after
    exactly that long [consume(6)] still fails, the bucket being capped at 5. *)
Lemma wait_over_capacity_exact :
  let b := mkBucket 5 5 1 0 in
  exists w, fst (wait_time b 6 0) = Returned w /\ w == 1 /\
            fst (consume (snd (wait_time b 6 0)) 6 (0 + w)) = false.
Proof. exists 1. vm_compute. repeat split. Qed.

Lemma consume_after_refill_ok (b : RateLimitBucket) (n t : Q) :
  n <= capacity b -> n <= tokens b + (t - last_refill b) * refill_rate b ->
  fst (consume b n t) = true.
Proof.
  intros Hc Ht. rewrite consume_true; [reflexivity|].
  cbn. apply Q.min_glb; assumption.
Qed.

(** Over exact buckets, the wait is enough within the capacity: for every
    bucket with a positive refill rate and every [n <= capacity],
    [wait_time(n)] returns some [w >= 0], and [consume(n)] called exactly [w]
    later on the untouched bucket succeeds.  For the bucket with capacity 5,
    rate 1 and no tokens, [wait_time(1)] is 1 and [consume(1)] succeeds one
    second later.  In binary64 the first part fails, as shown below. *)
Lemma wait_then_consume_exact :
  (forall (b : RateLimitBucket) (n now : Q),
      0 < refill_rate b -> n <= capacity b ->
      exists w, fst (wait_time b n now) = Returned w /\ 0 <= w /\
                fst (consume (snd (wait_time b n now)) n (now + w)) = true) /\
  (forall t : Q,
      let b := mkBucket 0 5 1 t in
      exists w, fst (wait_time b 1 t) = Returned w /\ w == 1 /\
                fst (consume (snd (wait_time b 1 t)) 1 (t + w)) = true).
Proof.
  assert (forall (b : RateLimitBucket) (n now : Q),
      0 < refill_rate b -> n <= capacity b ->
      exists w, fst (wait_time b n now) = Returned w /\ 0 <= w /\
                (fst (refill b now) < n -> w == (n - fst (refill b now)) / refill_rate b) /\
                fst (consume (snd (wait_time b n now)) n (now + w)) = true) as Hgen.
  { intros b n now Hr Hn.
    pose proof (refill_le_capacity b now) as Hcap.
    destruct (Qlt_le_dec (fst (refill b now)) n) as [Hlt|Hle].
    - rewrite wait_time_positive by (assumption || lra).
      set (a := fst (refill b now)) in *.
      set (w := (n - a) / refill_rate b).
      assert (w * refill_rate b == n - a) as Hw
        by (unfold w; field; lra).
      exists w. cbn [fst snd]. split; [reflexivity|]. split; [|split; [reflexivity|]].
      + unfold w. apply Qle_shift_div_l; lra.
      + apply consume_after_refill_ok; [exact Hn|].
        change (tokens (snd (refill b now))) with a.
        change (last_refill (snd (refill b now))) with now.
        change (refill_rate (snd (refill b now))) with (refill_rate b).
        assert ((now + w - now) * refill_rate b == w * refill_rate b) as E by ring.
        rewrite E, Hw. lra.
    - rewrite wait_time_zero by assumption.
      exists 0. cbn [fst snd]. split; [reflexivity|]. split; [lra|]. split; [lra|].
      apply consume_after_refill_ok; [exact Hn|].
      change (tokens (snd (refill b now))) with (fst (refill b now)).
      change (last_refill (snd (refill b now))) with now.
      change (refill_rate (snd (refill b now))) with (refill_rate b).
      assert ((now + 0 - now) * refill_rate b == 0) as E by ring.
      rewrite E. lra. }
  split.
  - intros b n now Hr Hn.
    destruct (Hgen b n now Hr Hn) as (w & H1 & H2 & _ & H3). eauto.
  - intros t b.
    destruct (Hgen b 1 t) as (w & H1 & H2 & H3 & H4); [reflexivity | cbn; lra |].
    exists w. split; [exact H1|]. split; [|exact H4].
    assert (fst (refill b t) == 0) as Ha.
    { cbn. assert ((t - t) * 1 == 0) as E by ring.
      rewrite E. apply Q.min_r. lra. }
    rewrite H3 by (rewrite Ha; lra).
    rewrite Ha. cbn [refill_rate b]. field.
Qed.

(** C5.  In binary64 the wait that [wait_time] computes is not always
    enough.  With no tokens and 49 tokens per second, [wait_time(1)] is the
    double nearest to 1/49, and that long later the refill gives
    [0.99999999999999989]: [consume(1)] fails.  The global bucket of
    [__init__] (50 tokens per second), emptied at a clock reading of
    1700000000 seconds, is 0.02 seconds later read at the nearest double to
    that time and holds [0.99999904632568359].  And whatever the arithmetic,
    a request above the capacity is never met: a full bucket of 5 asked for
    6 says 1 second and still holds 5 after it. *)
Theorem C5_wait_then_consume_falls_short :
  Binary64.short_after_wait (Binary64.mkBucket 0 50 49 0) 1 0 /\
  Binary64.short_after_wait (Binary64.mkBucket 0 50 50 1700000000) 1 1700000000 /\
  Binary64.short_after_wait (Binary64.mkBucket 5 5 1 0) 6 0.
Proof.
  repeat split; eexists _, _, _; (split; [vm_compute; reflexivity|]);
    (split; [vm_compute; reflexivity|]); split; vm_compute; reflexivity.
Qed.

(** Over exact buckets, at one instant and from one bucket state,
    [consume(n)] succeeds exactly when [wait_time(n)] returns zero.  In
    binary64 the quotient of [wait_time] can be zero without it, as shown
    below. *)
Lemma consume_iff_wait_time_zero_exact (b : RateLimitBucket) (n now : Q) :
  fst (consume b n now) = true <->
  exists w, fst (wait_time b n now) = Returned w /\ w == 0.
Proof.
  destruct (Qlt_le_dec (fst (refill b now)) n) as [Hlt|Hle].
  - rewrite consume_false by assumption. cbn [fst].
    split; [discriminate|]. intros (w & Hw & Hz). exfalso.
    destruct (Qeq_dec (refill_rate b) 0) as [Hr|Hr].
    + rewrite wait_time_raises in Hw by assumption. discriminate.
    + rewrite wait_time_positive in Hw by assumption.
      cbn [fst] in Hw. injection Hw as <-.
      assert ((n - fst (refill b now)) / refill_rate b * refill_rate b
              == n - fst (refill b now)) as E by (field; exact Hr).
      rewrite Hz in E. lra.
  - rewrite consume_true, wait_time_zero by assumption. cbn [fst].
    split; [|reflexivity]. intros _. exists 0. split; reflexivity.
Qed.



(** C8.  [consume(n)] refills first; with at least [n] tokens after the refill
    it takes exactly [n] and succeeds, otherwise it fails and the bucket is
    exactly what the refill made it. *)
Theorem C8_consume_after_refill (b : RateLimitBucket) (n now : Q) :
  let b1 := snd (refill b now) in
  (n <= tokens b1 ->
     consume b n now = (true, set_tokens b1 (tokens b1 - n)) /\
     tokens (snd (consume b n now)) = tokens b1 - n /\
     last_refill (snd (consume b n now)) = now) /\
  (tokens b1 < n -> consume b n now = (false, b1)).
Proof.
  intros b1. split; intros H.
  - rewrite consume_true by exact H. repeat split.
  - apply consume_false. exact H.
Qed.

Lemma C8_consume_after_refill_witness :
  consume (mkBucket 1 5 1 0) 3 1 = (false, snd (refill (mkBucket 1 5 1 0) 1)) /\
  tokens (snd (consume (mkBucket 1 5 1 0) 3 4)) =
    tokens (snd (refill (mkBucket 1 5 1 0) 4)) - 3.
Proof.
  split.
  - apply (proj2 (C8_consume_after_refill (mkBucket 1 5 1 0) 3 1)). reflexivity.
  - apply (proj1 (C8_consume_after_refill (mkBucket 1 5 1 0) 3 4)). cbn. discriminate.
Defined.

(** ** Admission: [enqueue_send] *)

Lemma get_channel_lock_frame (ch : Z) (rl : RateLimiter) :
  let rl' := _get_channel_lock ch rl in
  _channel_queues rl' = _channel_queues rl /\
  _channel_buckets rl' = _channel_buckets rl /\
  _processing_tasks rl' = _processing_tasks rl /\
  _global_bucket rl' = _global_bucket rl /\
  _global_lock rl' = _global_lock rl /\
  _audit_log_bucket rl' = _audit_log_bucket rl /\
  _channel_rate_limit rl' = _channel_rate_limit rl /\
  _channel_window rl' = _channel_window rl /\
  _max_queue_size rl' = _max_queue_size rl /\
  _enabled rl' = _enabled rl /\
  _stats rl' = _stats rl.
Proof.
  unfold _get_channel_lock. destruct (_channel_locks rl !! ch); cbn; repeat split.
Qed.

(** The call on a limiter that is enabled, seen through the queue the call
    works on: the channel's own queue, or a new one when there is none. *)
Lemma enqueue_send_enabled (ch : Z) (c : Op) (w : World) (q : deque) :
  _enabled (limiter w) = true ->
  (_channel_queues (limiter w) !! ch = Some q \/
   _channel_queues (limiter w) !! ch = None /\
   deque_new (_max_queue_size (limiter w)) = Returned q) ->
  let fid := length (futures w) in
  let w' := snd (enqueue_send ch c w) in
  fst (enqueue_send ch c w) = Returned (HFuture fid) /\
  clock w' = clock w /\ calls w' = calls w /\ created_tasks w' = created_tasks w /\
  _channel_buckets (limiter w') = _channel_buckets (limiter w) /\
  _global_bucket (limiter w') = _global_bucket (limiter w) /\
  _global_lock (limiter w') = _global_lock (limiter w) /\
  _channel_rate_limit (limiter w') = _channel_rate_limit (limiter w) /\
  _channel_window (limiter w') = _channel_window (limiter w) /\
  _max_queue_size (limiter w') = _max_queue_size (limiter w) /\
  _enabled (limiter w') = true /\
  if (_max_queue_size (limiter w) <=? Z.of_nat (length (items q)))%Z
  then
    futures w' = futures w ++ [overflow_failure] /\
    _channel_queues (limiter w') = <[ch := q]> (_channel_queues (limiter w)) /\
    _processing_tasks (limiter w') = _processing_tasks (limiter w) /\
    _stats (limiter w') = incr_queue_overflows (_stats (limiter w))
  else
    futures w' = futures w ++ [Pending] /\
    _channel_queues (limiter w') =
      <[ch := append (mkItem c (Some fid) (clock w)) q]> (_channel_queues (limiter w)) /\
    _processing_tasks (limiter w') =
      match _processing_tasks (limiter w) !! ch with
      | Some _ => _processing_tasks (limiter w)
      | None => <[ch := TStart]> (_processing_tasks (limiter w))
      end /\
    _stats (limiter w') = incr_messages_queued (_stats (limiter w)).
Proof.
  intros Hen Hq fid w'. subst w' fid. unfold enqueue_send. rewrite Hen. cbn [negb].
  assert (exists rl1, _get_channel_queue ch (limiter w) = Returned rl1 /\
            _channel_queues rl1 = <[ch := q]> (_channel_queues (limiter w)) /\
            _channel_buckets rl1 = _channel_buckets (limiter w) /\
            _processing_tasks rl1 = _processing_tasks (limiter w) /\
            _global_bucket rl1 = _global_bucket (limiter w) /\
            _global_lock rl1 = _global_lock (limiter w) /\
            _channel_rate_limit rl1 = _channel_rate_limit (limiter w) /\
            _channel_window rl1 = _channel_window (limiter w) /\
            _max_queue_size rl1 = _max_queue_size (limiter w) /\
            _enabled rl1 = _enabled (limiter w) /\
            _stats rl1 = _stats (limiter w)) as (rl1 & -> & Hq1 & Hrest).
  { unfold _get_channel_queue. destruct Hq as [Hq | [Hq Hnew]]; rewrite Hq.
    - eexists. split; [reflexivity|]. rewrite insert_id by exact Hq. repeat split.
    - rewrite Hnew. eexists. split; [reflexivity|]. cbn. repeat split. }
  destruct (get_channel_lock_frame ch rl1)
    as (Lq & Lb & Lt & Lgb & Lgl & Lab & Lrl & Lcw & Lmax & Len & Lst).
  destruct Hrest as (Hb & Ht & Hgb & Hgl & Hrl & Hcw & Hmax & Hen1 & Hst).
  cbv zeta in *.
  rewrite Lq, Hq1, lookup_insert_eq. rewrite Lmax, Hmax.
  destruct (_max_queue_size (limiter w) <=? Z.of_nat (length (items q)))%Z.
  - cbn. rewrite Lb, Lt, Lgb, Lgl, Lrl, Lcw, Lmax, Len, Lq, Lst.
    rewrite Hb, Ht, Hgb, Hgl, Hrl, Hcw, Hmax, Hen1, Hq1, Hst, Hen.
    repeat split.
    unfold set_done. rewrite insert_app_r_alt by lia.
    rewrite Nat.sub_diag. reflexivity.
  - cbn. rewrite Lt, Ht.
    destruct (_processing_tasks (limiter w) !! ch); cbn;
      rewrite ?Lb, ?Lt, ?Lgb, ?Lgl, ?Lrl, ?Lcw, ?Lmax, ?Len, ?Lq, ?Lst;
      rewrite ?Hb, ?Ht, ?Hgb, ?Hgl, ?Hrl, ?Hcw, ?Hmax, ?Hen1, ?Hq1, ?Hst, ?Hen;
      rewrite ?insert_insert_eq; repeat split.
Qed.

Lemma queued_items_coro (start : nat) (now : Q) (cs : list Op) :
  map coro (queued_items start now cs) = cs.
Proof. revert start. induction cs as [|c cs IH]; intros; cbn; [|rewrite IH]; reflexivity. Qed.

Lemma queued_items_length (start : nat) (now : Q) (cs : list Op) :
  length (queued_items start now cs) = length cs.
Proof. rewrite <- (queued_items_coro start now cs) at 2. now rewrite length_map. Qed.

Lemma append_room (x : QueuedItem) (q : deque) :
  (length (items q) < maxlen q)%nat ->
  append x q = mkDeque (items q ++ [x]) (maxlen q).
Proof.
  intros H. unfold append. cbv zeta.
  destruct (Nat.ltb_spec (maxlen q) (length (items q ++ [x]))) as [Hlt|_]; [|reflexivity].
  rewrite length_app in Hlt. cbn in Hlt. lia.
Qed.

(** Enqueues that all find room are all admitted, in order. *)
Lemma enqueue_many_queued (ch : Z) (cs : list Op) :
  forall (w : World) (q : deque),
    _enabled (limiter w) = true ->
    _channel_queues (limiter w) !! ch = Some q ->
    (length (items q) + length cs <= maxlen q)%nat ->
    (Z.of_nat (length (items q) + length cs) <= _max_queue_size (limiter w))%Z ->
    let w' := run_events w (map (EvEnqueue ch) cs) in
    futures w' = futures w ++ replicate (length cs) Pending /\
    _channel_queues (limiter w') !! ch =
      Some (mkDeque (items q ++ queued_items (length (futures w)) (clock w) cs) (maxlen q)) /\
    clock w' = clock w /\
    _enabled (limiter w') = true /\
    _max_queue_size (limiter w') = _max_queue_size (limiter w) /\
    queue_overflows (_stats (limiter w')) = queue_overflows (_stats (limiter w)) /\
    messages_queued (_stats (limiter w')) =
      (messages_queued (_stats (limiter w)) + Z.of_nat (length cs))%Z.
Proof.
  induction cs as [|c cs IH]; intros w q Hen Hq Hlen Hmax; cbv zeta.
  - cbn. rewrite !app_nil_r, Z.add_0_r. destruct q; repeat split; assumption.
  - cbn [map run_events fold_left step]. cbn [length] in Hlen, Hmax.
    destruct (enqueue_send_enabled ch c w q Hen (or_introl Hq))
      as (_ & Hclk & _ & _ & _ & _ & _ & _ & _ & Hmx & Hen' & Hcase).
    destruct (Z.leb_spec (_max_queue_size (limiter w)) (Z.of_nat (length (items q))))
      as [Hle|_]; [lia|].
    destruct Hcase as (Hf & Hqs & _ & Hst).
    rewrite append_room in Hqs by lia.
    set (w1 := snd (enqueue_send ch c w)) in *.
    assert (_channel_queues (limiter w1) !! ch =
            Some (mkDeque (items q ++ [mkItem c (Some (length (futures w))) (clock w)]) (maxlen q)))
      as Hq1 by (rewrite Hqs; apply lookup_insert_eq).
    specialize (IH w1 _ Hen' Hq1).
    cbn [items maxlen] in IH. rewrite length_app in IH. cbn [length] in IH.
    destruct IH as (I1 & I2 & I3 & I4 & I5 & I6 & I7); [lia | rewrite Hmx; lia |].
    fold (run_events w1 (map (EvEnqueue ch) cs)).
    rewrite I1, I2, I3, I5, I6, I7, Hf, Hclk, Hmx, Hst. cbn.
    rewrite length_app, <- !app_assoc. cbn.
    replace (length (futures w) + 1)%nat with (S (length (futures w))) by lia.
    repeat split; try assumption. lia.
Qed.

(** C3.  On an enabled limiter, [enqueue_send] on a channel whose queue holds
    [_max_queue_size] items returns the new future already resolved with the
    overflow failure, adds one to [queue_overflows] and leaves every queue as
    it was; and [M + 1] calls on a channel with no queue yet, with nothing
    drained in between, admit the first [M] in order and resolve only the last
    with the overflow failure. *)
Theorem C3_queue_overflow :
  (forall (ch : Z) (c : Op) (w : World) (q : deque),
      _enabled (limiter w) = true ->
      _channel_queues (limiter w) !! ch = Some q ->
      Z.of_nat (length (items q)) = _max_queue_size (limiter w) ->
      let w' := snd (enqueue_send ch c w) in
      fst (enqueue_send ch c w) = Returned (HFuture (length (futures w))) /\
      futures w' = futures w ++ [overflow_failure] /\
      _channel_queues (limiter w') = _channel_queues (limiter w) /\
      queue_overflows (_stats (limiter w')) = (queue_overflows (_stats (limiter w)) + 1)%Z /\
      messages_queued (_stats (limiter w')) = messages_queued (_stats (limiter w))) /\
  (forall (M : nat) (ch : Z) (cs : list Op) (c : Op) (w : World),
      _enabled (limiter w) = true ->
      _max_queue_size (limiter w) = Z.of_nat M ->
      _channel_queues (limiter w) !! ch = None ->
      length cs = M ->
      let w' := run_events w (map (EvEnqueue ch) (cs ++ [c])) in
      futures w' = futures w ++ replicate M Pending ++ [overflow_failure] /\
      _channel_queues (limiter w') !! ch =
        Some (mkDeque (queued_items (length (futures w)) (clock w) cs) M) /\
      queue_overflows (_stats (limiter w')) = (queue_overflows (_stats (limiter w)) + 1)%Z /\
      messages_queued (_stats (limiter w')) =
        (messages_queued (_stats (limiter w)) + Z.of_nat M)%Z).
Proof.
  assert (forall (ch : Z) (c : Op) (w : World) (q : deque),
      _enabled (limiter w) = true ->
      _channel_queues (limiter w) !! ch = Some q ->
      (_max_queue_size (limiter w) <= Z.of_nat (length (items q)))%Z ->
      let w' := snd (enqueue_send ch c w) in
      fst (enqueue_send ch c w) = Returned (HFuture (length (futures w))) /\
      futures w' = futures w ++ [overflow_failure] /\
      _channel_queues (limiter w') = _channel_queues (limiter w) /\
      queue_overflows (_stats (limiter w')) = (queue_overflows (_stats (limiter w)) + 1)%Z /\
      messages_queued (_stats (limiter w')) = messages_queued (_stats (limiter w))) as Hfull.
  { intros ch c w q Hen Hq Hlen w'. subst w'.
    destruct (enqueue_send_enabled ch c w q Hen (or_introl Hq))
      as (Hr & _ & _ & _ & _ & _ & _ & _ & _ & _ & _ & Hcase).
    destruct (Z.leb_spec (_max_queue_size (limiter w)) (Z.of_nat (length (items q))))
      as [_|Hlt]; [|lia].
    destruct Hcase as (Hf & Hqs & _ & Hst).
    rewrite Hst, Hqs, insert_id by exact Hq. repeat split; assumption. }
  split.
  - intros ch c w q Hen Hq Hlen. apply (Hfull ch c w q Hen Hq). lia.
  - intros M ch cs c w Hen Hmax Hnone Hlen w'. subst w'.
    (* the queue the first call creates *)
    set (q0 := mkDeque [] M).
    assert (deque_new (_max_queue_size (limiter w)) = Returned q0) as Hnew.
    { unfold deque_new. rewrite Hmax.
      destruct (Z.ltb_spec (Z.of_nat M) 0); [lia|]. now rewrite Nat2Z.id. }
    destruct cs as [|c0 cs].
    + (* M = 0: the very first call overflows *)
      cbn in Hlen. subst M. cbn [app map run_events fold_left step].
      destruct (enqueue_send_enabled ch c w q0 Hen (or_intror (conj Hnone Hnew)))
        as (_ & _ & _ & _ & _ & _ & _ & _ & _ & _ & _ & Hcase).
      rewrite Hmax in Hcase. cbn in Hcase.
      destruct Hcase as (Hf & Hqs & _ & Hst).
      rewrite Hf, Hqs, Hst, lookup_insert_eq. cbn. repeat split. lia.
    + cbn [app map run_events fold_left step].
      destruct (enqueue_send_enabled ch c0 w q0 Hen (or_intror (conj Hnone Hnew)))
        as (_ & Hclk & _ & _ & _ & _ & _ & _ & _ & Hmx & Hen' & Hcase).
      cbn [length] in Hlen.
      destruct (Z.leb_spec (_max_queue_size (limiter w)) (Z.of_nat (length (items q0))))
        as [Hle|_]; [cbn in Hle; lia|].
      destruct Hcase as (Hf & Hqs & _ & Hst).
      rewrite append_room in Hqs by (cbn; lia). cbn [items maxlen q0 app] in Hqs.
      set (w1 := snd (enqueue_send ch c0 w)) in *.
      fold (run_events w1 (map (EvEnqueue ch) (cs ++ [c]))).
      rewrite map_app. unfold run_events. rewrite fold_left_app.
      fold (run_events w1 (map (EvEnqueue ch) cs)).
      assert (_channel_queues (limiter w1) !! ch =
              Some (mkDeque [mkItem c0 (Some (length (futures w))) (clock w)] M)) as Hq1
        by (rewrite Hqs; apply lookup_insert_eq).
      destruct (enqueue_many_queued ch cs w1 _ Hen' Hq1)
        as (I1 & I2 & I3 & I4 & I5 & I6 & I7); [cbn; lia | cbn; rewrite Hmx; lia |].
      set (w2 := run_events w1 (map (EvEnqueue ch) cs)) in *.
      cbn [map fold_left step].
      destruct (Hfull ch c w2 _ I4 I2) as (_ & F2 & F3 & F4 & F5).
      { rewrite I5, Hmx, Hmax. cbn [items]. rewrite length_app, queued_items_length.
        cbn. lia. }
      rewrite F2, F3, F4, F5, I1, I2, I6, I7, Hf, Hst, Hclk. cbn.
      rewrite <- Hlen, <- !app_assoc, length_app. cbn.
      replace (length (futures w) + 1)%nat with (S (length (futures w))) by lia.
      repeat split; lia.
Qed.

(** ** The audit path *)

Lemma wait_time_returns (b : RateLimitBucket) (n now : Q) :
  ~ refill_rate b == 0 ->
  exists wt, wait_time b n now = (Returned wt, snd (refill b now)).
Proof.
  intros Hr. destruct (Qlt_le_dec (fst (refill b now)) n) as [Hlt|Hle].
  - rewrite wait_time_positive by assumption. eauto.
  - rewrite wait_time_zero by assumption. eauto.
Qed.

Lemma consume_fields (b : RateLimitBucket) (n now : Q) :
  capacity (snd (consume b n now)) = capacity b /\
  refill_rate (snd (consume b n now)) = refill_rate b /\
  last_refill (snd (consume b n now)) = now.
Proof.
  unfold consume. destruct (refill b now) as [a b1] eqn:E.
  assert (b1 = snd (refill b now)) as -> by (rewrite E; reflexivity).
  destruct (Qle_bool n a); cbn; repeat split.
Qed.

Lemma consume_false_inv (b : RateLimitBucket) (n now : Q) :
  fst (consume b n now) = false ->
  snd (consume b n now) = snd (refill b now) /\ tokens (snd (refill b now)) < n.
Proof.
  intros H. destruct (Qlt_le_dec (fst (refill b now)) n) as [Hlt|Hle].
  - rewrite consume_false by assumption. split; [reflexivity | exact Hlt].
  - rewrite consume_true in H by assumption. discriminate.
Qed.

(** C7.  With limiting enabled (and a non-zero audit refill rate, so that
    [wait_time] returns), the audit path waits once and tries [consume(1)]
    once.  When that succeeds the bucket is the one [consume] left.  When it
    fails, the second [wait_time] and sleep follow and no further [consume]:
    the bucket has only been refilled, it still holds less than one token, and
    the operation is invoked all the same.  Either way the operation is
    invoked exactly once and its result or failure is what the caller gets. *)
Theorem C7_audit_single_consume (c : Op) (w : World) :
  _enabled (limiter w) = true ->
  ~ refill_rate (_audit_log_bucket (limiter w)) == 0 ->
  let b0 := _audit_log_bucket (limiter w) in
  let t0 := clock w in
  let b1 := snd (refill b0 t0) in
  let w' := snd (execute_with_audit_log_limit c w) in
  exists wt1,
    wait_time b0 1 t0 = (Returned wt1, b1) /\
    let t1 := if Qle_bool wt1 0 then t0 else t0 + wt1 in
    fst (execute_with_audit_log_limit c w) = run c /\
    calls w' = calls w ++ [(FromAudit, c)] /\
    (fst (consume b1 1 t1) = true ->
       _audit_log_bucket (limiter w') = snd (consume b1 1 t1) /\ clock w' = t1) /\
    (fst (consume b1 1 t1) = false ->
       exists wt2,
         wait_time (snd (consume b1 1 t1)) 1 t1 = (Returned wt2, snd (refill (snd (refill b1 t1)) t1)) /\
         _audit_log_bucket (limiter w') = snd (refill (snd (refill b1 t1)) t1) /\
         tokens (_audit_log_bucket (limiter w')) < 1 /\
         clock w' = (if Qle_bool wt2 0 then t1 else t1 + wt2)).
Proof.
  intros Hen Hr b0 t0 b1 w'. subst w'.
  destruct (wait_time_returns b0 1 t0 Hr) as (wt1 & E1). fold b1 in E1.
  exists wt1. split; [exact E1|]. cbv zeta.
  unfold execute_with_audit_log_limit. rewrite Hen. cbn [negb].
  fold b0 t0. rewrite E1.
  set (t1 := if Qle_bool wt1 0 then t0 else t0 + wt1).
  set (w1 := set_limiter (set_audit_log_bucket b1 (limiter w)) w).
  assert (_audit_log_bucket (limiter (if Qle_bool wt1 0 then w1 else sleep wt1 w1)) = b1 /\
          clock (if Qle_bool wt1 0 then w1 else sleep wt1 w1) = t1) as [Hb Hc].
  { unfold t1, sleep. destruct (Qle_bool wt1 0); split; reflexivity. }
  set (w2 := if Qle_bool wt1 0 then w1 else sleep wt1 w1) in *.
  rewrite Hb, Hc.
  assert (calls w2 = calls w) as Hcalls
    by (unfold w2, sleep; destruct (Qle_bool wt1 0); reflexivity).
  clearbody w2.
  destruct (consume b1 1 t1) as [ok b2] eqn:E2.
  destruct ok; cbn [fst snd].
  - repeat split; try discriminate; cbn; (exact Hc || now rewrite Hcalls).
  - pose proof (consume_false_inv b1 1 t1) as Hcf. rewrite E2 in Hcf.
    destruct Hcf as [Hb2 Hlt]; [reflexivity|]. cbn [snd] in Hb2. subst b2.
    cbn [limiter set_limiter _audit_log_bucket set_audit_log_bucket clock].
    rewrite Hc.
    destruct (wait_time_returns (snd (refill b1 t1)) 1 t1) as (wt2 & E3);
      [exact Hr|].
    rewrite E3.
    assert (tokens (snd (refill (snd (refill b1 t1)) t1)) < 1) as Hlast.
    { cbn -[Qmin] in Hlt |- *.
      assert ((t1 - t1) * refill_rate b0 == 0) as Ez by ring.
      eapply Qle_lt_trans; [apply Q.le_min_r|]. rewrite Ez. lra. }
    split; [|split; [|split; [discriminate|]]].
    + destruct (Qle_bool wt2 0); reflexivity.
    + unfold sleep. destruct (Qle_bool wt2 0); cbn -[refill]; now rewrite Hcalls.
    + intros _. exists wt2. split; [reflexivity|].
      unfold sleep. destruct (Qle_bool wt2 0); cbn -[refill];
        (split; [reflexivity|]); (split; [exact Hlast|]); rewrite ?Hc; reflexivity.
Qed.

(** ** Backoff *)

(** What [handle_rate_limit_response(channel_id=42, retry_after=2.0)] leaves of
    channel 42's bucket on a limiter created at [t0]. *)
Lemma rate_limit_update_fresh (t0 : Q) :
  rate_limit_update (Some 42%Z) 2 (new_world t0) =
    (Returned tt,
     set_limiter
       (set_channel_buckets {[ 42%Z := mkBucket 0 5 (5 / 5) (t0 + 2) ]}
          (set_stats (mkStats 1 0 0 0) (init t0)))
       (new_world t0)).
Proof.
  unfold rate_limit_update, _get_channel_bucket. cbn.
  rewrite lookup_empty. change (Qeq_bool 5 0) with false. cbn.
  rewrite lookup_insert_eq.
  unfold backoff. cbn. rewrite insert_insert_eq. reflexivity.
Qed.

(** C2 (amended).  After [handle_rate_limit_response(channel_id=42,
    retry_after=2.0)] on a fresh limiter, [wait_time(1)] on channel 42's bucket
    is not zero: at the instant of the reset, before the handler's own sleep,
    it is 3 (the 2 seconds of [retry_after] plus the 1 second that one token
    takes); once the handler has returned, having slept [retry_after] itself,
    it is 1. *)
Theorem C2_wait_time_after_backoff (t0 : Q) :
  (exists w1 b x,
      rate_limit_update (Some 42%Z) 2 (new_world t0) = (Returned tt, w1) /\
      clock w1 = t0 /\
      _channel_buckets (limiter w1) !! 42%Z = Some b /\
      tokens b == 0 /\ last_refill b == t0 + 2 /\
      fst (wait_time b 1 (clock w1)) = Returned x /\ x == 3) /\
  (exists w2 b x,
      handle_rate_limit_response (Some 42%Z) 2 (new_world t0) = (Returned tt, w2) /\
      clock w2 == t0 + 2 /\
      _channel_buckets (limiter w2) !! 42%Z = Some b /\
      fst (wait_time b 1 (clock w2)) = Returned x /\ x == 1).
Proof.
  set (b := mkBucket 0 5 (5 / 5) (t0 + 2)).
  assert (~ refill_rate b == 0) as Hr by (intros H; vm_compute in H; discriminate).
  split.
  - assert (fst (refill b t0) == -2) as Ha.
    { cbn -[Qmin Qdiv]. assert (0 + (t0 - (t0 + 2)) * (5 / 5) == -2) as E by field.
      rewrite E. apply Q.min_r. lra. }
    eexists _, b, _. rewrite rate_limit_update_fresh.
    split; [reflexivity|]. split; [reflexivity|].
    split; [cbn; apply lookup_singleton_eq|].
    split; [reflexivity|]. split; [reflexivity|].
    cbn [clock set_limiter new_world].
    rewrite wait_time_positive by (rewrite ?Ha; lra || exact Hr).
    split; [reflexivity|]. rewrite Ha. cbn [refill_rate b]. field.
  - assert (fst (refill b (t0 + 2)) == 0) as Ha.
    { cbn -[Qmin Qdiv]. assert (0 + (t0 + 2 - (t0 + 2)) * (5 / 5) == 0) as E by field.
      rewrite E. apply Q.min_r. lra. }
    eexists _, b, _. unfold handle_rate_limit_response.
    rewrite rate_limit_update_fresh. unfold sleep.
    change (Qle_bool 2 0) with false. cbn iota.
    split; [reflexivity|]. split; [reflexivity|].
    split; [cbn; apply lookup_singleton_eq|].
    cbn [clock set_limiter set_clock new_world].
    rewrite wait_time_positive by (rewrite ?Ha; lra || exact Hr).
    split; [reflexivity|]. rewrite Ha. cbn [refill_rate b]. field.
Qed.

(** ** One run of a drain task, seen from its channel *)

Lemma calls_of_app (ch : Z) (l1 l2 : list (origin * Op)) :
  calls_of ch (l1 ++ l2) = calls_of ch l1 ++ calls_of ch l2.
Proof.
  induction l1 as [|[[ch'| |] c] l1 IH]; cbn; [reflexivity| |exact IH|exact IH].
  destruct (decide (ch' = ch)); cbn; now rewrite IH.
Qed.

Lemma calls_of_snoc_same (ch : Z) (l : list (origin * Op)) (c : Op) :
  calls_of ch (l ++ [(FromChannel ch, c)]) = calls_of ch l ++ [c].
Proof. rewrite calls_of_app. cbn. now rewrite decide_True. Qed.

Lemma calls_of_snoc_other (ch ch' : Z) (l : list (origin * Op)) (c : Op) :
  ch' <> ch -> calls_of ch' (l ++ [(FromChannel ch, c)]) = calls_of ch' l.
Proof.
  intros H. rewrite calls_of_app. cbn.
  rewrite decide_False by congruence. apply app_nil_r.
Qed.

Lemma frame_refl (ch : Z) (w : World) : frame ch w w.
Proof. repeat split. Qed.

Lemma frame_trans (ch : Z) (w1 w2 w3 : World) :
  frame ch w1 w2 -> frame ch w2 w3 -> frame ch w1 w3.
Proof.
  intros (E1 & M1 & F1) (E2 & M2 & F2).
  split; [congruence|]. split; [congruence|].
  intros ch' Hne. destruct (F1 ch' Hne) as (? & ? & ?), (F2 ch' Hne) as (? & ? & ?).
  repeat split; congruence.
Qed.

(** Closes a [frame] goal once the run is unfolded to its field updates. *)
Ltac frame_tac :=
  unfold frame, set_task, finish_task, put_channel_bucket, put_channel_queue,
    put_global_bucket, put_global_lock; cbn;
  split; [reflexivity|]; split; [reflexivity|];
  intros ? ?;
  rewrite ?lookup_insert_ne, ?lookup_delete_ne, ?calls_of_snoc_other by congruence;
  repeat split.

Ltac view_tac :=
  unfold view_of, set_task, finish_task, put_channel_bucket, put_channel_queue,
    put_global_bucket, put_global_lock; cbn;
  rewrite ?lookup_insert_eq, ?lookup_delete_eq, ?calls_of_snoc_same.

Lemma consume_phase_spec (ch : Z) (item : QueuedItem) (w : World) :
  held_outcome item (_channel_queues (limiter w) !! ch) (calls_of ch (calls w)) (futures w)
    (view_of ch (consume_phase ch item w)) /\
  frame ch w (consume_phase ch item w).
Proof.
  unfold consume_phase.
  destruct (_channel_buckets (limiter w) !! ch) as [bucket|] eqn:Eb;
    [destruct (_channel_queues (limiter w) !! ch) as [queue|] eqn:Eq|].
  - destruct (consume bucket 1 (clock w)) as [[|] bucket'].
    + split; [|frame_tac]. view_tac. rewrite Eq. constructor.
    + split; [|frame_tac]. view_tac. now constructor.
  - split; [|frame_tac]. view_tac. rewrite Eq. constructor.
  - split; [|frame_tac]. view_tac. constructor.
Qed.

Lemma channel_phase_spec (ch : Z) (item : QueuedItem) (w : World) :
  held_outcome item (_channel_queues (limiter w) !! ch) (calls_of ch (calls w)) (futures w)
    (view_of ch (channel_phase ch item w)) /\
  frame ch w (channel_phase ch item w).
Proof.
  unfold channel_phase.
  destruct (_channel_buckets (limiter w) !! ch) as [bucket|] eqn:Eb.
  - destruct (wait_time bucket 1 (clock w)) as [[wt|e] bucket'].
    + destruct (Qle_bool wt 0).
      * destruct (consume_phase_spec ch item (put_channel_bucket ch bucket' w)) as [H F].
        split; [exact H|]. eapply frame_trans; [|exact F]. frame_tac.
      * split; [|frame_tac]. view_tac. constructor.
    + split; [|frame_tac]. view_tac. constructor.
  - split; [|frame_tac]. view_tac. constructor.
Qed.

Lemma after_global_wait_spec (ch : Z) (item : QueuedItem) (w : World) :
  held_outcome item (_channel_queues (limiter w) !! ch) (calls_of ch (calls w)) (futures w)
    (view_of ch (after_global_wait ch item w)) /\
  frame ch w (after_global_wait ch item w).
Proof.
  unfold after_global_wait.
  destruct (consume (_global_bucket (limiter w)) 1 (clock w)) as [ok g].
  destruct (channel_phase_spec ch item (put_global_lock false (put_global_bucket g w)))
    as [H F].
  split; [exact H|]. eapply frame_trans; [|exact F]. frame_tac.
Qed.

Lemma global_phase_spec (ch : Z) (item : QueuedItem) (w : World) :
  held_outcome item (_channel_queues (limiter w) !! ch) (calls_of ch (calls w)) (futures w)
    (view_of ch (global_phase ch item w)) /\
  frame ch w (global_phase ch item w).
Proof.
  unfold global_phase.
  destruct (_global_lock (limiter w)).
  - split; [|frame_tac]. view_tac. constructor.
  - destruct (wait_time (_global_bucket (limiter w)) 1 (clock w)) as [[wt|e] g].
    + destruct (Qle_bool wt 0).
      * destruct (after_global_wait_spec ch item (put_global_lock true (put_global_bucket g w)))
          as [H F].
        split; [exact H|]. eapply frame_trans; [|exact F]. frame_tac.
      * split; [|frame_tac]. view_tac. constructor.
    + split; [|frame_tac]. view_tac. constructor.
Qed.

Lemma loop_top_spec (ch : Z) (w : World) (q : deque) :
  _channel_queues (limiter w) !! ch = Some q ->
  top_outcome q (calls_of ch (calls w)) (futures w) (view_of ch (loop_top ch w)) /\
  frame ch w (loop_top ch w).
Proof.
  intros Eq. unfold loop_top. rewrite Eq.
  destruct (popleft q) as [[item q']|] eqn:Ep.
  - destruct (global_phase_spec ch item (put_channel_queue ch q' w)) as [H F].
    split.
    + eapply TO_pop; [exact Ep|]. revert H. unfold put_channel_queue. cbn.
      now rewrite lookup_insert_eq.
    + eapply frame_trans; [|exact F]. frame_tac.
  - split; [|frame_tac]. view_tac. rewrite Eq. apply TO_finish.
    unfold popleft in Ep. destruct (items q); [reflexivity|discriminate].
Qed.

Lemma loop_top_none (ch : Z) (w : World) :
  _channel_queues (limiter w) !! ch = None ->
  loop_top ch w = set_task ch (TFailed KeyError) w.
Proof. intros Eq. unfold loop_top. now rewrite Eq. Qed.

Lemma get_channel_bucket_frame (ch : Z) (now : Q) (rl rl' : RateLimiter) :
  _get_channel_bucket ch now rl = Returned rl' ->
  _channel_queues rl' = _channel_queues rl /\
  _processing_tasks rl' = _processing_tasks rl /\
  _enabled rl' = _enabled rl /\
  _max_queue_size rl' = _max_queue_size rl.
Proof.
  unfold _get_channel_bucket.
  destruct (_channel_buckets rl !! ch); [intros [= <-]; repeat split|].
  destruct (Qeq_bool (_channel_window rl) 0); [discriminate|].
  intros [= <-]. repeat split.
Qed.

Lemma get_channel_queue_cases (ch : Z) (rl : RateLimiter) :
  match _get_channel_queue ch rl with
  | Raised _ => _channel_queues rl !! ch = None
  | Returned rl' =>
      (exists q, _channel_queues rl' = <[ch := q]> (_channel_queues rl) /\
                 (_channel_queues rl !! ch = Some q \/
                  _channel_queues rl !! ch = None /\ items q = [] /\
                  Z.of_nat (maxlen q) = _max_queue_size rl)) /\
      _processing_tasks rl' = _processing_tasks rl /\
      _enabled rl' = _enabled rl /\
      _max_queue_size rl' = _max_queue_size rl
  end.
Proof.
  unfold _get_channel_queue.
  destruct (_channel_queues rl !! ch) as [q|] eqn:Eq.
  - split; [|repeat split]. exists q. split; [now rewrite insert_id|now left].
  - unfold deque_new. destruct (Z.ltb_spec (_max_queue_size rl) 0); [reflexivity|].
    cbn. split; [|repeat split]. eexists. split; [reflexivity|]. right.
    cbn. repeat split. lia.
Qed.

Lemma start_task_spec (ch : Z) (w : World) (t : Task) :
  _processing_tasks (limiter w) !! ch = Some t -> at_top t ->
  drain_step (view_of ch w) (view_of ch (start_task ch w)) /\
  frame ch w (start_task ch w).
Proof.
  intros Et Hitem. unfold start_task.
  pose proof (get_channel_queue_cases ch (limiter w)) as Hq.
  destruct (_get_channel_queue ch (limiter w)) as [rl1|e].
  - destruct Hq as ((q & Hqs & Hcase) & Ht1 & He1 & Hm1).
    destruct (get_channel_lock_frame ch rl1)
      as (Lq & _ & Lt & _ & _ & _ & _ & _ & Lmax & Len & _).
    cbv zeta.
    destruct (_get_channel_bucket ch (clock w) (_get_channel_lock ch rl1)) as [rl3|e] eqn:Eb.
    + destruct (get_channel_bucket_frame _ _ _ _ Eb) as (Bq & Bt & Ben & Bmax).
      assert (_channel_queues (limiter (set_limiter rl3 w)) !! ch = Some q) as Hq3
        by (cbn; rewrite Bq, Lq, Hqs; apply lookup_insert_eq).
      destruct (loop_top_spec ch (set_limiter rl3 w) q Hq3) as [H F].
      cbn [calls futures set_limiter] in H.
      split.
      * unfold view_of at 1. rewrite Et.
        destruct Hcase as [Hq | (Hq & Hnil & _)]; rewrite Hq.
        -- now apply DS_top.
        -- now apply (DS_create q).
      * eapply frame_trans; [|exact F].
        unfold frame. cbn. rewrite Ben, Len, He1, Bmax, Lmax, Hm1, Bq, Lq, Hqs, Bt, Lt, Ht1.
        split; [reflexivity|]. split; [reflexivity|]. intros ch' Hne.
        rewrite lookup_insert_ne by congruence. repeat split.
    + split.
      * unfold view_of. unfold set_task. cbn. rewrite lookup_insert_eq, Lq, Hqs, lookup_insert_eq, Et.
        destruct Hcase as [Hq | (Hq & Hnil & _)]; rewrite Hq.
        -- apply DS_fail.
        -- now apply DS_create_fail.
      * unfold frame, set_task. cbn. rewrite Len, He1, Lmax, Hm1, Lq, Hqs, Lt, Ht1.
        split; [reflexivity|]. split; [reflexivity|]. intros ch' Hne.
        rewrite !lookup_insert_ne by congruence. repeat split.
  - split; [|frame_tac]. view_tac. rewrite Et. apply DS_fail.
Qed.

Lemma complete_fields (ch : Z) (item : QueuedItem) (w w' : World) :
  complete ch item w = Returned w' ->
  futures w' = resolve (future item) (run (coro item)) (futures w) /\
  calls w' = calls w /\ clock w' = clock w /\
  _channel_queues (limiter w') = _channel_queues (limiter w) /\
  _channel_buckets (limiter w') = _channel_buckets (limiter w) /\
  _processing_tasks (limiter w') = _processing_tasks (limiter w) /\
  _global_bucket (limiter w') = _global_bucket (limiter w) /\
  _global_lock (limiter w') = _global_lock (limiter w) /\
  _enabled (limiter w') = _enabled (limiter w) /\
  _max_queue_size (limiter w') = _max_queue_size (limiter w).
Proof.
  unfold complete. destruct (run (coro item)) as [v|e]; [|destruct (is_exception e)];
    intros [= <-]; cbn; repeat split.
Qed.

Lemma complete_cases (ch : Z) (item : QueuedItem) (w : World) :
  (escapes (coro item) = false /\ exists w', complete ch item w = Returned w') \/
  (escapes (coro item) = true /\
   exists e, run (coro item) = Raised e /\ is_exception e = false /\
             complete ch item w = Raised e).
Proof.
  unfold complete, escapes. destruct (run (coro item)) as [v|e]; [left; eauto|].
  destruct (is_exception e) eqn:E; cbn; [left | right]; eauto.
Qed.

(** Every run of a drain task is a [drain_step] for its channel and leaves the
    other channels alone. *)
Lemma dispatch_spec (ch : Z) (w : World) :
  drain_step (view_of ch w) (view_of ch (dispatch ch w)) /\
  frame ch w (dispatch ch w).
Proof.
  unfold dispatch.
  destruct (_processing_tasks (limiter w) !! ch) as [t|] eqn:Et;
    [|split; [apply DS_stay | apply frame_refl]].
  destruct t as [|item|item wake|item wake|item|wake|e].
  - now apply (start_task_spec ch w TStart).
  - destruct (global_phase_spec ch item w) as [H F]. split; [|exact F].
    unfold view_of at 1. rewrite Et. now apply (DS_held _ _ item).
  - destruct (Qle_bool wake (clock w)); [|split; [apply DS_stay | apply frame_refl]].
    destruct (after_global_wait_spec ch item w) as [H F]. split; [|exact F].
    unfold view_of at 1. rewrite Et. now apply (DS_held _ _ item).
  - destruct (Qle_bool wake (clock w)); [|split; [apply DS_stay | apply frame_refl]].
    destruct (consume_phase_spec ch item w) as [H F]. split; [|exact F].
    unfold view_of at 1. rewrite Et. now apply (DS_held _ _ item).
  - destruct (complete ch item w) as [w1|e] eqn:Ec;
      [|split; [|frame_tac]; view_tac; rewrite Et; apply DS_fail].
    destruct (complete_fields ch item w w1 Ec)
      as (Cf & Cc & _ & Cq & _ & Ct & _ & _ & Cen & Cmax).
    assert (frame ch w w1) as Fc.
    { unfold frame. rewrite Cen, Cmax, Cq, Ct, Cc. repeat split. }
    unfold view_of at 1. rewrite Et.
    destruct (_channel_queues (limiter w) !! ch) as [q|] eqn:Eq.
    + destruct (loop_top_spec ch w1 q) as [H F];
        [now rewrite Cq|].
      rewrite Cc, Cf in H.
      split; [eapply DS_complete; exact H | eapply frame_trans; eassumption].
    + rewrite loop_top_none by now rewrite Cq.
      split.
      * unfold view_of, set_task. cbn. rewrite lookup_insert_eq, Cq, Eq, Cc, Cf.
        apply DS_complete_fail.
      * eapply frame_trans; [exact Fc|]. frame_tac.
  - destruct (Qle_bool wake (clock w)); [|split; [apply DS_stay | apply frame_refl]].
    unfold view_of at 1. rewrite Et.
    destruct (_channel_queues (limiter w) !! ch) as [q|] eqn:Eq.
    + destruct (loop_top_spec ch w q Eq) as [H F]. split; [|exact F].
      now apply DS_top.
    + rewrite loop_top_none by exact Eq. split; [|frame_tac].
      view_tac. rewrite Eq. apply DS_fail.
  - split; [apply DS_stay | apply frame_refl].
Qed.

(** ** First in, first out *)





Lemma rate_limit_update_fields (cho : option Z) (r : Q) (w : World) :
  let w' := snd (rate_limit_update cho r w) in
  futures w' = futures w /\ calls w' = calls w /\ clock w' = clock w /\
  _channel_queues (limiter w') = _channel_queues (limiter w) /\
  _processing_tasks (limiter w') = _processing_tasks (limiter w) /\
  _enabled (limiter w') = _enabled (limiter w) /\
  _max_queue_size (limiter w') = _max_queue_size (limiter w).
Proof.
  unfold rate_limit_update. destruct cho as [ch|]; [|cbn; repeat split].
  unfold _get_channel_bucket; cbn.
  destruct (_channel_buckets (limiter w) !! ch) as [b|] eqn:Eb; cbn.
  - rewrite Eb. cbn. repeat split.
  - destruct (Qeq_bool (_channel_window (limiter w)) 0); cbn; [repeat split|].
    rewrite lookup_insert_eq. cbn. repeat split.
Qed.

(** A task of the bypass touches neither the limiter nor the futures, and
    what it invokes counts for no channel. *)
Lemma run_created_task_fields (id : nat) (w : World) :
  let w' := run_created_task id w in
  limiter w' = limiter w /\ futures w' = futures w /\ clock w' = clock w /\
  forall ch, calls_of ch (calls w') = calls_of ch (calls w).
Proof.
  unfold run_created_task.
  destruct (created_tasks w !! id) as [[c [|r]]|]; cbn; repeat split.
  intros ch. rewrite calls_of_app. cbn. apply app_nil_r.
Qed.


Lemma deque_new_nat (M : nat) : deque_new (Z.of_nat M) = Returned (mkDeque [] M).
Proof.
  unfold deque_new. destruct (Z.ltb_spec (Z.of_nat M) 0); [lia|]. now rewrite Nat2Z.id.
Qed.




(** ** The drain task running alone empties the queue *)

Lemma consume_phase_good (ch : Z) (item : QueuedItem) (w : World) (b : RateLimitBucket) :
  ~ refill_rate (_global_bucket (limiter w)) == 0 ->
  (exists q, _channel_queues (limiter w) !! ch = Some q) ->
  _global_lock (limiter w) = false ->
  _channel_buckets (limiter w) !! ch = Some b -> bucket_good b ->
  sleeper_ready b (clock w) ->
  seq_held_post ch 1 w (consume_phase ch item w).
Proof.
  intros Hg [q Hq] Hl Hb [Hr Hc] Hs. unfold consume_phase. rewrite Hb, Hq.
  pose proof (consume_after_refill_ok b 1 (clock w) Hc Hs) as Hok.
  destruct (consume_fields b 1 (clock w)) as (Fc & Fr & _).
  destruct (consume b 1 (clock w)) as [ok b']. cbn in Hok, Fc, Fr. subst ok.
  unfold seq_held_post, seq_good, set_task, put_channel_bucket. cbn.
  rewrite !lookup_insert_eq.
  split; [|split; [reflexivity | exists (TAwaitCoro item); split; [reflexivity | cbn; lia]]].
  split; [exact Hg|]. split; [eauto|]. split; [exact Hl|].
  exists b'. split; [reflexivity|]. unfold bucket_good. now rewrite Fc, Fr.
Qed.

Lemma seq_held_post_weaken (ch : Z) (k k' : nat) (w0 w w' : World) :
  (k <= k')%nat ->
  _channel_queues (limiter w) !! ch = _channel_queues (limiter w0) !! ch ->
  seq_held_post ch k w w' -> seq_held_post ch k' w0 w'.
Proof.
  intros Hk Hq (Hg & Hq' & t & Ht & Hr).
  split; [exact Hg|]. split; [congruence|]. exists t. split; [exact Ht | lia].
Qed.

Lemma channel_phase_good (ch : Z) (item : QueuedItem) (w : World) (b : RateLimitBucket) :
  ~ refill_rate (_global_bucket (limiter w)) == 0 ->
  (exists q, _channel_queues (limiter w) !! ch = Some q) ->
  _global_lock (limiter w) = false ->
  _channel_buckets (limiter w) !! ch = Some b -> bucket_good b ->
  seq_held_post ch 2 w (channel_phase ch item w).
Proof.
  intros Hg [q Hq] Hl Hb [Hr Hc]. unfold channel_phase. rewrite Hb.
  set (a := fst (refill b (clock w))).
  set (b1 := snd (refill b (clock w))).
  assert (bucket_good b1) as Hgood1 by (split; assumption).
  destruct (Qlt_le_dec a 1) as [Hlt|Hle].
  - (* not enough tokens: sleep *)
    rewrite wait_time_positive by (assumption || lra). fold a b1.
    set (wt := (1 - a) / refill_rate b).
    assert (wt * refill_rate b == 1 - a) as Hw by (unfold wt; field; lra).
    assert (0 < wt) as Hpos by (unfold wt; apply Qlt_shift_div_l; lra).
    apply Qle_bool_false in Hpos. rewrite Hpos.
    unfold seq_held_post, seq_good, set_task, put_channel_bucket. cbn.
    rewrite !lookup_insert_eq, Hq.
    split; [|split; [reflexivity | eexists; split; [reflexivity | cbn; lia]]].
    split; [exact Hg|]. split; [eauto|]. split; [exact Hl|].
    exists b1. split; [reflexivity|]. split; [exact Hgood1|].
    unfold sleeper_ready.
    change (tokens b1) with a. change (last_refill b1) with (clock w).
    change (refill_rate b1) with (refill_rate b).
    assert ((clock w + wt - clock w) * refill_rate b == wt * refill_rate b) as E by ring.
    rewrite E, Hw. lra.
  - (* a token is there *)
    rewrite wait_time_zero by assumption. fold b1.
    change (Qle_bool 0 0) with true. cbn iota.
    eapply seq_held_post_weaken with (k := 1%nat) (w := put_channel_bucket ch b1 w);
      [lia|reflexivity|].
    apply consume_phase_good with (b := b1);
      [exact Hg | exists q; exact Hq | exact Hl | apply lookup_insert_eq | exact Hgood1 |].
    unfold sleeper_ready, put_channel_bucket. cbn [clock set_limiter].
    change (tokens b1) with a. change (last_refill b1) with (clock w).
    change (refill_rate b1) with (refill_rate b).
    assert ((clock w - clock w) * refill_rate b == 0) as E by ring.
    rewrite E. lra.
Qed.

Lemma after_global_wait_good (ch : Z) (item : QueuedItem) (w : World) (b : RateLimitBucket) :
  ~ refill_rate (_global_bucket (limiter w)) == 0 ->
  (exists q, _channel_queues (limiter w) !! ch = Some q) ->
  _channel_buckets (limiter w) !! ch = Some b -> bucket_good b ->
  seq_held_post ch 2 w (after_global_wait ch item w).
Proof.
  intros Hg Hq Hb Hgood. unfold after_global_wait.
  destruct (consume_fields (_global_bucket (limiter w)) 1 (clock w)) as (_ & Fr & _).
  destruct (consume (_global_bucket (limiter w)) 1 (clock w)) as [ok g]. cbn in Fr.
  eapply seq_held_post_weaken
    with (k := 2%nat) (w := put_global_lock false (put_global_bucket g w)); [lia|reflexivity|].
  apply channel_phase_good with (b := b);
    [cbn; now rewrite Fr | exact Hq | reflexivity | exact Hb | exact Hgood].
Qed.

Lemma global_phase_good (ch : Z) (item : QueuedItem) (w : World) (b : RateLimitBucket) :
  ~ refill_rate (_global_bucket (limiter w)) == 0 ->
  (exists q, _channel_queues (limiter w) !! ch = Some q) ->
  _global_lock (limiter w) = false ->
  _channel_buckets (limiter w) !! ch = Some b -> bucket_good b ->
  seq_held_post ch 3 w (global_phase ch item w).
Proof.
  intros Hg Hq Hl Hb Hgood. unfold global_phase. rewrite Hl.
  destruct (wait_time_returns (_global_bucket (limiter w)) 1 (clock w) Hg) as (wt & ->).
  set (g := snd (refill (_global_bucket (limiter w)) (clock w))).
  destruct (Qle_bool wt 0).
  - eapply seq_held_post_weaken
      with (k := 2%nat) (w := put_global_lock true (put_global_bucket g w)); [lia|reflexivity|].
    apply after_global_wait_good with (b := b); [exact Hg | exact Hq | exact Hb | exact Hgood].
  - destruct Hq as [q Hq].
    unfold seq_held_post, seq_good, set_task, put_global_lock, put_global_bucket. cbn.
    rewrite !lookup_insert_eq, Hq.
    split; [|split; [reflexivity | eexists; split; [reflexivity | cbn; lia]]].
    split; [exact Hg|]. split; [eauto|]. eauto.
Qed.

(** The top of the loop with work left: the head leaves the queue. *)
Lemma loop_top_good (ch : Z) (w : World) (q : deque) (item : QueuedItem)
    (rest : list QueuedItem) (b : RateLimitBucket) :
  ~ refill_rate (_global_bucket (limiter w)) == 0 ->
  _channel_queues (limiter w) !! ch = Some q -> items q = item :: rest ->
  _global_lock (limiter w) = false ->
  _channel_buckets (limiter w) !! ch = Some b -> bucket_good b ->
  let w' := loop_top ch w in
  seq_good ch w' /\
  _channel_queues (limiter w') !! ch = Some (mkDeque rest (maxlen q)) /\
  exists t, _processing_tasks (limiter w') !! ch = Some t /\ (kind_rank t <= 3)%nat.
Proof.
  intros Hg Hq Hi Hl Hb Hgood. cbv zeta. unfold loop_top, popleft. rewrite Hq, Hi.
  destruct (global_phase_good ch item (put_channel_queue ch (mkDeque rest (maxlen q)) w) b)
    as (G & Q' & T);
    [exact Hg | eexists; apply lookup_insert_eq | exact Hl | exact Hb | exact Hgood |].
  split; [exact G|]. split; [|exact T].
  rewrite Q'. cbn. apply lookup_insert_eq.
Qed.

(** The top of the loop with an empty queue: the task ends. *)
Lemma loop_top_done (ch : Z) (w : World) (q : deque) :
  _channel_queues (limiter w) !! ch = Some q -> items q = [] ->
  _processing_tasks (limiter (loop_top ch w)) !! ch = None /\
  _channel_queues (limiter (loop_top ch w)) !! ch = Some q /\
  calls (loop_top ch w) = calls w.
Proof.
  intros Hq Hi. unfold loop_top, popleft. rewrite Hq, Hi.
  unfold finish_task. cbn. rewrite lookup_delete_eq. repeat split. exact Hq.
Qed.

Lemma loop_top_seq (ch : Z) (w : World) (q : deque) (b : RateLimitBucket) :
  ~ refill_rate (_global_bucket (limiter w)) == 0 ->
  _channel_queues (limiter w) !! ch = Some q ->
  _global_lock (limiter w) = false ->
  _channel_buckets (limiter w) !! ch = Some b -> bucket_good b ->
  let w' := loop_top ch w in
  (_processing_tasks (limiter w') !! ch = None /\
   exists q', _channel_queues (limiter w') !! ch = Some q' /\ items q' = []) \/
  (seq_good ch w' /\ (rank ch w' < 3 * length (items q) + 1)%nat).
Proof.
  intros Hg Hq Hl Hb Hgood. cbv zeta.
  destruct (items q) as [|item rest] eqn:Hi.
  - left. destruct (loop_top_done ch w q Hq Hi) as (Ht & Hq' & _).
    split; [exact Ht|]. exists q. split; assumption.
  - right. destruct (loop_top_good ch w q item rest b Hg Hq Hi Hl Hb Hgood)
      as (G & Hq' & t & Ht & Hk).
    split; [exact G|]. unfold rank. rewrite Hq', Ht. cbn. lia.
Qed.

(** One run of the task, woken when its sleep ends, brings it strictly nearer
    to the end of its queue, unless the operation it was awaiting has ended
    with a raise that is not caught: then the task has ended with it. *)
Lemma seq_dispatch (ch : Z) (w : World) (t : Task) :
  seq_good ch w -> _processing_tasks (limiter w) !! ch = Some t ->
  let wc := set_clock (wake_time t (clock w)) w in
  let w' := dispatch ch wc in
  ((forall item, t = TAwaitCoro item -> caught (coro item)) /\
   ((_processing_tasks (limiter w') !! ch = None /\
     exists q', _channel_queues (limiter w') !! ch = Some q' /\ items q' = []) \/
    (seq_good ch w' /\ (rank ch w' < rank ch w)%nat))) \/
  (exists item e, t = TAwaitCoro item /\ escapes (coro item) = true /\
                  run (coro item) = Raised e /\ w' = set_task ch (TFailed e) wc).
Proof.
  intros (Hg & [q Hq] & Hshape) Ht. rewrite Ht in Hshape. cbv zeta.
  unfold dispatch. cbn [limiter set_clock]. rewrite Ht.
  unfold rank at 2. rewrite Hq, Ht.
  destruct t as [|item|item wake|item wake|item|wake|e]; try contradiction;
    [left; split; [intros ? [=]|] | left; split; [intros ? [=]|]
     | left; split; [intros ? [=]|] |].
  - (* first run *)
    destruct Hshape as [Hl Hready]. cbn [wake_time kind_rank].
    unfold start_task. cbn [limiter set_clock clock].
    unfold _get_channel_queue. rewrite Hq. cbv zeta.
    destruct (get_channel_lock_frame ch (limiter w))
      as (Lq & Lb & _ & Lgb & Lgl & _ & Lrl & Lcw & _).
    set (rl2 := _get_channel_lock ch (limiter w)) in *.
    unfold channel_ready in Hready.
    assert (exists rl3 b, _get_channel_bucket ch (clock w) rl2 = Returned rl3 /\
              _channel_buckets rl3 !! ch = Some b /\ bucket_good b /\
              _channel_queues rl3 = _channel_queues (limiter w) /\
              _global_bucket rl3 = _global_bucket (limiter w) /\
              _global_lock rl3 = _global_lock (limiter w)) as (rl3 & b & -> & Hb & Hgood & Bq & Bg & Bl).
    { unfold _get_channel_bucket. rewrite Lb, Lrl, Lcw.
      destruct (_channel_buckets (limiter w) !! ch) as [b|] eqn:Eb.
      - exists rl2, b. rewrite Lb.
        split; [reflexivity|]. split; [exact Eb|]. split; [exact Hready|].
        repeat split; assumption.
      - destruct Hready as [Hlim Hwin].
        assert (Qeq_bool (_channel_window (limiter w)) 0 = false) as ->
          by (apply Qeq_bool_false; lra).
        eexists _, _. split; [reflexivity|]. cbn. rewrite lookup_insert_eq.
        split; [reflexivity|]. split; [|repeat split; assumption].
        split; cbn; [|exact Hlim]. apply Qlt_shift_div_l; lra. }
    apply (loop_top_seq ch _ q b); cbn; rewrite ?Bq, ?Bg, ?Bl; assumption.
  - (* the global sleep is over *)
    destruct Hshape as (b & Hb & Hgood). cbn [wake_time kind_rank clock set_clock].
    assert (Qle_bool wake (Qmax (clock w) wake) = true) as ->
      by (apply Qle_bool_iff, Q.le_max_r).
    destruct (after_global_wait_good ch item (set_clock (Qmax (clock w) wake) w) b)
      as (G & Hq' & t & Ht' & Hk); [exact Hg | exists q; exact Hq | exact Hb | exact Hgood |].
    right. split; [exact G|]. unfold rank. rewrite Hq', Ht'. cbn [limiter set_clock].
    rewrite Hq. lia.
  - (* the channel sleep is over *)
    destruct Hshape as (Hl & b & Hb & Hgood & Hs). cbn [wake_time kind_rank clock set_clock].
    assert (Qle_bool wake (Qmax (clock w) wake) = true) as ->
      by (apply Qle_bool_iff, Q.le_max_r).
    destruct (consume_phase_good ch item (set_clock (Qmax (clock w) wake) w) b)
      as (G & Hq' & t & Ht' & Hk);
      [exact Hg | exists q; exact Hq | exact Hl | exact Hb | exact Hgood | |].
    { unfold sleeper_ready in *. cbn [clock set_clock]. destruct Hgood as [Hr _].
      pose proof (Q.le_max_r (clock w) wake) as Hmx.
      assert (0 <= (Qmax (clock w) wake - wake) * refill_rate b)
        by (apply Qmult_le_0_compat; lra).
      assert ((Qmax (clock w) wake - last_refill b) * refill_rate b ==
              (wake - last_refill b) * refill_rate b +
              (Qmax (clock w) wake - wake) * refill_rate b) as E by ring.
      rewrite E. lra. }
    right. split; [exact G|]. unfold rank. rewrite Hq', Ht'. cbn [limiter set_clock].
    rewrite Hq. lia.
  - (* the target operation has ended *)
    destruct Hshape as (Hl & b & Hb & Hgood). cbn [wake_time kind_rank].
    destruct (complete_cases ch item (set_clock (clock w) w))
      as [(Hc & w1 & Ec) | (Hc & e & Er & Ee & Ec)]; rewrite Ec.
    + left. split; [intros ? [= <-]; exact Hc|].
      destruct (complete_fields ch item (set_clock (clock w) w) w1 Ec)
        as (_ & _ & _ & Cq & Cb & _ & Cg & Cl & _).
      apply (loop_top_seq ch _ q b); rewrite ?Cq, ?Cb, ?Cg, ?Cl; assumption.
    + right. exists item, e. repeat split; assumption.
Qed.

Lemma drain_idle (fuel : nat) (ch : Z) (w : World) :
  _processing_tasks (limiter w) !! ch = None -> drain fuel ch w = w.
Proof. intros H. destruct fuel; cbn; [reflexivity | now rewrite H]. Qed.

Lemma seq_good_rank (ch : Z) (w : World) : seq_good ch w -> (1 <= rank ch w)%nat.
Proof.
  intros (_ & [q Hq] & Hshape). unfold rank. rewrite Hq.
  destruct (_processing_tasks (limiter w) !! ch) as [[]|]; try contradiction; cbn; lia.
Qed.











(** Calls of [enqueue_send] for [ch] alone touch no bucket and no lock, and a
    drain task they create has not run yet. *)
Lemma enqueue_run_keeps (M : nat) (ch : Z) (cs : list Op) :
  forall w : World,
    _enabled (limiter w) = true -> _max_queue_size (limiter w) = Z.of_nat M ->
    let w' := run_events w (map (EvEnqueue ch) cs) in
    calls w' = calls w /\
    _global_bucket (limiter w') = _global_bucket (limiter w) /\
    _global_lock (limiter w') = _global_lock (limiter w) /\
    _channel_buckets (limiter w') = _channel_buckets (limiter w) /\
    _channel_rate_limit (limiter w') = _channel_rate_limit (limiter w) /\
    _channel_window (limiter w') = _channel_window (limiter w) /\
    (_processing_tasks (limiter w') !! ch = _processing_tasks (limiter w) !! ch \/
     _processing_tasks (limiter w') !! ch = Some TStart).
Proof.
  induction cs as [|c cs IH]; intros w Hen Hmax; cbv zeta.
  - cbn. repeat split. now left.
  - cbn [map run_events fold_left step].
    assert (exists q, _channel_queues (limiter w) !! ch = Some q \/
                      _channel_queues (limiter w) !! ch = None /\
                      deque_new (_max_queue_size (limiter w)) = Returned q) as (q & Hq).
    { destruct (_channel_queues (limiter w) !! ch) as [q|] eqn:Eq.
      - exists q. now left.
      - exists (mkDeque [] M). right. split; [reflexivity|].
        rewrite Hmax. apply deque_new_nat. }
    destruct (enqueue_send_enabled ch c w q Hen Hq)
      as (_ & _ & Hcl & _ & Hb & Hgb & Hgl & Hrl & Hcw & Hmx & Hen' & Hcase).
    cbv zeta in *.
    set (w1 := snd (enqueue_send ch c w)) in *.
    destruct (IH w1 Hen') as (I0 & I1 & I2 & I3 & I4 & I5 & I6); [congruence|].
    fold (run_events w1 (map (EvEnqueue ch) cs)).
    rewrite I0, I1, I2, I3, I4, I5, Hcl, Hb, Hgb, Hgl, Hrl, Hcw.
    repeat split.
    assert (_processing_tasks (limiter w1) !! ch = _processing_tasks (limiter w) !! ch \/
            _processing_tasks (limiter w1) !! ch = Some TStart) as Hw1.
    { destruct (_ <=? _)%Z; destruct Hcase as (_ & _ & -> & _); [now left|].
      destruct (_processing_tasks (limiter w) !! ch) eqn:Et;
        [now left | right; apply lookup_insert_eq]. }
    destruct I6 as [-> | ->]; [exact Hw1 | now right].
Qed.


(** ** A call dropped from its queue is never resolved *)

Lemma in_removelast {A : Type} (x : A) (l : list A) : In x (removelast l) -> In x l.
Proof.
  induction l as [|a l IH]; [contradiction|].
  cbn. destruct l as [|b l']; [contradiction|].
  intros [->|H]; [now left | right; apply IH, H].
Qed.

Lemma in_appendleft (x y : QueuedItem) (q : deque) :
  In x (items (appendleft y q)) -> x = y \/ In x (items q).
Proof.
  unfold appendleft. cbv zeta. cbn [items]. intros H.
  assert (In x (y :: items q)) as [->|Hin]; [|now left|now right].
  destruct (maxlen q <? length (y :: items q))%nat; [apply in_removelast|]; exact H.
Qed.

Lemma in_append (x y : QueuedItem) (q : deque) :
  In x (items (append y q)) -> x = y \/ In x (items q).
Proof.
  unfold append. cbv zeta. cbn [items]. intros H.
  assert (In x (items q ++ [y])) as Hin.
  { destruct (maxlen q <? length (items q ++ [y]))%nat; [|exact H].
    destruct (items q ++ [y]); [contradiction | now right]. }
  apply in_app_or in Hin. destruct Hin as [Hin|[->|[]]]; [now right | now left].
Qed.

Lemma resolve_other (f : nat) (fo : option nat) (r : outcome Val) (fs : list FutureState) :
  fo <> Some f -> resolve fo r fs !! f = fs !! f.
Proof.
  intros Hne. unfold resolve. destruct fo as [id|]; [|reflexivity].
  destruct (fs !! id) as [[|]|]; try reflexivity.
  unfold set_done. apply list_lookup_insert_ne. congruence.
Qed.

Lemma view_quiet_held (f : nat) (item : QueuedItem) (q : deque) (cs : list Op)
    (fs : list FutureState) (v : view) :
  fs !! f = Some Pending -> future item <> Some f ->
  (forall x, In x (items q) -> future x <> Some f) ->
  held_outcome item (Some q) cs fs v -> view_quiet f v.
Proof.
  intros Hf Hitem Hq Ho.
  inversion Ho; subst; cbn -[appendleft]; (split; [exact Hf|]); split;
    try (intros ? ? [= <-]; now auto);
    try (intros ? ? [= <-]; cbn; try discriminate; intros [= <-]; exact Hitem).
  - match goal with H : Some _ = Some _ |- _ => injection H as <- end.
    intros ? x [= <-] Hin. apply in_appendleft in Hin. destruct Hin as [->|Hin]; auto.
Qed.

Lemma view_quiet_top (f : nat) (q : deque) (cs : list Op) (fs : list FutureState) (v : view) :
  fs !! f = Some Pending ->
  (forall x, In x (items q) -> future x <> Some f) ->
  top_outcome q cs fs v -> view_quiet f v.
Proof.
  intros Hf Hq Ho. inversion Ho as [Hnil | item q' v' Hpop Hheld]; subst.
  - cbn. split; [exact Hf|]. split; [|discriminate]. intros ? ? [= <-]. apply Hq.
  - unfold popleft in Hpop. destruct (items q) as [|x rest] eqn:Ei; [discriminate|].
    injection Hpop as <- <-.
    eapply view_quiet_held; [exact Hf | apply Hq; now left | | exact Hheld].
    cbn. intros y Hy. apply Hq. now right.
Qed.

Lemma view_quiet_drain_step (f : nat) (v v' : view) :
  view_quiet f v -> drain_step v v' -> view_quiet f v'.
Proof.
  intros Hv Hstep.
  destruct Hstep as [v | qo t cs fs e | q t cs fs e Ht Hnil | q t cs fs v Ht Hnil Ho
                     | q t cs fs v Ht Ho | q item cs fs r v Ho | qo item cs fs r e
                     | qo t item cs fs v Hh Ho].
  - exact Hv.
  - destruct Hv as (Hf & Hq & _). split; [exact Hf|]. split; [exact Hq|].
    intros ? ? [= <-]. discriminate.
  - destruct Hv as (Hf & _ & _). split; [exact Hf|]. split.
    + intros ? x [= <-]. rewrite Hnil. contradiction.
    + intros ? ? [= <-]. discriminate.
  - destruct Hv as (Hf & _ & _). eapply view_quiet_top; [exact Hf | | exact Ho].
    rewrite Hnil. contradiction.
  - destruct Hv as (Hf & Hq & _). eapply view_quiet_top; [exact Hf | | exact Ho]. eauto.
  - destruct Hv as (Hf & Hq & Ht).
    eapply view_quiet_top; [| |exact Ho]; [|eauto].
    rewrite resolve_other; [exact Hf|]. now apply (Ht (TAwaitCoro item)).
  - destruct Hv as (Hf & Hq & Ht). split; [|split; [exact Hq|]].
    + rewrite resolve_other; [exact Hf|]. now apply (Ht (TAwaitCoro item)).
    + intros ? ? [= <-]. discriminate.
  - destruct Hv as (Hf & Hq & Ht).
    assert (future item <> Some f) as Hitem.
    { apply (Ht t); [reflexivity|]. destruct t; cbn in Hh |- *; try discriminate; exact Hh. }
    destruct qo as [q|].
    + eapply view_quiet_held; [exact Hf | exact Hitem | | exact Ho]. eauto.
    + inversion Ho; subst; cbn; try discriminate;
        (split; [exact Hf|]); (split; [discriminate|]);
        intros ? ? [= <-]; cbn; try discriminate; intros [= <-]; exact Hitem.
Qed.

Lemma deque_new_items (m : Z) (q : deque) : deque_new m = Returned q -> items q = [].
Proof. unfold deque_new. destruct (m <? 0)%Z; [discriminate|]. now intros [= <-]. Qed.

Lemma enqueue_send_quiet (f : nat) (ch : Z) (c : Op) (w : World) :
  futures w !! f = Some Pending -> unreferenced f w ->
  futures (snd (enqueue_send ch c w)) !! f = Some Pending /\
  unreferenced f (snd (enqueue_send ch c w)).
Proof.
  intros Hf [Uq Ut].
  assert (f < length (futures w))%nat as Hlt by (eapply lookup_lt_Some; exact Hf).
  destruct (_enabled (limiter w)) eqn:Hen.
  2:{ unfold enqueue_send. rewrite Hen. cbn. split; [exact Hf | split; assumption]. }
  assert ((exists q, (_channel_queues (limiter w) !! ch = Some q \/
                      _channel_queues (limiter w) !! ch = None /\
                      deque_new (_max_queue_size (limiter w)) = Returned q) /\
                     (forall x, In x (items q) -> future x <> Some f)) \/
          (exists e, _get_channel_queue ch (limiter w) = Raised e)) as [(q & Hq & Hqf) | [e He]].
  { destruct (_channel_queues (limiter w) !! ch) as [q|] eqn:Eq.
    - left. exists q. split; [now left|]. intros x Hx. exact (Uq ch q x Eq Hx).
    - destruct (deque_new (_max_queue_size (limiter w))) as [q|e] eqn:En.
      + left. exists q. split; [now right|]. rewrite (deque_new_items _ _ En). contradiction.
      + right. exists e. unfold _get_channel_queue. now rewrite Eq, En. }
  - destruct (enqueue_send_enabled ch c w q Hen Hq)
      as (_ & _ & _ & _ & _ & _ & _ & _ & _ & _ & _ & Hcase).
    cbv zeta in Hcase.
    set (item := mkItem c (Some (length (futures w))) (clock w)) in *.
    assert (exists x q' tasks',
               futures (snd (enqueue_send ch c w)) = futures w ++ [x] /\
               _channel_queues (limiter (snd (enqueue_send ch c w))) =
                 <[ch := q']> (_channel_queues (limiter w)) /\
               (forall y, In y (items q') -> future y <> Some f) /\
               _processing_tasks (limiter (snd (enqueue_send ch c w))) = tasks' /\
               (tasks' = _processing_tasks (limiter w) \/
                tasks' = <[ch := TStart]> (_processing_tasks (limiter w))))
      as (x & q' & tasks' & Ef & Eq & Hq' & Et & Htasks).
    { destruct (_ <=? _)%Z; destruct Hcase as (E1 & E2 & E3 & _).
      - exists overflow_failure, q, (_processing_tasks (limiter w)).
        repeat split; try assumption. now left.
      - eexists Pending, (append item q), _.
        split; [exact E1|]. split; [exact E2|]. split; [|split; [exact E3|]].
        + intros y Hy. apply in_append in Hy. destruct Hy as [->|Hy]; [|now apply Hqf].
          cbn. intros [= E]. lia.
        + destruct (_processing_tasks (limiter w) !! ch); [now left | now right]. }
    split.
    + rewrite Ef. rewrite lookup_app_l by exact Hlt. exact Hf.
    + split.
      * intros ch' q0 y. rewrite Eq. destruct (decide (ch = ch')) as [<-|Hne].
        -- rewrite lookup_insert_eq. intros [= <-]. apply Hq'.
        -- rewrite lookup_insert_ne by exact Hne. apply Uq.
      * intros ch' t y. rewrite Et. destruct Htasks as [->| ->]; [apply Ut|].
        destruct (decide (ch = ch')) as [<-|Hne].
        -- rewrite lookup_insert_eq. intros [= <-]. discriminate.
        -- rewrite lookup_insert_ne by exact Hne. apply Ut.
  - unfold enqueue_send. rewrite Hen, He. cbn.
    split; [|split; assumption].
    rewrite lookup_app_l by exact Hlt. exact Hf.
Qed.

(** A pending future that nothing refers to stays so, whatever happens. *)
Lemma quiet_step (f : nat) (w : World) (e : event) :
  futures w !! f = Some Pending -> unreferenced f w ->
  futures (step w e) !! f = Some Pending /\ unreferenced f (step w e).
Proof.
  intros Hf [Uq Ut].
  destruct e as [ch c | ch | d | cho r | a b c0 d e0 | id]; cbn [step].
  6:{ destruct (run_created_task_fields id w) as (Hl & Hfu & _). cbv zeta in *.
      unfold unreferenced. rewrite Hl, Hfu. split; [exact Hf | split; assumption]. }
  - now apply enqueue_send_quiet.
  - destruct (dispatch_spec ch w) as [Hd (_ & _ & Fo)].
    assert (view_quiet f (view_of ch (dispatch ch w))) as (Hf' & Hq' & Ht').
    { eapply view_quiet_drain_step; [|exact Hd]. unfold view_quiet, view_of.
      split; [exact Hf|]. split.
      - intros q x Hq. exact (Uq ch q x Hq).
      - intros t x Ht. exact (Ut ch t x Ht). }
    split; [exact Hf'|]. split.
    + intros ch' q x. destruct (decide (ch' = ch)) as [->|Hne].
      * apply Hq'.
      * destruct (Fo ch' Hne) as (-> & _ & _). apply Uq.
    + intros ch' t x. destruct (decide (ch' = ch)) as [->|Hne].
      * apply Ht'.
      * destruct (Fo ch' Hne) as (_ & -> & _). apply Ut.
  - unfold advance. destruct (Qle_bool 0 d); (split; [exact Hf | split; assumption]).
  - destruct (rate_limit_update_fields cho r w) as (Ff & _ & _ & Fq & Ft & _).
    cbv zeta in *. unfold unreferenced. rewrite Ff, Fq, Ft.
    split; [exact Hf | split; assumption].
  - split; [exact Hf | split; assumption].
Qed.

Lemma quiet_run (f : nat) (evs : list event) :
  forall w : World,
    futures w !! f = Some Pending -> unreferenced f w ->
    futures (run_events w evs) !! f = Some Pending.
Proof.
  induction evs as [|e evs IH]; intros w Hf Hu; [exact Hf|].
  cbn [run_events fold_left].
  destruct (quiet_step f w e Hf Hu) as [Hf' Hu']. now apply IH.
Qed.

(** C10.  A queue keeps the [maxlen] it was created with, and the overflow
    check reads the current [_max_queue_size].  Once [configure] has raised
    [_max_queue_size] above the [maxlen] of a queue that is full,
    [enqueue_send] admits the call: the queue loses its oldest item to make
    room, [queue_overflows] and [messages_sent] stay as they are, and the
    future of the lost item, when pending and referred to by nothing else,
    stays pending along every later schedule. *)
Theorem C10_raised_limit_drops_oldest (ch : Z) (c : Op) (w : World) (q : deque)
    (oldest : QueuedItem) (rest : list QueuedItem) (M1 : Z) :
  _enabled (limiter w) = true ->
  _channel_queues (limiter w) !! ch = Some q ->
  items q = oldest :: rest ->
  length (items q) = maxlen q ->
  (Z.of_nat (maxlen q) < M1)%Z ->
  let w1 := set_limiter (configure None None None (Some M1) None (limiter w)) w in
  let w2 := snd (enqueue_send ch c w1) in
  let fid := length (futures w) in
  fst (enqueue_send ch c w1) = Returned (HFuture fid) /\
  _channel_queues (limiter w2) !! ch =
    Some (mkDeque (rest ++ [mkItem c (Some fid) (clock w)]) (maxlen q)) /\
  futures w2 = futures w ++ [Pending] /\
  queue_overflows (_stats (limiter w2)) = queue_overflows (_stats (limiter w)) /\
  messages_sent (_stats (limiter w2)) = messages_sent (_stats (limiter w)) /\
  calls w2 = calls w /\
  (forall f : nat,
      future oldest = Some f ->
      futures w !! f = Some Pending ->
      unreferenced f (put_channel_queue ch (mkDeque rest (maxlen q)) w) ->
      forall evs : list event, futures (run_events w2 evs) !! f = Some Pending).
Proof.
  intros Hen Hq Hi Hfull Hraised w1 w2 fid.
  assert (_enabled (limiter w1) = true) as Hen1 by exact Hen.
  assert (_channel_queues (limiter w1) !! ch = Some q) as Hq1 by exact Hq.
  destruct (enqueue_send_enabled ch c w1 q Hen1 (or_introl Hq1))
    as (Hr & _ & Hcalls & _ & _ & _ & _ & _ & _ & _ & _ & Hcase).
  cbv zeta in Hcase. fold w2 in Hcalls, Hcase.
  change (_max_queue_size (limiter w1)) with M1 in Hcase.
  change (futures w1) with (futures w) in Hr, Hcase.
  change (clock w1) with (clock w) in Hcase.
  change (_stats (limiter w1)) with (_stats (limiter w)) in Hcase.
  change (_channel_queues (limiter w1)) with (_channel_queues (limiter w)) in Hcase.
  destruct (Z.leb_spec M1 (Z.of_nat (length (items q)))) as [Hle|_]; [lia|].
  destruct Hcase as (Hf & Hqs & Hts & Hst).
  assert (append (mkItem c (Some fid) (clock w)) q =
          mkDeque (rest ++ [mkItem c (Some fid) (clock w)]) (maxlen q)) as Happ.
  { unfold append. cbv zeta. rewrite Hi in *. cbn [length app] in *.
    destruct (Nat.ltb_spec (maxlen q) (S (length (rest ++ [mkItem c (Some fid) (clock w)]))))
      as [_|Hge]; [reflexivity|].
    rewrite length_app in Hge. cbn in Hge. lia. }
  fold fid in Hqs. rewrite Happ in Hqs.
  split; [exact Hr|]. split; [rewrite Hqs; apply lookup_insert_eq|].
  split; [exact Hf|]. split; [now rewrite Hst|]. split; [now rewrite Hst|].
  split; [exact Hcalls|].
  intros f Hfo Hpend [Uq Ut] evs.
  assert (f < length (futures w))%nat as Hlt by (eapply lookup_lt_Some; exact Hpend).
  apply quiet_run.
  - rewrite Hf, lookup_app_l by exact Hlt. exact Hpend.
  - split.
    + intros ch' q0 x. rewrite Hqs. destruct (decide (ch = ch')) as [<-|Hne].
      * rewrite lookup_insert_eq. intros [= <-]. cbn. intros Hin.
        apply in_app_or in Hin. destruct Hin as [Hin|[<-|[]]].
        -- apply (Uq ch (mkDeque rest (maxlen q)) x); [|exact Hin].
           unfold put_channel_queue. cbn. apply lookup_insert_eq.
        -- cbn. intros [= E]. unfold fid in E. lia.
      * rewrite lookup_insert_ne by exact Hne. intros Hq0.
        apply (Uq ch' q0 x). unfold put_channel_queue. cbn.
        now rewrite lookup_insert_ne.
    + intros ch' t x. rewrite Hts.
      change (_processing_tasks (limiter w1)) with (_processing_tasks (limiter w)).
      destruct (_processing_tasks (limiter w) !! ch) eqn:Et; [apply Ut|].
      destruct (decide (ch = ch')) as [<-|Hne].
      * rewrite lookup_insert_eq. intros [= <-]. discriminate.
      * rewrite lookup_insert_ne by exact Hne. apply Ut.
Qed.

(** A world whose only queue and only drain task are those of [ch]: a future
    that no item of [q'] carries is unreferenced once [q'] is the queue. *)
Lemma unreferenced_one_queue (f : nat) (ch : Z) (q q' : deque) (w : World) :
  _channel_queues (limiter w) = <[ch := q]> ∅ ->
  _processing_tasks (limiter w) = <[ch := TStart]> ∅ ->
  (forall item, In item (items q') -> future item <> Some f) ->
  unreferenced f (put_channel_queue ch q' w).
Proof.
  intros Hqs Hts Hq'. split.
  - intros ch' q0 item. unfold put_channel_queue.
    cbn [limiter set_limiter _channel_queues set_channel_queues].
    rewrite Hqs, insert_insert_eq.
    destruct (decide (ch = ch')) as [<-|Hne].
    + rewrite lookup_insert_eq. intros [= <-]. apply Hq'.
    + rewrite lookup_insert_ne, lookup_empty by exact Hne. discriminate.
  - intros ch' t item. unfold put_channel_queue.
    cbn [limiter set_limiter _processing_tasks set_channel_queues]. rewrite Hts.
    destruct (decide (ch = ch')) as [<-|Hne].
    + rewrite lookup_insert_eq. intros [= <-]. discriminate.
    + rewrite lookup_insert_ne, lookup_empty by exact Hne. discriminate.
Qed.

(** ** What a bucket hands out *)

Lemma refill_potential (b : RateLimitBucket) (now s : Q) :
  potential (snd (refill b now)) s <= potential b s.
Proof.
  unfold potential. cbn -[Qmin].
  pose proof (Q.le_min_r (capacity b) (tokens b + (now - last_refill b) * refill_rate b)).
  assert ((s - last_refill b) * refill_rate b ==
          (now - last_refill b) * refill_rate b + (s - now) * refill_rate b) as E by ring.
  rewrite E. lra.
Qed.



Lemma access_rate (b : RateLimitBucket) (now : Q) (a : access) :
  refill_rate (apply_access b now a) = refill_rate b /\
  capacity (apply_access b now a) = capacity b.
Proof.
  destruct a as [|n|n|r]; cbn [apply_access].
  - split; reflexivity.
  - destruct (consume_fields b n now) as (? & ? & _). split; assumption.
  - rewrite wait_time_state. split; reflexivity.
  - split; reflexivity.
Qed.

Lemma final_shape (b : RateLimitBucket) (sched : list (Q * access)) :
  refill_rate (final b sched) = refill_rate b /\ capacity (final b sched) = capacity b.
Proof.
  revert b. induction sched as [|[now a] rest IH]; intros b; [split; reflexivity|].
  cbn [final]. destruct (IH (apply_access b now a)) as [-> ->]. apply access_rate.
Qed.

Lemma final_app (b : RateLimitBucket) (s1 s2 : list (Q * access)) :
  final b (s1 ++ s2) = final (final b s1) s2.
Proof. revert b. induction s1 as [|[now a] s1 IH]; intros b; [reflexivity | apply IH]. Qed.

Lemma consumed_app (b : RateLimitBucket) (s1 s2 : list (Q * access)) :
  consumed b (s1 ++ s2) == consumed b s1 + consumed (final b s1) s2.
Proof.
  revert b. induction s1 as [|[now a] s1 IH]; intros b; cbn [app consumed final].
  - lra.
  - rewrite IH. lra.
Qed.





(** ** The channel bucket along a run *)

Lemma bucket_trace_refl (ch : Z) (w : World) : bucket_trace ch w w.
Proof.
  split; [reflexivity|]. split; [reflexivity|].
  intros b Hb. exists [], []. split; [constructor|]. split; [exact Hb|].
  split; [now rewrite app_nil_r | reflexivity].
Qed.

Lemma bucket_trace_trans (ch : Z) (w1 w2 w3 : World) :
  bucket_trace ch w1 w2 -> bucket_trace ch w2 w3 -> bucket_trace ch w1 w3.
Proof.
  intros (C1 & O1 & T1) (C2 & O2 & T2).
  split; [congruence|]. split.
  - intros c Hc. rewrite O2, O1 by exact Hc. reflexivity.
  - intros b Hb. destruct (T1 b Hb) as (s1 & l1 & A1 & B1 & L1 & N1).
    destruct (T2 _ B1) as (s2 & l2 & A2 & B2 & L2 & N2).
    exists (s1 ++ s2), (l1 ++ l2). rewrite C1 in A2.
    split; [apply Forall_app; split; assumption|].
    split; [now rewrite final_app|].
    split; [rewrite L2, L1; now rewrite app_assoc|].
    rewrite consumed_app, <- N1, <- N2, length_app, Nat2Z.inj_add, inject_Z_plus.
    reflexivity.
Qed.

(** A stretch that touches neither clock, nor buckets, nor invocations. *)
Lemma bucket_trace_same (ch : Z) (w w' : World) :
  clock w' = clock w ->
  _channel_buckets (limiter w') = _channel_buckets (limiter w) ->
  calls w' = calls w ->
  bucket_trace ch w w'.
Proof.
  intros Hc Hb Hl. split; [exact Hc|]. split; [now rewrite Hb|].
  intros b Hb'. exists [], []. split; [constructor|]. split; [now rewrite Hb|].
  split; [now rewrite Hl, app_nil_r | reflexivity].
Qed.

Lemma consume_phase_trace (ch : Z) (item : QueuedItem) (w : World) :
  bucket_trace ch w (consume_phase ch item w).
Proof.
  unfold consume_phase.
  destruct (_channel_buckets (limiter w) !! ch) as [bucket|] eqn:Eb;
    [destruct (_channel_queues (limiter w) !! ch) as [queue|] eqn:Eq|];
    try (apply bucket_trace_same; reflexivity).
  destruct (consume bucket 1 (clock w)) as [ok bucket'] eqn:Ec.
  assert (clock (if ok
                 then set_task ch (TAwaitCoro item)
                        (set_calls (calls (put_channel_bucket ch bucket' w) ++
                                    [(FromChannel ch, coro item)])
                           (put_channel_bucket ch bucket' w))
                 else set_task ch (TRetrySleep (clock (put_channel_bucket ch bucket' w) + 0.1))
                        (put_channel_queue ch (appendleft item queue)
                           (put_channel_bucket ch bucket' w))) = clock w) as Hclock
    by (destruct ok; reflexivity).
  split; [exact Hclock|]. split.
  - intros c Hc. destruct ok; cbn; now rewrite lookup_insert_ne.
  - intros b Hb. rewrite Eb in Hb. injection Hb as <-.
    exists [(clock w, AConsume 1)], (if ok then [coro item] else []).
    split; [constructor; [split; [reflexivity | now right] | constructor]|].
    cbn [final apply_access consumed taken]. rewrite Ec. cbn [fst snd].
    destruct ok; cbn -[Qplus].
    + rewrite lookup_insert_eq, calls_of_snoc_same.
      split; [reflexivity|]. split; reflexivity.
    + rewrite lookup_insert_eq, app_nil_r.
      split; [reflexivity|]. split; reflexivity.
Qed.

Lemma channel_phase_trace (ch : Z) (item : QueuedItem) (w : World) :
  bucket_trace ch w (channel_phase ch item w).
Proof.
  unfold channel_phase.
  destruct (_channel_buckets (limiter w) !! ch) as [bucket|] eqn:Eb;
    [|apply bucket_trace_same; reflexivity].
  destruct (wait_time bucket 1 (clock w)) as [r bucket'] eqn:Ew.
  assert (bucket_trace ch w (put_channel_bucket ch bucket' w)) as Hput.
  { split; [reflexivity|]. split.
    - intros c Hc. cbn. now rewrite lookup_insert_ne.
    - intros b Hb. rewrite Eb in Hb. injection Hb as <-.
      exists [(clock w, AWaitTime 1)], [].
      split; [constructor; [split; [reflexivity | now left] | constructor]|].
      cbn [final apply_access consumed taken]. rewrite Ew. cbn -[Qplus].
      rewrite lookup_insert_eq, app_nil_r.
      split; [reflexivity|]. split; reflexivity. }
  destruct r as [wt|e].
  - destruct (Qle_bool wt 0).
    + eapply bucket_trace_trans; [exact Hput | apply consume_phase_trace].
    + eapply bucket_trace_trans; [exact Hput | apply bucket_trace_same; reflexivity].
  - eapply bucket_trace_trans; [exact Hput | apply bucket_trace_same; reflexivity].
Qed.

Lemma after_global_wait_trace (ch : Z) (item : QueuedItem) (w : World) :
  bucket_trace ch w (after_global_wait ch item w).
Proof.
  unfold after_global_wait.
  destruct (consume (_global_bucket (limiter w)) 1 (clock w)) as [ok g].
  eapply bucket_trace_trans; [|apply channel_phase_trace].
  apply bucket_trace_same; reflexivity.
Qed.

Lemma global_phase_trace (ch : Z) (item : QueuedItem) (w : World) :
  bucket_trace ch w (global_phase ch item w).
Proof.
  unfold global_phase.
  destruct (_global_lock (limiter w)); [apply bucket_trace_same; reflexivity|].
  destruct (wait_time (_global_bucket (limiter w)) 1 (clock w)) as [[wt|e] g];
    [|apply bucket_trace_same; reflexivity].
  destruct (Qle_bool wt 0); [|apply bucket_trace_same; reflexivity].
  eapply bucket_trace_trans; [|apply after_global_wait_trace].
  apply bucket_trace_same; reflexivity.
Qed.

Lemma loop_top_trace (ch : Z) (w : World) : bucket_trace ch w (loop_top ch w).
Proof.
  unfold loop_top.
  destruct (_channel_queues (limiter w) !! ch) as [q|];
    [|apply bucket_trace_same; reflexivity].
  destruct (popleft q) as [[item q']|]; [|apply bucket_trace_same; reflexivity].
  eapply bucket_trace_trans; [|apply global_phase_trace].
  apply bucket_trace_same; reflexivity.
Qed.

(** A stretch that may create the bucket of [ch] but changes no bucket. *)
Lemma bucket_trace_kept (ch : Z) (w w' : World) :
  clock w' = clock w -> calls w' = calls w ->
  (forall c, c <> ch ->
     _channel_buckets (limiter w') !! c = _channel_buckets (limiter w) !! c) ->
  (forall b, _channel_buckets (limiter w) !! ch = Some b ->
             _channel_buckets (limiter w') !! ch = Some b) ->
  bucket_trace ch w w'.
Proof.
  intros Hc Hl Ho Hb. split; [exact Hc|]. split; [exact Ho|].
  intros b Hb'. exists [], []. split; [constructor|]. split; [now apply Hb|].
  split; [now rewrite Hl, app_nil_r | reflexivity].
Qed.

Lemma get_channel_queue_buckets (ch : Z) (rl rl' : RateLimiter) :
  _get_channel_queue ch rl = Returned rl' ->
  _channel_buckets rl' = _channel_buckets rl.
Proof.
  unfold _get_channel_queue. destruct (_channel_queues rl !! ch); [now intros [= <-]|].
  destruct (deque_new (_max_queue_size rl)); [now intros [= <-] | discriminate].
Qed.

Lemma get_channel_bucket_cases (ch : Z) (now : Q) (rl rl' : RateLimiter) :
  _get_channel_bucket ch now rl = Returned rl' ->
  (forall c, c <> ch -> _channel_buckets rl' !! c = _channel_buckets rl !! c) /\
  (forall b, _channel_buckets rl !! ch = Some b -> rl' = rl) /\
  (_channel_buckets rl !! ch = None ->
   _channel_buckets rl' !! ch =
     Some (mkBucket (_channel_rate_limit rl) (_channel_rate_limit rl)
             (_channel_rate_limit rl / _channel_window rl) now) /\
   ~ _channel_window rl == 0).
Proof.
  unfold _get_channel_bucket.
  destruct (_channel_buckets rl !! ch) as [b|] eqn:Eb.
  - intros [= <-]. split; [reflexivity|]. split; [reflexivity | discriminate].
  - destruct (Qeq_bool (_channel_window rl) 0) eqn:Ew; [discriminate|].
    intros [= <-]. cbn. split; [intros c Hc; now rewrite lookup_insert_ne|].
    split; [discriminate|]. intros _. split; [apply lookup_insert_eq|].
    now apply Qeq_bool_false.
Qed.

Lemma start_task_trace (ch : Z) (w : World) : bucket_trace ch w (start_task ch w).
Proof.
  unfold start_task.
  destruct (_get_channel_queue ch (limiter w)) as [rl1|e] eqn:Eq;
    [|apply bucket_trace_same; reflexivity].
  cbv zeta.
  pose proof (get_channel_queue_buckets _ _ _ Eq) as Hb1.
  destruct (get_channel_lock_frame ch rl1) as (_ & Lb & _).
  destruct (_get_channel_bucket ch (clock w) (_get_channel_lock ch rl1)) as [rl3|e] eqn:Eb.
  - destruct (get_channel_bucket_cases _ _ _ _ Eb) as (Ho & Hsame & _).
    eapply bucket_trace_trans; [|apply loop_top_trace].
    apply bucket_trace_kept; cbn; try reflexivity.
    + intros c Hc. rewrite (Ho c Hc), Lb, Hb1. reflexivity.
    + intros b Hb. rewrite (Hsame b) by (now rewrite Lb, Hb1).
      now rewrite Lb, Hb1.
  - apply bucket_trace_same; cbn; try reflexivity. now rewrite Lb, Hb1.
Qed.

Lemma dispatch_trace (ch : Z) (w : World) : bucket_trace ch w (dispatch ch w).
Proof.
  unfold dispatch.
  destruct (_processing_tasks (limiter w) !! ch) as [t|]; [|apply bucket_trace_refl].
  destruct t as [|item|item wake|item wake|item|wake|e];
    try (destruct (Qle_bool wake (clock w)); [|apply bucket_trace_refl]);
    try apply bucket_trace_refl.
  - apply start_task_trace.
  - apply global_phase_trace.
  - apply after_global_wait_trace.
  - apply consume_phase_trace.
  - destruct (complete ch item w) as [w1|e] eqn:Ec;
      [|apply bucket_trace_same; reflexivity].
    eapply bucket_trace_trans; [|apply loop_top_trace].
    destruct (complete_fields ch item w w1 Ec) as (_ & Cc & Ck & _ & Cb & _).
    apply bucket_trace_same; assumption.
  - apply loop_top_trace.
Qed.

Lemma timely_app (b : RateLimitBucket) (s1 s2 : list (Q * access)) :
  timely b s1 -> timely (final b s1) s2 -> timely b (s1 ++ s2).
Proof.
  revert b. induction s1 as [|[now a] s1 IH]; intros b H1 H2; [exact H2|].
  destruct H1 as [Ha H1]. split; [exact Ha|]. apply IH; assumption.
Qed.

Lemma drain_accesses_timely (now : Q) (sched : list (Q * access)) :
  forall b : RateLimitBucket,
    drain_accesses now sched -> last_refill b <= now ->
    timely b sched /\ last_refill (final b sched) <= now.
Proof.
  induction sched as [|[t a] rest IH]; intros b Hd Hb; [split; [exact I | exact Hb]|].
  inversion Hd as [|? ? Hta Hrest]; subst. cbn in Hta. destruct Hta as [-> Ha].
  assert (last_refill (apply_access b now a) <= now) as Hnext.
  { destruct Ha as [-> | ->]; cbn [apply_access].
    - rewrite wait_time_state. cbn. lra.
    - destruct (consume_fields b 1 now) as (_ & _ & ->). lra. }
  destruct (IH _ Hrest Hnext) as [IH1 IH2].
  split; [|exact IH2]. split; [|exact IH1].
  split; [exact Hb|]. destruct Ha as [-> | ->]; [exact I | cbn; lra].
Qed.

Lemma run_trace_refl (ch : Z) (resets : bool) (w : World) : run_trace ch resets w w.
Proof.
  split; [lra|]. intros b Hb. exists [], [].
  split; [constructor|]. split; [exact Hb|].
  split; [now rewrite app_nil_r|]. split; [reflexivity|].
  intros _ Hl. split; [exact I | exact Hl].
Qed.

Lemma run_trace_trans (ch : Z) (resets : bool) (w1 w2 w3 : World) :
  run_trace ch resets w1 w2 -> run_trace ch resets w2 w3 -> run_trace ch resets w1 w3.
Proof.
  intros (C1 & T1) (C2 & T2). split; [lra|].
  intros b Hb. destruct (T1 b Hb) as (s1 & l1 & A1 & B1 & L1 & N1 & Y1).
  destruct (T2 _ B1) as (s2 & l2 & A2 & B2 & L2 & N2 & Y2).
  exists (s1 ++ s2), (l1 ++ l2).
  split.
  { apply Forall_app. split.
    - eapply Forall_impl; [exact A1|]. intros [t a]; cbn. intros (? & ? & ? & ?).
      repeat split; try assumption; lra.
    - eapply Forall_impl; [exact A2|]. intros [t a]; cbn. intros (? & ? & ? & ?).
      repeat split; try assumption; lra. }
  split; [now rewrite final_app|].
  split; [rewrite L2, L1; now rewrite app_assoc|].
  split.
  { rewrite consumed_app, <- N1, <- N2, length_app, Nat2Z.inj_add, inject_Z_plus.
    reflexivity. }
  intros Hr Hl. destruct (Y1 Hr Hl) as [Ht1 Hl1]. destruct (Y2 Hr Hl1) as [Ht2 Hl2].
  split; [now apply timely_app | now rewrite final_app].
Qed.

(** A stretch of the drain task of [ch], as a run. *)
Lemma bucket_trace_run (ch : Z) (resets : bool) (w w' : World) :
  bucket_trace ch w w' -> run_trace ch resets w w'.
Proof.
  intros (Hc & _ & T). split; [rewrite Hc; lra|].
  intros b Hb. destruct (T b Hb) as (sched & l & A & B & L & N).
  exists sched, l. split.
  { eapply Forall_impl; [exact A|]. intros [t a]; cbn. intros [-> Ha].
    rewrite Hc. split; [lra|]. split; [lra|].
    split; [destruct Ha as [-> | ->]; [now left | right; now left]|].
    intros _. destruct Ha as [-> | ->]; exact I. }
  split; [exact B|]. split; [exact L|]. split; [exact N|].
  intros _ Hl. rewrite Hc. now apply drain_accesses_timely.
Qed.

(** A stretch that leaves the bucket and the invocations of [ch] alone. *)
Lemma run_trace_idle (ch : Z) (resets : bool) (w w' : World) :
  clock w <= clock w' ->
  _channel_buckets (limiter w') !! ch = _channel_buckets (limiter w) !! ch ->
  calls_of ch (calls w') = calls_of ch (calls w) ->
  run_trace ch resets w w'.
Proof.
  intros Hc Hb Hl. split; [exact Hc|]. intros b Hb'. exists [], [].
  split; [constructor|]. split; [now rewrite Hb|].
  split; [now rewrite Hl, app_nil_r|]. split; [reflexivity|].
  intros _ Hlr. split; [exact I | cbn; lra].
Qed.

(** [enqueue_send] touches neither clock, nor buckets, nor invocations. *)
Lemma enqueue_send_keeps (ch : Z) (c : Op) (w : World) :
  let w' := snd (enqueue_send ch c w) in
  clock w' = clock w /\ calls w' = calls w /\
  _channel_buckets (limiter w') = _channel_buckets (limiter w) /\
  _global_bucket (limiter w') = _global_bucket (limiter w) /\
  _global_lock (limiter w') = _global_lock (limiter w).
Proof.
  cbv zeta. destruct (_enabled (limiter w)) eqn:Hen.
  2:{ unfold enqueue_send. rewrite Hen. cbn. repeat split. }
  destruct (_channel_queues (limiter w) !! ch) as [q|] eqn:Eq.
  - destruct (enqueue_send_enabled ch c w q Hen (or_introl Eq))
      as (_ & H1 & H2 & _ & H3 & H4 & H5 & _). repeat split; assumption.
  - destruct (deque_new (_max_queue_size (limiter w))) as [q|e] eqn:En.
    + destruct (enqueue_send_enabled ch c w q Hen (or_intror (conj Eq En)))
        as (_ & H1 & H2 & _ & H3 & H4 & H5 & _). repeat split; assumption.
    + unfold enqueue_send, _get_channel_queue. rewrite Hen, Eq, En. cbn. repeat split.
Qed.

(** The reset of [handle_rate_limit_response] on the buckets. *)
Lemma rate_limit_update_buckets (cho : option Z) (r : Q) (w : World) (ch : Z) :
  let w' := snd (rate_limit_update cho r w) in
  (cho <> Some ch ->
   forall b, _channel_buckets (limiter w) !! ch = Some b ->
             _channel_buckets (limiter w') !! ch = Some b) /\
  (cho = Some ch ->
   forall b, _channel_buckets (limiter w) !! ch = Some b ->
             _channel_buckets (limiter w') !! ch = Some (backoff b (clock w) r)).
Proof.
  cbv zeta. unfold rate_limit_update. destruct cho as [c|].
  - unfold _get_channel_bucket. cbn [_channel_buckets set_stats limiter].
    destruct (_channel_buckets (limiter w) !! c) as [bc|] eqn:Ec.
    + cbn. rewrite Ec. cbn. split.
      * intros Hne b Hb. rewrite lookup_insert_ne by congruence. exact Hb.
      * intros [= ->] b Hb. rewrite lookup_insert_eq. congruence.
    + cbn [_channel_window set_stats _channel_rate_limit].
      destruct (Qeq_bool (_channel_window (limiter w)) 0); cbn.
      * split; [intros _ b Hb; exact Hb | intros [= ->] b Hb; congruence].
      * rewrite lookup_insert_eq. cbn. split.
        -- intros Hne b Hb. rewrite !lookup_insert_ne by congruence. exact Hb.
        -- intros [= ->] b Hb. congruence.
  - cbn. split; [intros _ b Hb; exact Hb | discriminate].
Qed.

(** Every event is a run for every channel. *)
Lemma step_trace (ch : Z) (resets : bool) (w : World) (e : event) :
  (resets = false -> no_reset ch e) -> run_trace ch resets w (step w e).
Proof.
  intros Hres.
  destruct e as [ch' c | ch' | d | cho r | a b c0 d e0 | id]; cbn [step].
  6:{ destruct (run_created_task_fields id w) as (Hl & _ & Hck & Hcl). cbv zeta in *.
      apply run_trace_idle; [rewrite Hck; lra | now rewrite Hl | apply Hcl]. }
  - destruct (enqueue_send_keeps ch' c w) as (Hc & Hl & Hb & _).
    apply run_trace_idle; [rewrite Hc; lra | now rewrite Hb | now rewrite Hl].
  - destruct (decide (ch' = ch)) as [->|Hne].
    + apply bucket_trace_run, dispatch_trace.
    + destruct (dispatch_trace ch' w) as (Hc & Ho & _).
      destruct (dispatch_spec ch' w) as [_ (_ & _ & Fo)].
      destruct (Fo ch) as (_ & _ & Fc); [congruence|].
      apply run_trace_idle; [rewrite Hc; lra | apply Ho; congruence | exact Fc].
  - unfold advance. destruct (Qle_bool 0 d) eqn:Ed; [|apply run_trace_refl].
    apply Qle_bool_iff in Ed. apply run_trace_idle; cbn; [lra | reflexivity | reflexivity].
  - destruct (rate_limit_update_fields cho r w) as (_ & Hl & Hc & _).
    destruct (rate_limit_update_buckets cho r w ch) as [Hother Hsame].
    cbv zeta in *.
    split; [rewrite Hc; lra|]. intros b Hb.
    destruct (decide (cho = Some ch)) as [Heq|Hne].
    + exists [(clock w, ABackoff r)], [].
      split.
      { constructor; [|constructor]. cbn. rewrite Hc.
        split; [lra|]. split; [lra|]. split; [right; right; eauto|].
        intros Hr. specialize (Hres Hr). rewrite Heq in Hres. cbn in Hres. congruence. }
      split; [cbn; now apply Hsame|].
      split; [now rewrite Hl, app_nil_r|]. split; [reflexivity|].
      intros Hr. specialize (Hres Hr). rewrite Heq in Hres. cbn in Hres. congruence.
    + exists [], []. split; [constructor|]. split; [now apply Hother|].
      split; [now rewrite Hl, app_nil_r|]. split; [reflexivity|].
      intros _ Hlr. rewrite Hc. split; [exact I | exact Hlr].
  - apply run_trace_idle; cbn; [lra | reflexivity | reflexivity].
Qed.

Lemma run_events_trace (ch : Z) (resets : bool) (evs : list event) :
  forall w : World,
    (resets = false -> Forall (no_reset ch) evs) ->
    run_trace ch resets w (run_events w evs).
Proof.
  induction evs as [|e evs IH]; intros w Hres; [apply run_trace_refl|].
  cbn [run_events fold_left].
  apply (run_trace_trans ch resets w (step w e)).
  - apply (step_trace ch resets w e). intros Hr. specialize (Hres Hr).
    inversion Hres; assumption.
  - apply IH. intros Hr. specialize (Hres Hr).
    inversion Hres; assumption.
Qed.

(** ** The rate limit of a channel *)



(** A bucket that cannot hold one token never hands one out. *)
Lemma consumed_none_capacity (sched : list (Q * access)) :
  forall b : RateLimitBucket,
    capacity b < 1 ->
    Forall (fun ta => bucket_access (snd ta)) sched ->
    consumed b sched == 0.
Proof.
  induction sched as [|[now a] rest IH]; intros b Hcap Hs; [reflexivity|].
  inversion Hs as [|? ? Ha Hrest]; subst. cbn in Ha. cbn [consumed].
  assert (taken b now a == 0) as Htaken.
  { destruct Ha as [-> | [-> | [r ->]]]; cbn [taken]; try reflexivity.
    rewrite consume_false; [reflexivity|].
    rewrite refill_available. pose proof (refill_le_capacity b now). lra. }
  destruct (access_rate b now a) as [_ Hc].
  rewrite Htaken, IH; [lra | rewrite Hc; exact Hcap | exact Hrest].
Qed.

Lemma length_zero_nil {A : Type} (l : list A) :
  inject_Z (Z.of_nat (length l)) == 0 -> l = [].
Proof.
  destruct l as [|x l]; [reflexivity|]. intros H. exfalso.
  assert (0 < inject_Z (Z.of_nat (length (x :: l)))) as Hpos.
  { rewrite <- (Zlt_Qlt 0). cbn [length]. lia. }
  rewrite H in Hpos. lra.
Qed.





(** X8.  A channel whose bucket cannot hold one token is never served:
    whatever the schedule, no operation is invoked for it. *)
Theorem X8_small_bucket_starves (ch : Z) (w : World) (b : RateLimitBucket)
    (evs : list event) :
  _channel_buckets (limiter w) !! ch = Some b ->
  capacity b < 1 ->
  calls_of ch (calls (run_events w evs)) = calls_of ch (calls w).
Proof.
  intros Hb Hcap.
  destruct (run_events_trace ch true evs w) as (Hclock & T); [discriminate|].
  destruct (T b Hb) as (sched & l & A & _ & L & N & _).
  rewrite L.
  assert (l = []) as ->; [|apply app_nil_r].
  apply length_zero_nil. rewrite N.
  apply consumed_none_capacity; [exact Hcap|].
  eapply Forall_impl; [exact A|]. intros [t a]; cbn. tauto.
Qed.

(** X9.  [configure] does not reach a channel already in use: along every
    schedule, changes of the settings included, the bucket of a channel keeps
    the capacity and the refill rate it was created with. *)
Theorem X9_bucket_shape_is_kept (ch : Z) (w : World) (b : RateLimitBucket)
    (evs : list event) :
  _channel_buckets (limiter w) !! ch = Some b ->
  exists b', _channel_buckets (limiter (run_events w evs)) !! ch = Some b' /\
             capacity b' = capacity b /\ refill_rate b' = refill_rate b.
Proof.
  intros Hb.
  destruct (run_events_trace ch true evs w) as (_ & T); [discriminate|].
  destruct (T b Hb) as (sched & l & _ & B & _).
  exists (final b sched). split; [exact B|].
  destruct (final_shape b sched) as [Hr Hc]. split; assumption.
Qed.

(** ** Queues stay within their [maxlen] and under a drain task *)

Lemma bounded_append (x : QueuedItem) (q : deque) :
  bounded q -> bounded (append x q) /\ maxlen (append x q) = maxlen q.
Proof.
  unfold bounded, append. cbv zeta. cbn [items maxlen]. intros Hb.
  split; [|reflexivity].
  destruct (Nat.ltb_spec (maxlen q) (length (items q ++ [x]))) as [Hlt|Hle]; [|exact Hle].
  rewrite length_app in Hlt. cbn in Hlt.
  destruct (items q ++ [x]) as [|y l] eqn:E.
  - apply (f_equal (@length _)) in E. rewrite length_app in E. cbn in E. lia.
  - apply (f_equal (@length _)) in E. rewrite length_app in E. cbn in E. cbn. lia.
Qed.

Lemma bounded_appendleft (x : QueuedItem) (q : deque) :
  bounded q -> bounded (appendleft x q) /\ maxlen (appendleft x q) = maxlen q.
Proof.
  unfold bounded, appendleft. cbv zeta. cbn [items maxlen]. intros Hb.
  split; [|reflexivity].
  destruct (Nat.ltb_spec (maxlen q) (length (x :: items q))) as [Hlt|Hle]; [|exact Hle].
  rewrite removelast_firstn_len, length_firstn. cbn [length Nat.pred]. lia.
Qed.

Lemma bounded_popleft (q q' : deque) (item : QueuedItem) :
  bounded q -> popleft q = Some (item, q') -> bounded q' /\ maxlen q' = maxlen q.
Proof.
  unfold bounded, popleft. intros Hb. destruct (items q) as [|x rest]; [discriminate|].
  intros [= <- <-]. cbn in *. split; [lia | reflexivity].
Qed.

Lemma queue_ok_held (item : QueuedItem) (q : deque) (cs : list Op)
    (fs : list FutureState) (v : view) :
  bounded q -> held_outcome item (Some q) cs fs v ->
  queue_ok v /\ same_maxlen (Some q, @None Task, cs, fs) v.
Proof.
  intros Hb Ho. inversion Ho; subst; cbn -[appendleft].
  1-4,6: split; [intros ? [= <-]; split; [exact Hb | discriminate]
                | intros ? [= <-]; eexists; split; reflexivity].
  match goal with H : Some _ = Some _ |- _ => injection H as <- end.
  destruct (bounded_appendleft item q Hb) as [Hb' Hm]. split.
  - intros ? [= <-]. split; [exact Hb' | discriminate].
  - intros ? [= <-]. eexists. split; [reflexivity | exact Hm].
Qed.

Lemma queue_ok_top (q : deque) (cs : list Op) (fs : list FutureState) (v : view) :
  bounded q -> top_outcome q cs fs v ->
  queue_ok v /\ same_maxlen (Some q, @None Task, cs, fs) v.
Proof.
  intros Hb Ho. inversion Ho as [Hnil | item q' v' Hpop Hheld]; subst.
  - cbn. split.
    + intros ? [= <-]. split; [exact Hb | intros _; exact Hnil].
    + intros ? [= <-]. eexists. split; reflexivity.
  - destruct (bounded_popleft q q' item Hb Hpop) as [Hb' Hm].
    destruct (queue_ok_held item q' cs fs v Hb' Hheld) as [Hok Hsame].
    split; [exact Hok|]. destruct v as [[[qo t] cs'] fs']. cbn in *.
    intros ? [= <-]. destruct (Hsame q' eq_refl) as (q2 & E & Hm2).
    exists q2. split; [exact E | congruence].
Qed.

Lemma bounded_empty (q : deque) : items q = [] -> bounded q.
Proof. unfold bounded. intros ->. cbn. lia. Qed.

(** A drain run on a queue within its bound: nothing moves, or the queue is
    in order afterwards. *)
Lemma drain_step_queue (v v' : view) :
  queue_bounded v -> drain_step v v' -> (v' = v \/ queue_ok v') /\ same_maxlen v v'.
Proof.
  intros Hv Hstep.
  destruct Hstep as [v | qo t cs fs e | q t cs fs e Ht Hnil | q t cs fs v Ht Hnil Ho
                     | q t cs fs v Ht Ho | q item cs fs r v Ho | qo item cs fs r e
                     | qo t item cs fs v Hh Ho].
  - split; [now left|]. destruct v as [[[qo t] cs] fs]. cbn.
    intros q ->. eexists. split; reflexivity.
  - cbn in *. split.
    + right. intros q Hq. split; [exact (Hv q Hq) | discriminate].
    + intros q ->. eexists. split; reflexivity.
  - cbn. split; [|discriminate].
    right. intros ? [= <-]. split; [now apply bounded_empty | discriminate].
  - destruct (queue_ok_top q cs fs v (bounded_empty q Hnil) Ho) as [Hok _].
    split; [right; exact Hok|]. destruct v as [[[qo' t'] cs'] fs']. cbn. discriminate.
  - pose proof (Hv q eq_refl) as Hb.
    destruct (queue_ok_top q cs fs v Hb Ho) as [Hok Hsame].
    split; [right; exact Hok|]. destruct v as [[[qo' t'] cs'] fs']. exact Hsame.
  - pose proof (Hv q eq_refl) as Hb.
    destruct (queue_ok_top q cs _ v Hb Ho) as [Hok Hsame].
    split; [right; exact Hok|]. destruct v as [[[qo' t'] cs'] fs']. exact Hsame.
  - cbn in *. split.
    + right. intros q Hq. split; [exact (Hv q Hq) | discriminate].
    + intros q ->. eexists. split; reflexivity.
  - destruct qo as [q|].
    + pose proof (Hv q eq_refl) as Hb.
      destruct (queue_ok_held item q cs fs v Hb Ho) as [Hok Hsame].
      split; [right; exact Hok|]. destruct v as [[[qo' t'] cs'] fs']. exact Hsame.
    + split; [|destruct v as [[[qo' t'] cs'] fs']; cbn; discriminate].
      right. inversion Ho; subst; cbn; try discriminate.
Qed.

Lemma queue_ok_bounded (v : view) : queue_ok v -> queue_bounded v.
Proof. destruct v as [[[qo t] cs] fs]. intros H q Hq. exact (proj1 (H q Hq)). Qed.

Lemma queue_ok_drain_step (v v' : view) :
  queue_ok v -> drain_step v v' -> queue_ok v' /\ same_maxlen v v'.
Proof.
  intros Hv Hstep.
  destruct (drain_step_queue v v' (queue_ok_bounded v Hv) Hstep) as [[-> | Hok] Hsame];
    split; assumption.
Qed.

Lemma bounded_drain_step (v v' : view) :
  queue_bounded v -> drain_step v v' -> queue_bounded v' /\ same_maxlen v v'.
Proof.
  intros Hv Hstep.
  destruct (drain_step_queue v v' Hv Hstep) as [[-> | Hok] Hsame];
    (split; [|exact Hsame]); [exact Hv | now apply queue_ok_bounded].
Qed.

(** What [enqueue_send] does to the queues and the drain tasks: nothing
    (limiter switched off, or the queue could not be made), or it works on
    the queue of the channel, found or made, and leaves it as it is (overflow)
    or appends the new item and makes sure a drain task is registered. *)
Lemma enqueue_send_cases (ch : Z) (c : Op) (w : World) :
  let w' := snd (enqueue_send ch c w) in
  limiter w' = limiter w \/
  exists q,
    (_channel_queues (limiter w) !! ch = Some q \/
     _channel_queues (limiter w) !! ch = None /\ items q = [] /\
     Z.of_nat (maxlen q) = _max_queue_size (limiter w)) /\
    ((_channel_queues (limiter w') = <[ch := q]> (_channel_queues (limiter w)) /\
      _processing_tasks (limiter w') = _processing_tasks (limiter w)) \/
     (_channel_queues (limiter w') =
        <[ch := append (mkItem c (Some (length (futures w))) (clock w)) q]>
          (_channel_queues (limiter w)) /\
      _processing_tasks (limiter w') =
        match _processing_tasks (limiter w) !! ch with
        | Some _ => _processing_tasks (limiter w)
        | None => <[ch := TStart]> (_processing_tasks (limiter w))
        end)).
Proof.
  cbv zeta. destruct (_enabled (limiter w)) eqn:Hen.
  2:{ left. unfold enqueue_send. rewrite Hen. reflexivity. }
  assert (forall q,
    (_channel_queues (limiter w) !! ch = Some q \/
     _channel_queues (limiter w) !! ch = None /\
     deque_new (_max_queue_size (limiter w)) = Returned q) ->
    (_channel_queues (limiter (snd (enqueue_send ch c w))) =
       <[ch := q]> (_channel_queues (limiter w)) /\
     _processing_tasks (limiter (snd (enqueue_send ch c w))) =
       _processing_tasks (limiter w)) \/
    (_channel_queues (limiter (snd (enqueue_send ch c w))) =
       <[ch := append (mkItem c (Some (length (futures w))) (clock w)) q]>
         (_channel_queues (limiter w)) /\
     _processing_tasks (limiter (snd (enqueue_send ch c w))) =
       match _processing_tasks (limiter w) !! ch with
       | Some _ => _processing_tasks (limiter w)
       | None => <[ch := TStart]> (_processing_tasks (limiter w))
       end)) as Hcases.
  { intros q Hq.
    destruct (enqueue_send_enabled ch c w q Hen Hq)
      as (_ & _ & _ & _ & _ & _ & _ & _ & _ & _ & _ & Hcase).
    cbv zeta in Hcase.
    destruct (_ <=? _)%Z; destruct Hcase as (_ & E2 & E3 & _); [left | right];
      split; assumption. }
  destruct (_channel_queues (limiter w) !! ch) as [q|] eqn:Eq.
  - right. exists q. split; [now left|]. apply Hcases. now left.
  - destruct (deque_new (_max_queue_size (limiter w))) as [q|e] eqn:En.
    + right. exists q. split; [|apply Hcases; now right].
      right. split; [reflexivity|]. split; [exact (deque_new_items _ _ En)|].
      unfold deque_new in En. destruct (Z.ltb_spec (_max_queue_size (limiter w)) 0);
        [discriminate|]. injection En as <-. cbn. lia.
    + left. unfold enqueue_send, _get_channel_queue. rewrite Hen, Eq, En. reflexivity.
Qed.

Lemma queues_ok_step (w : World) (e : event) :
  queues_ok w ->
  queues_ok (step w e) /\ forall ch, same_maxlen (view_of ch w) (view_of ch (step w e)).
Proof.
  intros Hok.
  assert (forall w' : World,
            _channel_queues (limiter w') = _channel_queues (limiter w) ->
            _processing_tasks (limiter w') = _processing_tasks (limiter w) ->
            queues_ok w' /\ forall ch, same_maxlen (view_of ch w) (view_of ch w')) as Hsame.
  { intros w' Eq Et. split.
    - intros ch. specialize (Hok ch). unfold queue_ok, view_of in *. now rewrite Eq, Et.
    - intros ch. unfold same_maxlen, view_of. rewrite Eq. intros q ->.
      eexists. split; reflexivity. }
  destruct e as [ch c | ch | d | cho r | a b c0 d e0 | id]; cbn [step].
  6:{ destruct (run_created_task_fields id w) as (Hl & _). cbv zeta in Hl.
      apply Hsame; now rewrite Hl. }
  - destruct (enqueue_send_cases ch c w) as [El | (q & Hq & Hcase)].
    { apply Hsame; cbv zeta in El; now rewrite El. }
    cbv zeta in Hcase.
    assert (bounded q /\
            (_processing_tasks (limiter w) !! ch = None -> items q = [])) as [Hb Hatt].
    { destruct Hq as [Hq | (Hq & Hnil & _)].
      - specialize (Hok ch). unfold queue_ok, view_of in Hok. exact (Hok q Hq).
      - split; [now apply bounded_empty | intros _; exact Hnil]. }
    assert (forall q0, _channel_queues (limiter w) !! ch = Some q0 -> q0 = q) as Huniq.
    { intros q0 Hq0. destruct Hq as [Hq | (Hq & _)]; congruence. }
    destruct Hcase as [[Eq Et] | [Eq Et]]; split; intros ch'; unfold queue_ok, same_maxlen,
      view_of; rewrite ?Eq, ?Et; destruct (decide (ch = ch')) as [<-|Hne];
      rewrite ?lookup_insert_eq, ?lookup_insert_ne by exact Hne.
    + intros ? [= <-]. split; [exact Hb | exact Hatt].
    + exact (Hok ch').
    + intros q0 Hq0. rewrite (Huniq q0 Hq0). eexists. split; reflexivity.
    + intros q0 ->. eexists. split; reflexivity.
    + intros ? [= <-]. split; [apply bounded_append; exact Hb|].
      destruct (_processing_tasks (limiter w) !! ch) eqn:E;
        [rewrite E; discriminate | rewrite lookup_insert_eq; discriminate].
    + specialize (Hok ch'). unfold queue_ok, view_of in Hok.
      destruct (_processing_tasks (limiter w) !! ch); [exact Hok|].
      rewrite lookup_insert_ne by exact Hne. exact Hok.
    + intros q0 Hq0. rewrite (Huniq q0 Hq0). eexists. split; [reflexivity|].
      apply bounded_append. exact Hb.
    + intros q0 ->. eexists. split; reflexivity.
  - destruct (dispatch_spec ch w) as [Hd (_ & _ & Fo)].
    destruct (queue_ok_drain_step _ _ (Hok ch) Hd) as [Hok' Hsame'].
    split; intros ch'; (destruct (decide (ch' = ch)) as [->|Hne]; [assumption|]);
      destruct (Fo ch' Hne) as (Eq & Et & _).
    + specialize (Hok ch'). unfold queue_ok, view_of in *. now rewrite Eq, Et.
    + unfold same_maxlen, view_of. rewrite Eq. intros q ->. eexists. split; reflexivity.
  - apply Hsame; unfold advance; destruct (Qle_bool 0 d); reflexivity.
  - destruct (rate_limit_update_fields cho r w) as (_ & _ & _ & Eq & Et & _).
    now apply Hsame.
  - now apply Hsame.
Qed.

Lemma queues_bounded_step (w : World) (e : event) :
  queues_bounded w ->
  queues_bounded (step w e) /\
  forall ch, same_maxlen (view_of ch w) (view_of ch (step w e)).
Proof.
  intros Hok.
  assert (forall w' : World,
            _channel_queues (limiter w') = _channel_queues (limiter w) ->
            queues_bounded w' /\ forall ch, same_maxlen (view_of ch w) (view_of ch w'))
    as Hsame.
  { intros w' Eq. split.
    - intros ch. specialize (Hok ch). unfold queue_bounded, view_of in *. now rewrite Eq.
    - intros ch. unfold same_maxlen, view_of. rewrite Eq. intros q ->.
      eexists. split; reflexivity. }
  destruct e as [ch c | ch | d | cho r | a b c0 d e0 | id]; cbn [step].
  - destruct (enqueue_send_cases ch c w) as [El | (q & Hq & Hcase)].
    { apply Hsame; cbv zeta in El; now rewrite El. }
    cbv zeta in Hcase.
    assert (bounded q) as Hb.
    { destruct Hq as [Hq | (Hq & Hnil & _)].
      - specialize (Hok ch). unfold queue_bounded, view_of in Hok. exact (Hok q Hq).
      - now apply bounded_empty. }
    assert (forall q0, _channel_queues (limiter w) !! ch = Some q0 -> q0 = q) as Huniq.
    { intros q0 Hq0. destruct Hq as [Hq | (Hq & _)]; congruence. }
    destruct Hcase as [[Eq _] | [Eq _]]; split; intros ch';
      unfold queue_bounded, same_maxlen, view_of; rewrite ?Eq;
      destruct (decide (ch = ch')) as [<-|Hne];
      rewrite ?lookup_insert_eq, ?lookup_insert_ne by exact Hne.
    + intros ? [= <-]. exact Hb.
    + exact (Hok ch').
    + intros q0 Hq0. rewrite (Huniq q0 Hq0). eexists. split; reflexivity.
    + intros q0 ->. eexists. split; reflexivity.
    + intros ? [= <-]. apply bounded_append; exact Hb.
    + exact (Hok ch').
    + intros q0 Hq0. rewrite (Huniq q0 Hq0). eexists. split; [reflexivity|].
      apply bounded_append. exact Hb.
    + intros q0 ->. eexists. split; reflexivity.
  - destruct (dispatch_spec ch w) as [Hd (_ & _ & Fo)].
    destruct (bounded_drain_step _ _ (Hok ch) Hd) as [Hok' Hsame'].
    split; intros ch'; (destruct (decide (ch' = ch)) as [->|Hne]; [assumption|]);
      destruct (Fo ch' Hne) as (Eq & _ & _).
    + specialize (Hok ch'). unfold queue_bounded, view_of in *. now rewrite Eq.
    + unfold same_maxlen, view_of. rewrite Eq. intros q ->. eexists. split; reflexivity.
  - apply Hsame; unfold advance; destruct (Qle_bool 0 d); reflexivity.
  - destruct (rate_limit_update_fields cho r w) as (_ & _ & _ & Eq & _).
    now apply Hsame.
  - now apply Hsame.
  - destruct (run_created_task_fields id w) as (Hl & _). cbv zeta in Hl.
    apply Hsame; now rewrite Hl.
Qed.

(** X10.  The queues keep their bound along every schedule.  From a limiter
    whose queues are within their [maxlen] (as just after [__init__], and
    ever after), every queue keeps the [maxlen] it was created with,
    whatever [configure] does to [_max_queue_size], and it never holds more
    items than that. *)
Theorem X10_queues_stay_in_order (evs : list event) :
  forall w : World,
    queues_bounded w ->
    forall ch,
      (forall q, _channel_queues (limiter w) !! ch = Some q ->
         exists q', _channel_queues (limiter (run_events w evs)) !! ch = Some q' /\
                    maxlen q' = maxlen q) /\
      (forall q', _channel_queues (limiter (run_events w evs)) !! ch = Some q' ->
         (length (items q') <= maxlen q')%nat).
Proof.
  induction evs as [|e evs IH]; intros w Hok ch.
  - split; [intros q Hq; exists q; split; [exact Hq | reflexivity]|].
    intros q' Hq'. exact (Hok ch q' Hq').
  - cbn [run_events fold_left].
    destruct (queues_bounded_step w e Hok) as [Hok' Hsame].
    destruct (IH (step w e) Hok' ch) as [Hm Hb]. split; [|exact Hb].
    intros q Hq. specialize (Hsame ch). unfold same_maxlen, view_of in Hsame.
    destruct (Hsame q Hq) as (q1 & Hq1 & Hm1).
    destruct (Hm q1 Hq1) as (q' & Hq' & Hm'). exists q'. split; [exact Hq' | congruence].
Qed.

Lemma queues_bounded_run (evs : list event) :
  forall w : World, queues_bounded w -> queues_bounded (run_events w evs).
Proof.
  induction evs as [|e evs IH]; intros w Hok; [exact Hok|].
  cbn [run_events fold_left]. apply IH. exact (proj1 (queues_bounded_step w e Hok)).
Qed.

Lemma queues_ok_run (evs : list event) :
  forall w : World, queues_ok w -> queues_ok (run_events w evs).
Proof.
  induction evs as [|e evs IH]; intros w Hok; [exact Hok|].
  cbn [run_events fold_left]. apply IH. exact (proj1 (queues_ok_step w e Hok)).
Qed.

(** X25.  No call waits without a drain task, as long as [shutdown] is not
    called (it is the one method that empties [_processing_tasks], and it is
    not among the events).  From a limiter in which every queue that holds
    an item has a drain task registered (as just after [__init__]), along
    every schedule of calls of [enqueue_send], runs of drain tasks, passing
    time, rate-limit responses, calls of [configure] and runs of bypass
    tasks, a queue holds an item only while a drain task is registered for
    its channel: a drain task leaves the registry only on finding its queue
    empty, and [enqueue_send] registers one whenever it queues a call. *)
Theorem X25_queued_call_has_a_task (evs : list event) (w : World) (ch : Z) (q' : deque) :
  queues_ok w ->
  _channel_queues (limiter (run_events w evs)) !! ch = Some q' ->
  _processing_tasks (limiter (run_events w evs)) !! ch = None ->
  items q' = [].
Proof.
  intros Hok Hq Ht.
  pose proof (queues_ok_run evs w Hok ch) as H. unfold queue_ok, view_of in H.
  exact (proj2 (H q' Hq) Ht).
Qed.

(** ** A drain task that has died *)

Lemma dead_task_step (ch : Z) (e0 : PyExn) (w : World) (e : event) :
  _processing_tasks (limiter w) !! ch = Some (TFailed e0) ->
  _processing_tasks (limiter (step w e)) !! ch = Some (TFailed e0) /\
  calls_of ch (calls (step w e)) = calls_of ch (calls w).
Proof.
  intros Hdead.
  destruct e as [ch' c | ch' | d | cho r | a b c0 d e1 | id]; cbn [step].
  6:{ destruct (run_created_task_fields id w) as (Hl & _ & _ & Hcl). cbv zeta in *.
      rewrite Hl. split; [exact Hdead | apply Hcl]. }
  - destruct (enqueue_send_keeps ch' c w) as (_ & -> & _). split; [|reflexivity].
    destruct (enqueue_send_cases ch' c w) as [El | (q & _ & [[_ Et] | [_ Et]])];
      cbv zeta in *.
    + now rewrite El.
    + now rewrite Et.
    + rewrite Et. destruct (decide (ch' = ch)) as [->|Hne].
      * now rewrite Hdead.
      * destruct (_processing_tasks (limiter w) !! ch'); [exact Hdead|].
        rewrite lookup_insert_ne by exact Hne. exact Hdead.
  - destruct (decide (ch' = ch)) as [->|Hne].
    + unfold dispatch. rewrite Hdead. split; [exact Hdead | reflexivity].
    + destruct (dispatch_spec ch' w) as [_ (_ & _ & Fo)].
      destruct (Fo ch (not_eq_sym Hne)) as (_ & Et & Ec). split; [now rewrite Et | exact Ec].
  - unfold advance. destruct (Qle_bool 0 d); split; (exact Hdead || reflexivity).
  - destruct (rate_limit_update_fields cho r w) as (_ & Ec & _ & _ & Et & _).
    cbv zeta in *. rewrite Et, Ec. split; [exact Hdead | reflexivity].
  - split; [exact Hdead | reflexivity].
Qed.

Lemma dead_future_step (ch : Z) (e0 : PyExn) (f : nat) (w : World) (e : event) :
  _processing_tasks (limiter w) !! ch = Some (TFailed e0) ->
  futures w !! f = Some Pending -> only_in ch f w ->
  futures (step w e) !! f = Some Pending /\ only_in ch f (step w e).
Proof.
  intros Hdead Hf [Oq Ot].
  assert (f < length (futures w))%nat as Hlt by (eapply lookup_lt_Some; exact Hf).
  assert (forall w' : World,
            futures w' = futures w ->
            _channel_queues (limiter w') = _channel_queues (limiter w) ->
            _processing_tasks (limiter w') = _processing_tasks (limiter w) ->
            futures w' !! f = Some Pending /\ only_in ch f w') as Hsame.
  { intros w' Ef Eq Et. split; [now rewrite Ef|]. unfold only_in. rewrite Eq, Et.
    split; assumption. }
  destruct e as [ch' c | ch' | d | cho r | a b c0 d e1 | id]; cbn [step].
  6:{ destruct (run_created_task_fields id w) as (Hl & Hfu & _). cbv zeta in *.
      apply Hsame; [exact Hfu | now rewrite Hl | now rewrite Hl]. }
  - (* enqueue_send: the new item carries a new future *)
    assert (exists x, futures (snd (enqueue_send ch' c w)) = futures w ++ x) as [x Ef].
    { unfold enqueue_send. destruct (negb (_enabled (limiter w))).
      - exists []. cbn. now rewrite app_nil_r.
      - cbv zeta. destruct (_get_channel_queue ch' (limiter w)) as [rl1|]; [|now eexists].
        destruct (_channel_queues (_get_channel_lock ch' rl1) !! ch'); [|now eexists].
        destruct (_ <=? _)%Z; [|now eexists].
        exists [overflow_failure]. cbn. unfold set_done.
        rewrite insert_app_r_alt by lia. now rewrite Nat.sub_diag. }
    split; [rewrite Ef; rewrite lookup_app_l by exact Hlt; exact Hf|].
    destruct (enqueue_send_cases ch' c w) as [El | (q & Hq & Hcase)]; cbv zeta in *.
    { unfold only_in. rewrite El. split; assumption. }
    assert (ch' <> ch -> forall y, In y (items q) -> future y <> Some f) as Hqf.
    { intros Hne y Hy. destruct Hq as [Hq | (_ & Hnil & _)].
      - exact (Oq ch' q y Hne Hq Hy).
      - rewrite Hnil in Hy. contradiction. }
    destruct Hcase as [[Eq Et] | [Eq Et]]; unfold only_in; rewrite Eq, Et; split.
    + intros c1 q1 y Hne. destruct (decide (ch' = c1)) as [<-|Hne'].
      * rewrite lookup_insert_eq. intros [= <-]. now apply Hqf.
      * rewrite lookup_insert_ne by exact Hne'. now apply Oq.
    + exact Ot.
    + intros c1 q1 y Hne. destruct (decide (ch' = c1)) as [<-|Hne'].
      * rewrite lookup_insert_eq. intros [= <-] Hy. apply in_append in Hy.
        destruct Hy as [->|Hy]; [cbn; intros [= E]; lia | now apply Hqf].
      * rewrite lookup_insert_ne by exact Hne'. now apply Oq.
    + intros c1 t y Hne. destruct (_processing_tasks (limiter w) !! ch') eqn:E1;
        [now apply Ot|].
      destruct (decide (ch' = c1)) as [<-|Hne'].
      * rewrite lookup_insert_eq. intros [= <-]. discriminate.
      * rewrite lookup_insert_ne by exact Hne'. now apply Ot.
  - (* a drain task runs *)
    destruct (decide (ch' = ch)) as [->|Hne].
    { unfold dispatch. rewrite Hdead. split; [exact Hf | split; assumption]. }
    destruct (dispatch_spec ch' w) as [Hd (_ & _ & Fo)].
    assert (view_quiet f (view_of ch' (dispatch ch' w))) as (Hf' & Hq' & Ht').
    { eapply view_quiet_drain_step; [|exact Hd]. unfold view_quiet, view_of.
      split; [exact Hf|]. split.
      - intros q x Hq. exact (Oq ch' q x Hne Hq).
      - intros t x Ht. exact (Ot ch' t x Hne Ht). }
    split; [exact Hf'|]. split.
    + intros c1 q1 y Hne1. destruct (decide (c1 = ch')) as [->|Hne'].
      * intros Hq1. exact (Hq' q1 y Hq1).
      * destruct (Fo c1 Hne') as (Eq & _). rewrite Eq. now apply Oq.
    + intros c1 t y Hne1. destruct (decide (c1 = ch')) as [->|Hne'].
      * intros Ht1. exact (Ht' t y Ht1).
      * destruct (Fo c1 Hne') as (_ & Et & _). rewrite Et. now apply Ot.
  - apply Hsame; unfold advance; destruct (Qle_bool 0 d); reflexivity.
  - destruct (rate_limit_update_fields cho r w) as (Ef & _ & _ & Eq & Et & _).
    now apply Hsame.
  - now apply Hsame.
Qed.

Lemma dead_task_run (ch : Z) (e0 : PyExn) (evs : list event) :
  forall w : World,
    _processing_tasks (limiter w) !! ch = Some (TFailed e0) ->
    _processing_tasks (limiter (run_events w evs)) !! ch = Some (TFailed e0) /\
    calls_of ch (calls (run_events w evs)) = calls_of ch (calls w) /\
    forall f, futures w !! f = Some Pending -> only_in ch f w ->
              futures (run_events w evs) !! f = Some Pending.
Proof.
  induction evs as [|e evs IH]; intros w Hdead.
  - split; [exact Hdead|]. split; [reflexivity|]. intros f Hf _. exact Hf.
  - cbn [run_events fold_left].
    destruct (dead_task_step ch e0 w e Hdead) as [Hdead' Hc].
    destruct (IH (step w e) Hdead') as (Ht & Hcalls & Hfut).
    split; [exact Ht|]. split; [now rewrite <- Hc|].
    intros f Hf Ho.
    destruct (dead_future_step ch e0 f w e Hdead Hf Ho) as [Hf' Ho'].
    exact (Hfut f Hf' Ho').
Qed.

(** X11.  A drain task that has ended with an exception is not replaced as
    long as [shutdown] is not called: no other method removes its entry from
    [_processing_tasks] ([shutdown], which clears the registry, is not among
    the events), so [enqueue_send] starts no new task.  Along every schedule
    of calls of [enqueue_send], runs of drain tasks, passing time,
    rate-limit responses, calls of [configure] and runs of bypass tasks from
    then on, no operation is invoked for the channel, and a pending future
    that only this channel refers to (the future of an item in its queue)
    stays pending. *)
Theorem X11_dead_drain_task_is_final (ch : Z) (e0 : PyExn) (w : World)
    (evs : list event) :
  _processing_tasks (limiter w) !! ch = Some (TFailed e0) ->
  _processing_tasks (limiter (run_events w evs)) !! ch = Some (TFailed e0) /\
  calls_of ch (calls (run_events w evs)) = calls_of ch (calls w) /\
  forall f, futures w !! f = Some Pending -> only_in ch f w ->
            futures (run_events w evs) !! f = Some Pending.
Proof. apply dead_task_run. Qed.

(** The first run of a drain task whose channel has a queue and no bucket,
    under a zero [_channel_window]. *)
Lemma start_task_zero_window (ch : Z) (w : World) (q : deque) :
  _channel_queues (limiter w) !! ch = Some q ->
  _channel_buckets (limiter w) !! ch = None ->
  _channel_window (limiter w) == 0 ->
  _processing_tasks (limiter (start_task ch w)) !! ch = Some (TFailed ZeroDivisionError) /\
  _channel_queues (limiter (start_task ch w)) = _channel_queues (limiter w) /\
  (forall c, c <> ch ->
     _processing_tasks (limiter (start_task ch w)) !! c = _processing_tasks (limiter w) !! c) /\
  futures (start_task ch w) = futures w /\ calls (start_task ch w) = calls w.
Proof.
  intros Hq Hb Hw. unfold start_task, _get_channel_queue. rewrite Hq.
  destruct (get_channel_lock_frame ch (limiter w))
    as (Lq & Lb & Lt & _ & _ & _ & _ & Lcw & _).
  cbv zeta in *. unfold _get_channel_bucket. rewrite Lb, Hb, Lcw.
  apply Qeq_bool_iff in Hw. rewrite Hw.
  unfold set_task. cbn. rewrite lookup_insert_eq, Lq.
  split; [reflexivity|]. split; [reflexivity|]. split; [|split; reflexivity].
  intros c Hne. rewrite lookup_insert_ne by congruence. now rewrite Lt.
Qed.

(** X12.  A zero [_channel_window] kills a new channel until [shutdown].
    With [_channel_window == 0] (and a positive [_max_queue_size] that fits
    a [Py_ssize_t]), the first [enqueue_send] on a channel that has no
    queue, bucket or drain task yet returns a future as usual; the drain
    task it starts ends at once with [ZeroDivisionError] (the refill rate of
    the new bucket is [_channel_rate_limit / _channel_window]).  Along every
    schedule of calls of [enqueue_send], runs of drain tasks, passing time,
    rate-limit responses, calls of [configure] (one that restores the window
    included) and runs of bypass tasks afterwards, the operation is not
    invoked and its future not resolved.  [shutdown], which clears the
    registry and so lets a later call start a new drain task, is not among
    these events. *)
Theorem X12_zero_window_kills_channel (ch : Z) (c : Op) (w : World) (evs : list event) :
  _enabled (limiter w) = true ->
  (0 < _max_queue_size (limiter w))%Z ->
  fits_ssize (_max_queue_size (limiter w)) ->
  _channel_window (limiter w) == 0 ->
  _channel_queues (limiter w) !! ch = None ->
  _channel_buckets (limiter w) !! ch = None ->
  _processing_tasks (limiter w) !! ch = None ->
  unreferenced (length (futures w)) w ->
  let fid := length (futures w) in
  let w1 := dispatch ch (snd (enqueue_send ch c w)) in
  fst (enqueue_send ch c w) = Returned (HFuture fid) /\
  _processing_tasks (limiter w1) !! ch = Some (TFailed ZeroDivisionError) /\
  _processing_tasks (limiter (run_events w1 evs)) !! ch = Some (TFailed ZeroDivisionError) /\
  calls_of ch (calls (run_events w1 evs)) = calls_of ch (calls w) /\
  futures (run_events w1 evs) !! fid = Some Pending.
Proof.
  intros Hen Hmax _ Hwin Hq Hb Ht [Uq Ut] fid w1.
  assert (deque_new (_max_queue_size (limiter w)) =
          Returned (mkDeque [] (Z.to_nat (_max_queue_size (limiter w))))) as Hnew.
  { unfold deque_new. destruct (Z.ltb_spec (_max_queue_size (limiter w)) 0); [lia|reflexivity]. }
  destruct (enqueue_send_enabled ch c w _ Hen (or_intror (conj Hq Hnew)))
    as (Hres & _ & Hc & _ & Eb & _ & _ & _ & Ew & _ & _ & Hcase).
  cbv zeta in Hcase. cbn [items length] in Hcase.
  destruct (Z.leb_spec (_max_queue_size (limiter w)) (Z.of_nat 0)) as [Hle|_]; [lia|].
  destruct Hcase as (Ef & Eq & Et & _). rewrite Ht in Et.
  set (we := snd (enqueue_send ch c w)) in *.
  set (item := mkItem c (Some (length (futures w))) (clock w)) in *.
  set (q1 := append item _) in Eq.
  assert (_channel_queues (limiter we) !! ch = Some q1) as Hq1
    by (rewrite Eq; apply lookup_insert_eq).
  assert (w1 = start_task ch we) as Ew1.
  { unfold w1, dispatch. rewrite Et, lookup_insert_eq. reflexivity. }
  destruct (start_task_zero_window ch we q1 Hq1) as (Hdead & Sq & St & Sf & Sc).
  { now rewrite Eb. }
  { now rewrite Ew. }
  rewrite <- Ew1 in Hdead, Sq, St, Sf, Sc.
  destruct (dead_task_run ch ZeroDivisionError evs w1 Hdead) as (Hfin & Hcalls & Hfut).
  split; [exact Hres|]. split; [exact Hdead|]. split; [exact Hfin|].
  split; [now rewrite Hcalls, Sc, Hc|].
  apply Hfut.
  - rewrite Sf, Ef. rewrite lookup_app_r by lia.
    now rewrite Nat.sub_diag.
  - split.
    + intros c1 q y Hne. rewrite Sq, Eq, lookup_insert_ne by congruence. apply Uq.
    + intros c1 t y Hne. rewrite (St c1 Hne), Et, lookup_insert_ne by congruence. apply Ut.
Qed.

(** ** Errors and side effects of the entry points *)

(** X13.  What [enqueue_send] returns, for a [_max_queue_size] that fits a
    [Py_ssize_t] (beyond, creating the queue raises [OverflowError]).  It
    raises only when the limiter is enabled, the channel has no queue yet
    and [_max_queue_size] is negative: the [ValueError] of
    [deque(maxlen=...)], after the future was made and with the limiter
    unchanged.  With limiting enabled it otherwise returns the new future,
    with limiting disabled the task of the bypass.  (With a queue already
    there, a negative [_max_queue_size] makes every call an overflow
    instead.) *)
Theorem X13_enqueue_send_result (ch : Z) (c : Op) (w : World) :
  fits_ssize (_max_queue_size (limiter w)) ->
  match fst (enqueue_send ch c w) with
  | Raised e =>
      e = ValueError "maxlen must be non-negative" /\
      _enabled (limiter w) = true /\
      _channel_queues (limiter w) !! ch = None /\
      (_max_queue_size (limiter w) < 0)%Z /\
      limiter (snd (enqueue_send ch c w)) = limiter w /\
      futures (snd (enqueue_send ch c w)) = futures w ++ [Pending]
  | Returned (HTask id) =>
      _enabled (limiter w) = false /\ id = length (created_tasks w)
  | Returned (HFuture id) =>
      _enabled (limiter w) = true /\ id = length (futures w) /\
      (_channel_queues (limiter w) !! ch = None -> (0 <= _max_queue_size (limiter w))%Z)
  end.
Proof.
  intros _.
  destruct (_enabled (limiter w)) eqn:Hen.
  2:{ unfold enqueue_send. rewrite Hen. cbn. split; reflexivity. }
  destruct (_channel_queues (limiter w) !! ch) as [q|] eqn:Eq.
  - destruct (enqueue_send_enabled ch c w q Hen (or_introl Eq)) as (-> & _).
    split; [reflexivity|]. split; [reflexivity | discriminate].
  - destruct (deque_new (_max_queue_size (limiter w))) as [q|e] eqn:En.
    + destruct (enqueue_send_enabled ch c w q Hen (or_intror (conj Eq En))) as (-> & _).
      split; [reflexivity|]. split; [reflexivity|]. intros _.
      unfold deque_new in En.
      destruct (Z.ltb_spec (_max_queue_size (limiter w)) 0); [discriminate | assumption].
    + unfold enqueue_send, _get_channel_queue. rewrite Hen, Eq, En. cbn.
      unfold deque_new in En.
      destruct (Z.ltb_spec (_max_queue_size (limiter w)) 0); [|discriminate].
      injection En as <-. repeat split; assumption.
Qed.

(** X14.  [handle_rate_limit_response] counts the hit before anything else,
    so also when it fails.  It raises only for a channel without a bucket
    under a zero [_channel_window] ([ZeroDivisionError] from creating the
    bucket); it has then made no bucket and does not sleep.  Otherwise it
    empties the bucket concerned, the channel's (created if need be) or the
    global one, puts its refill baseline at [now + retry_after], and sleeps
    [retry_after] when that is positive.  Queues, drain tasks, futures and
    invoked operations are never touched. *)
Theorem X14_rate_limit_response_effects (cho : option Z) (r : Q) (w : World) :
  let w' := snd (handle_rate_limit_response cho r w) in
  rate_limit_hits (_stats (limiter w')) = (rate_limit_hits (_stats (limiter w)) + 1)%Z /\
  _channel_queues (limiter w') = _channel_queues (limiter w) /\
  _processing_tasks (limiter w') = _processing_tasks (limiter w) /\
  futures w' = futures w /\ calls w' = calls w /\
  match fst (handle_rate_limit_response cho r w) with
  | Raised e =>
      e = ZeroDivisionError /\
      (exists ch, cho = Some ch /\ _channel_buckets (limiter w) !! ch = None) /\
      _channel_window (limiter w) == 0 /\
      clock w' = clock w /\
      _channel_buckets (limiter w') = _channel_buckets (limiter w) /\
      _global_bucket (limiter w') = _global_bucket (limiter w)
  | Returned _ =>
      clock w' = (if Qle_bool r 0 then clock w else clock w + r) /\
      match cho with
      | Some ch =>
          (exists b, _channel_buckets (limiter w') !! ch = Some b /\
                     tokens b = 0 /\ last_refill b = clock w + r) /\
          (forall c, c <> ch ->
             _channel_buckets (limiter w') !! c = _channel_buckets (limiter w) !! c) /\
          _global_bucket (limiter w') = _global_bucket (limiter w)
      | None =>
          tokens (_global_bucket (limiter w')) = 0 /\
          last_refill (_global_bucket (limiter w')) = clock w + r /\
          _channel_buckets (limiter w') = _channel_buckets (limiter w)
      end
  end.
Proof.
  cbv zeta. unfold handle_rate_limit_response, rate_limit_update.
  destruct cho as [ch|].
  - unfold _get_channel_bucket. cbn [_channel_buckets set_stats limiter].
    destruct (_channel_buckets (limiter w) !! ch) as [b|] eqn:Eb.
    + cbn [_channel_buckets set_stats]. rewrite Eb. cbn [fst snd].
      unfold sleep. destruct (Qle_bool r 0); cbn; rewrite lookup_insert_eq;
        (repeat split; [eexists; repeat split|]);
        intros c Hne; now rewrite lookup_insert_ne by congruence.
    + cbn [_channel_window _channel_rate_limit set_stats].
      destruct (Qeq_bool (_channel_window (limiter w)) 0) eqn:Ew.
      * cbn. repeat split. { now exists ch. } now apply Qeq_bool_iff.
      * cbn [_channel_buckets set_channel_buckets]. rewrite lookup_insert_eq. cbn [fst snd].
        unfold sleep. destruct (Qle_bool r 0); cbn; rewrite lookup_insert_eq;
          (repeat split; [eexists; repeat split|]);
          intros c Hne; now rewrite !lookup_insert_ne by congruence.
  - cbn [fst snd]. unfold sleep. destruct (Qle_bool r 0); cbn; repeat split.
Qed.

(** X15.  [get_channel_queue_size] is no pure observer.  For a channel that
    has a queue it returns its length and changes nothing.  For a channel
    without one it creates the queue: with a [_max_queue_size] that fits a
    [Py_ssize_t] (beyond, [deque] raises [OverflowError]) it returns 0, the
    [active_channels] of [get_stats] goes up by one, and the new queue has
    the [_max_queue_size] of that moment as its [maxlen]; with a negative
    one it raises the [ValueError] of [deque] and changes nothing. *)
Theorem X15_queue_size_creates_queue (ch : Z) (rl : RateLimiter) :
  fits_ssize (_max_queue_size rl) ->
  match get_channel_queue_size ch rl with
  | Returned (n, rl') =>
      (forall q, _channel_queues rl !! ch = Some q ->
                 n = length (items q) /\ rl' = rl) /\
      (_channel_queues rl !! ch = None ->
       n = 0%nat /\ (0 <= _max_queue_size rl)%Z /\
       _channel_queues rl' =
         <[ch := mkDeque [] (Z.to_nat (_max_queue_size rl))]> (_channel_queues rl) /\
       snd (get_stats rl') = S (snd (get_stats rl)) /\
       fst (fst (get_stats rl')) = fst (fst (get_stats rl)))
  | Raised e =>
      e = ValueError "maxlen must be non-negative" /\
      _channel_queues rl !! ch = None /\ (_max_queue_size rl < 0)%Z
  end.
Proof.
  intros _. unfold get_channel_queue_size, _get_channel_queue.
  destruct (_channel_queues rl !! ch) as [q|] eqn:Eq.
  - rewrite Eq. cbn. split; [|discriminate]. intros ? [= <-]. split; reflexivity.
  - unfold deque_new. destruct (Z.ltb_spec (_max_queue_size rl) 0) as [Hlt|Hge].
    + repeat split; assumption.
    + cbn. rewrite lookup_insert_eq. cbn. split; [discriminate|]. intros _.
      repeat split; [assumption|]. now rewrite map_size_insert_None.
Qed.

(** ** Futures are resolved once *)

Lemma resolve_done (f : nat) (s : outcome Val) (fo : option nat) (r : outcome Val)
    (fs : list FutureState) :
  fs !! f = Some (Done s) -> resolve fo r fs !! f = Some (Done s).
Proof.
  intros Hf. unfold resolve. destruct fo as [id|]; [|exact Hf].
  destruct (fs !! id) as [[|]|] eqn:Eid; try exact Hf.
  unfold set_done. rewrite list_lookup_insert_ne; [exact Hf|]. congruence.
Qed.

Lemma held_outcome_futures (item : QueuedItem) (qo : option deque) (cs : list Op)
    (fs : list FutureState) (v : view) :
  held_outcome item qo cs fs v -> snd v = fs.
Proof. intros Ho. inversion Ho; reflexivity. Qed.

Lemma top_outcome_futures (q : deque) (cs : list Op) (fs : list FutureState) (v : view) :
  top_outcome q cs fs v -> snd v = fs.
Proof.
  intros Ho. inversion Ho as [|item q' v' _ Hh]; subst; [reflexivity|].
  exact (held_outcome_futures _ _ _ _ _ Hh).
Qed.

Lemma drain_step_done (f : nat) (s : outcome Val) (v v' : view) :
  drain_step v v' -> snd v !! f = Some (Done s) -> snd v' !! f = Some (Done s).
Proof.
  intros Hstep.
  destruct Hstep as [v | qo t cs fs e | q t cs fs e Ht Hnil | q t cs fs v Ht Hnil Ho
                     | q t cs fs v Ht Ho | q item cs fs r v Ho | qo item cs fs r e
                     | qo t item cs fs v Hh Ho]; cbn [snd]; try (intros H; exact H).
  - rewrite (top_outcome_futures _ _ _ _ Ho). intros H; exact H.
  - rewrite (top_outcome_futures _ _ _ _ Ho). intros H; exact H.
  - rewrite (top_outcome_futures _ _ _ _ Ho). apply resolve_done.
  - apply resolve_done.
  - rewrite (held_outcome_futures _ _ _ _ _ Ho). intros H; exact H.
Qed.

(** [enqueue_send] only adds to the futures: nothing, or the new future. *)
Lemma enqueue_send_futures (ch : Z) (c : Op) (w : World) :
  exists x, futures (snd (enqueue_send ch c w)) = futures w ++ x /\ (length x <= 1)%nat.
Proof.
  unfold enqueue_send. destruct (negb (_enabled (limiter w))).
  - exists []. cbn. rewrite app_nil_r. split; [reflexivity | lia].
  - cbv zeta. destruct (_get_channel_queue ch (limiter w)) as [rl1|];
      [|eexists; split; [reflexivity | cbn; lia]].
    destruct (_channel_queues (_get_channel_lock ch rl1) !! ch);
      [|eexists; split; [reflexivity | cbn; lia]].
    destruct (_ <=? _)%Z; [|eexists; split; [reflexivity | cbn; lia]].
    exists [overflow_failure]. cbn. unfold set_done.
    rewrite insert_app_r_alt by lia. rewrite Nat.sub_diag. split; [reflexivity | lia].
Qed.

Lemma done_step (f : nat) (s : outcome Val) (w : World) (e : event) :
  futures w !! f = Some (Done s) -> futures (step w e) !! f = Some (Done s).
Proof.
  intros Hf.
  destruct e as [ch c | ch | d | cho r | a b c0 d e1 | id]; cbn [step].
  6:{ destruct (run_created_task_fields id w) as (_ & Hfu & _). cbv zeta in *.
      now rewrite Hfu. }
  - destruct (enqueue_send_futures ch c w) as (x & -> & _).
    rewrite lookup_app_l; [exact Hf|]. eapply lookup_lt_Some; exact Hf.
  - destruct (dispatch_spec ch w) as [Hd _].
    exact (drain_step_done f s _ _ Hd Hf).
  - unfold advance. destruct (Qle_bool 0 d); exact Hf.
  - destruct (rate_limit_update_fields cho r w) as (Ef & _). cbv zeta in Ef. now rewrite Ef.
  - exact Hf.
Qed.

(** X16.  A result is final: along every schedule, a future that has been
    resolved, with a value or with an exception (the overflow error
    included), keeps that outcome; [set_result] and [set_exception] never
    reach a future that is done. *)
Theorem X16_resolved_future_is_final (f : nat) (s : outcome Val) (evs : list event) :
  forall w : World,
    futures w !! f = Some (Done s) ->
    futures (run_events w evs) !! f = Some (Done s).
Proof.
  induction evs as [|e evs IH]; intros w Hf; [exact Hf|].
  cbn [run_events fold_left]. apply IH. now apply done_step.
Qed.

(** ** Channels do not touch each other's state *)

Lemma foreign_step (ch : Z) (w : World) (e : event) :
  foreign ch e ->
  _channel_queues (limiter (step w e)) !! ch = _channel_queues (limiter w) !! ch /\
  _processing_tasks (limiter (step w e)) !! ch = _processing_tasks (limiter w) !! ch /\
  _channel_buckets (limiter (step w e)) !! ch = _channel_buckets (limiter w) !! ch /\
  calls_of ch (calls (step w e)) = calls_of ch (calls w).
Proof.
  intros Hfor.
  destruct e as [c op | c | d | cho r | a b c0 d e1 | id]; cbn [step foreign] in *.
  6:{ destruct (run_created_task_fields id w) as (Hl & _ & _ & Hcl). cbv zeta in *.
      rewrite Hl, Hcl. repeat split. }
  - destruct (enqueue_send_keeps c op w) as (_ & -> & -> & _).
    destruct (enqueue_send_cases c op w) as [El | (q & _ & [[Eq Et] | [Eq Et]])];
      cbv zeta in *.
    + rewrite El. repeat split.
    + rewrite Eq, Et, lookup_insert_ne by exact Hfor. repeat split.
    + rewrite Eq, Et, lookup_insert_ne by exact Hfor.
      destruct (_processing_tasks (limiter w) !! c);
        rewrite ?lookup_insert_ne by exact Hfor; repeat split.
  - destruct (dispatch_spec c w) as [_ (_ & _ & Fo)].
    destruct (Fo ch (not_eq_sym Hfor)) as (Eq & Et & Ec).
    destruct (dispatch_trace c w) as (_ & Hb & _).
    rewrite (Hb ch (not_eq_sym Hfor)). repeat split; assumption.
  - unfold advance. destruct (Qle_bool 0 d); repeat split.
  - destruct (rate_limit_update_fields cho r w) as (_ & Ec & _ & Eq & Et & _).
    cbv zeta in *. rewrite Ec, Eq, Et. repeat split.
    destruct (_channel_buckets (limiter w) !! ch) as [b|] eqn:Eb.
    + destruct (rate_limit_update_buckets cho r w ch) as [Hne _].
      apply Hne; [|exact Eb]. destruct cho as [c|]; congruence.
    + unfold rate_limit_update. destruct cho as [c|]; [|exact Eb].
      unfold _get_channel_bucket. cbn [_channel_buckets set_stats limiter].
      destruct (_channel_buckets (limiter w) !! c) as [bc|] eqn:Ec'.
      * cbn. rewrite Ec'. cbn. now rewrite lookup_insert_ne by exact Hfor.
      * cbn [_channel_window _channel_rate_limit set_stats].
        destruct (Qeq_bool (_channel_window (limiter w)) 0); cbn; [exact Eb|].
        rewrite lookup_insert_eq. cbn. now rewrite !lookup_insert_ne by exact Hfor.
  - repeat split.
Qed.

(** X17.  The state of a channel is its own: calls, drain runs and
    rate-limit responses of other channels, global rate-limit responses,
    [configure], the passing of time and the tasks of the bypass change
    neither its queue, nor its drain task, nor its bucket, nor what was
    invoked for it. *)
Theorem X17_channel_state_is_isolated (ch : Z) (evs : list event) :
  forall w : World,
    Forall (foreign ch) evs ->
    _channel_queues (limiter (run_events w evs)) !! ch = _channel_queues (limiter w) !! ch /\
    _processing_tasks (limiter (run_events w evs)) !! ch =
      _processing_tasks (limiter w) !! ch /\
    _channel_buckets (limiter (run_events w evs)) !! ch =
      _channel_buckets (limiter w) !! ch /\
    calls_of ch (calls (run_events w evs)) = calls_of ch (calls w).
Proof.
  induction evs as [|e evs IH]; intros w Hfor; [repeat split|].
  inversion Hfor as [|? ? He Hrest]; subst.
  cbn [run_events fold_left].
  destruct (foreign_step ch w e He) as (E1 & E2 & E3 & E4).
  destruct (IH (step w e) Hrest) as (I1 & I2 & I3 & I4).
  rewrite <- E1, <- E2, <- E3, <- E4. repeat split; assumption.
Qed.

(** ** The audit path under load *)

(** One call on an audit bucket in working order. *)
Lemma audit_call_ready (c : Op) (w : World) :
  audit_ready w ->
  let b := _audit_log_bucket (limiter w) in
  let w' := snd (execute_with_audit_log_limit c w) in
  let b' := _audit_log_bucket (limiter w') in
  fst (execute_with_audit_log_limit c w) = run c /\
  calls w' = calls w ++ [(FromAudit, c)] /\
  audit_ready w' /\
  capacity b' = capacity b /\ refill_rate b' = refill_rate b /\
  clock w <= clock w' /\ clock w' <= clock w + 1 / refill_rate b /\
  forall T, 1 + potential b' T <= potential (snd (refill b (clock w))) T.
Proof.
  intros (Hen & Hinv & Hr & Hc & Hl). cbv zeta.
  set (b := _audit_log_bucket (limiter w)) in *.
  set (t := clock w) in *.
  assert (0 <= fst (refill b t)) as Ha0.
  { rewrite refill_available. destruct Hinv. apply refill_nonneg; lra. }
  pose proof (refill_le_capacity b t) as Hacap. rewrite <- refill_available in Hacap.
  (* the time at which the token is there *)
  assert (exists wt,
            wait_time b 1 t = (Returned wt, snd (refill b t)) /\
            0 <= wt /\ wt <= 1 / refill_rate b /\
            (Qle_bool wt 0 = true -> 1 <= fst (refill b t)) /\
            (Qle_bool wt 0 = false -> wt * refill_rate b == 1 - fst (refill b t)))
    as (wt & Ewt & Hwt0 & Hwt1 & Hz & Hp).
  { destruct (Qlt_le_dec (fst (refill b t)) 1) as [Hlt|Hle].
    - exists ((1 - fst (refill b t)) / refill_rate b).
      split; [apply wait_time_positive; [exact Hlt | lra]|].
      assert (0 < (1 - fst (refill b t)) / refill_rate b) as Hpos.
      { apply Qlt_shift_div_l; lra. }
      split; [lra|]. split; [|split].
      + apply Qle_shift_div_l; [exact Hr|].
        assert ((1 - fst (refill b t)) / refill_rate b * refill_rate b ==
                1 - fst (refill b t)) as -> by (field; lra).
        lra.
      + intros Hq. apply Qle_bool_iff in Hq. lra.
      + intros _. field. lra.
    - exists 0. split; [now apply wait_time_zero|]. split; [lra|]. split; [|split].
      + apply Qle_shift_div_l; [exact Hr | lra].
      + intros _. exact Hle.
      + intros Hq. discriminate. }
  unfold execute_with_audit_log_limit. rewrite Hen. cbn [negb].
  fold b. fold t. rewrite Ewt.
  cbn [limiter set_limiter _audit_log_bucket set_audit_log_bucket clock].
  set (b1 := snd (refill b t)) in *.
  set (w1 := set_limiter (set_audit_log_bucket b1 (limiter w)) w).
  set (w2 := if Qle_bool wt 0 then w1 else sleep wt w1).
  assert (limiter w2 = limiter w1 /\ calls w2 = calls w /\
          (clock w2 = t /\ Qle_bool wt 0 = true \/
           clock w2 = t + wt /\ Qle_bool wt 0 = false)) as (El2 & Ec2 & Ht2).
  { unfold w2, sleep. destruct (Qle_bool wt 0) eqn:E.
    - repeat split. now left.
    - repeat split. right. split; reflexivity. }
  rewrite El2. cbn [limiter w1 set_limiter _audit_log_bucket set_audit_log_bucket].
  assert (t <= clock w2 /\ clock w2 <= t + 1 / refill_rate b /\
          1 <= fst (refill b1 (clock w2))) as (Hlo & Hhi & Hok).
  { assert (1 <= tokens b1 + (clock w2 - last_refill b1) * refill_rate b1) as Hpot.
    { change (last_refill b1) with t. change (refill_rate b1) with (refill_rate b).
      change (tokens b1) with (fst (refill b t)).
      destruct Ht2 as [[-> Hq] | [-> Hq]].
      - specialize (Hz Hq). assert ((t - t) * refill_rate b == 0) as -> by ring. lra.
      - specialize (Hp Hq).
        assert ((t + wt - t) * refill_rate b == wt * refill_rate b) as -> by ring. lra. }
    split; [|split].
    - destruct Ht2 as [[-> _] | [-> _]]; lra.
    - destruct Ht2 as [[-> _] | [-> _]]; [|lra].
      assert (0 <= 1 / refill_rate b) by (apply Qle_shift_div_l; lra). lra.
    - cbn -[Qmin]. apply Q.min_glb; [exact Hc | exact Hpot]. }
  rewrite (consume_true b1 1 (clock w2) Hok).
  rewrite refill_available in Hok.
  pose proof (refill_le_capacity b1 (clock w2)) as Hcap2.
  pose proof (refill_potential b1 (clock w2)) as Hpot2.
  assert (capacity (snd (refill b1 (clock w2))) = capacity b) as Ecap by reflexivity.
  assert (refill_rate (snd (refill b1 (clock w2))) = refill_rate b) as Erate by reflexivity.
  assert (last_refill (snd (refill b1 (clock w2))) = clock w2) as Elast by reflexivity.
  change (capacity b1) with (capacity b) in Hcap2.
  set (b2 := snd (refill b1 (clock w2))) in *. clearbody b2.
  unfold audit_ready, set_tokens.
  cbn [fst snd limiter set_limiter _audit_log_bucket set_audit_log_bucket calls set_calls
       clock _enabled tokens capacity refill_rate last_refill].
  split; [reflexivity|]. split; [now rewrite Ec2|].
  split; [|split; [exact Ecap|split; [exact Erate|split; [exact Hlo|split; [exact Hhi|]]]]].
  - rewrite ?El2. split; [exact Hen|]. rewrite Ecap, Erate, Elast.
    split; [split; cbn; lra|]. split; [exact Hr|]. split; [exact Hc | lra].
  - intros T. specialize (Hpot2 T). unfold potential in *.
    cbn [tokens capacity refill_rate last_refill] in *. lra.
Qed.

Lemma audit_ready_advance (d : Q) (w : World) :
  audit_ready w ->
  audit_ready (advance d w) /\
  _audit_log_bucket (limiter (advance d w)) = _audit_log_bucket (limiter w) /\
  calls (advance d w) = calls w /\
  clock w <= clock (advance d w) /\ clock (advance d w) <= clock w + Qmax 0 d.
Proof.
  intros (Hen & Hinv & Hr & Hc & Hl). unfold advance.
  destruct (Qle_bool 0 d) eqn:E.
  - apply Qle_bool_iff in E. rewrite Q.max_r by exact E.
    unfold audit_ready. cbn. repeat split; try assumption; try lra; apply Hinv.
  - pose proof (Q.le_max_l 0 d).
    unfold audit_ready. repeat split; try assumption; try lra; apply Hinv.
Qed.

Lemma audit_calls_ready (cs : list (Q * Op)) :
  forall w : World,
    audit_ready w ->
    let b := _audit_log_bucket (limiter w) in
    let w' := snd (audit_calls cs w) in
    let b' := _audit_log_bucket (limiter w') in
    fst (audit_calls cs w) = map (fun dc => run (snd dc)) cs /\
    calls w' = calls w ++ map (fun dc => (FromAudit, snd dc)) cs /\
    audit_ready w' /\ refill_rate b' = refill_rate b /\
    clock w <= clock w' /\
    clock w' <= clock w + idle_time cs + inject_Z (Z.of_nat (length cs)) / refill_rate b /\
    (forall T, inject_Z (Z.of_nat (length cs)) + potential b' T <= potential b T) /\
    inject_Z (Z.of_nat (length cs)) <= capacity b + (clock w' - clock w) * refill_rate b.
Proof.
  induction cs as [|[d c] cs IH]; intros w Hready; cbv zeta.
  - cbn [audit_calls fst snd map length idle_time]. rewrite app_nil_r.
    split; [reflexivity|]. split; [reflexivity|]. split; [exact Hready|].
    split; [reflexivity|]. split; [lra|].
    destruct Hready as (_ & Hinv & Hr & Hc1 & _).
    assert (inject_Z (Z.of_nat 0) / refill_rate (_audit_log_bucket (limiter w)) == 0) as E
      by (cbn; field; lra).
    change (inject_Z (Z.of_nat 0)) with 0 in *.
    split; [rewrite E; lra|]. split; [intros T; lra|].
    assert ((clock w - clock w) * refill_rate (_audit_log_bucket (limiter w)) == 0) as ->
      by ring.
    lra.
  - cbn [audit_calls].
    destruct (audit_ready_advance d w Hready) as (Hra & Eb & Eca & Hlo & Hhi).
    destruct (audit_call_ready c (advance d w) Hra)
      as (Hres & Hcalls & Hr1 & _ & Erate & Hlo1 & Hhi1 & Hpot1).
    cbv zeta in *.
    destruct (execute_with_audit_log_limit c (advance d w)) as [r w1] eqn:E1.
    cbn [fst snd] in *.
    destruct (IH w1 Hr1) as (Hres2 & Hcalls2 & Hr2 & Erate2 & Hlo2 & Hhi2 & Hpot2 & _).
    cbv zeta in *.
    destruct (audit_calls cs w1) as [rs w2] eqn:E2. cbn [fst snd] in *.
    rewrite Eb in *.
    set (b := _audit_log_bucket (limiter w)) in *.
    assert (0 < refill_rate b) as Hr by (destruct Hready as (_ & _ & H & _); exact H).
    split; [cbn [map snd]; now rewrite Hres, Hres2|].
    split; [rewrite Hcalls2, Hcalls, Eca; cbn [map snd]; now rewrite <- app_assoc|].
    split; [exact Hr2|]. split; [congruence|]. split; [lra|].
    assert (inject_Z (Z.of_nat (length ((d, c) :: cs))) ==
            1 + inject_Z (Z.of_nat (length cs))) as Elen.
    { cbn [length]. rewrite Nat2Z.inj_succ, <- Z.add_1_l, inject_Z_plus. reflexivity. }
    split.
    + cbn [idle_time]. rewrite Elen. rewrite Erate in Hhi2.
      assert ((1 + inject_Z (Z.of_nat (length cs))) / refill_rate b ==
              1 / refill_rate b + inject_Z (Z.of_nat (length cs)) / refill_rate b) as ->
        by (field; lra).
      lra.
    + split.
      * intros T. rewrite Elen. specialize (Hpot1 T). specialize (Hpot2 T).
        pose proof (refill_potential b (clock (advance d w)) T). lra.
      * rewrite Elen. specialize (Hpot1 (clock w2)). specialize (Hpot2 (clock w2)).
        destruct Hr2 as (_ & [Ht2 _] & _ & _ & Hl2).
        set (b2 := _audit_log_bucket (limiter w2)) in *.
        assert (0 <= potential b2 (clock w2)) as Hfin.
        { unfold potential. rewrite Erate2, Erate.
          assert (0 <= (clock w2 - last_refill b2) * refill_rate b)
            by (apply Qmult_le_0_compat; lra).
          lra. }
        pose proof (refill_le_capacity b (clock (advance d w))) as Hcap.
        unfold potential in Hpot1 at 2. cbn -[Qmin refill] in Hpot1.
        change (last_refill (snd (refill b (clock (advance d w)))))
          with (clock (advance d w)) in Hpot1.
        change (refill_rate (snd (refill b (clock (advance d w)))))
          with (refill_rate b) in Hpot1.
        assert ((clock w2 - clock w) * refill_rate b ==
                (clock w2 - clock (advance d w)) * refill_rate b +
                (clock (advance d w) - clock w) * refill_rate b) as -> by ring.
        assert (0 <= (clock (advance d w) - clock w) * refill_rate b)
          by (apply Qmult_le_0_compat; lra).
        lra.
Qed.

(** X19.  The audit limit under load.  On an audit bucket in working order,
    callers served one after the other all get their operation run, in the
    order of service, and its outcome returned; their number is at most
    [capacity + rate * elapsed time], and each of them is held back for at
    most [1 / rate] seconds. *)
Theorem X19_audit_calls_are_paced (cs : list (Q * Op)) (w : World) :
  audit_ready w ->
  let b := _audit_log_bucket (limiter w) in
  let w' := snd (audit_calls cs w) in
  fst (audit_calls cs w) = map (fun dc => run (snd dc)) cs /\
  calls w' = calls w ++ map (fun dc => (FromAudit, snd dc)) cs /\
  inject_Z (Z.of_nat (length cs)) <= capacity b + (clock w' - clock w) * refill_rate b /\
  clock w' <= clock w + idle_time cs + inject_Z (Z.of_nat (length cs)) / refill_rate b.
Proof.
  intros Hready. cbv zeta.
  destruct (audit_calls_ready cs w Hready) as (Hres & Hcalls & _ & _ & _ & Hhi & _ & Hrate).
  cbv zeta in *. repeat split; assumption.
Qed.

(** ** The counters *)

Lemma get_channel_queue_stats (ch : Z) (rl rl' : RateLimiter) :
  _get_channel_queue ch rl = Returned rl' -> _stats rl' = _stats rl.
Proof.
  unfold _get_channel_queue. destruct (_channel_queues rl !! ch); [now intros [= <-]|].
  destruct (deque_new (_max_queue_size rl)); [now intros [= <-] | discriminate].
Qed.

Lemma get_channel_bucket_stats (ch : Z) (now : Q) (rl rl' : RateLimiter) :
  _get_channel_bucket ch now rl = Returned rl' -> _stats rl' = _stats rl.
Proof.
  unfold _get_channel_bucket. destruct (_channel_buckets rl !! ch); [now intros [= <-]|].
  destruct (Qeq_bool (_channel_window rl) 0); [discriminate | now intros [= <-]].
Qed.

Ltac stats_tac :=
  repeat (cbn -[wait_time consume appendleft popleft Qle_bool];
    match goal with
    | |- context [match ?x with _ => _ end] => destruct x eqn:?
    | |- context [if ?x then _ else _] => destruct x eqn:?
    | |- context [let '(_, _) := ?x in _] => destruct x eqn:?
    end);
  cbn -[wait_time consume appendleft popleft Qle_bool].

Lemma consume_phase_stats (ch : Z) (item : QueuedItem) (w : World) :
  _stats (limiter (consume_phase ch item w)) = _stats (limiter w).
Proof. unfold consume_phase. stats_tac; reflexivity. Qed.

Lemma channel_phase_stats (ch : Z) (item : QueuedItem) (w : World) :
  _stats (limiter (channel_phase ch item w)) = _stats (limiter w).
Proof. unfold channel_phase. stats_tac; rewrite ?consume_phase_stats; reflexivity. Qed.

Lemma after_global_wait_stats (ch : Z) (item : QueuedItem) (w : World) :
  _stats (limiter (after_global_wait ch item w)) = _stats (limiter w).
Proof. unfold after_global_wait. stats_tac; rewrite ?channel_phase_stats; reflexivity. Qed.

Lemma global_phase_stats (ch : Z) (item : QueuedItem) (w : World) :
  _stats (limiter (global_phase ch item w)) = _stats (limiter w).
Proof. unfold global_phase. stats_tac; rewrite ?after_global_wait_stats; reflexivity. Qed.

Lemma loop_top_stats (ch : Z) (w : World) :
  _stats (limiter (loop_top ch w)) = _stats (limiter w).
Proof. unfold loop_top. stats_tac; rewrite ?global_phase_stats; reflexivity. Qed.

Lemma start_task_stats (ch : Z) (w : World) :
  _stats (limiter (start_task ch w)) = _stats (limiter w).
Proof.
  unfold start_task.
  destruct (_get_channel_queue ch (limiter w)) as [rl1|] eqn:E1; [|reflexivity].
  apply get_channel_queue_stats in E1.
  destruct (get_channel_lock_frame ch rl1) as (_ & _ & _ & _ & _ & _ & _ & _ & _ & _ & E2).
  cbv zeta in E2.
  destruct (_get_channel_bucket ch (clock w) (_get_channel_lock ch rl1)) as [rl3|] eqn:E3.
  - apply get_channel_bucket_stats in E3. rewrite loop_top_stats. cbn. congruence.
  - cbn. congruence.
Qed.

(** A drain run changes no counter but [messages_sent], which it may raise
    by one. *)
Lemma dispatch_stats (ch : Z) (w : World) :
  rate_limit_hits (_stats (limiter (dispatch ch w))) = rate_limit_hits (_stats (limiter w)) /\
  messages_queued (_stats (limiter (dispatch ch w))) = messages_queued (_stats (limiter w)) /\
  queue_overflows (_stats (limiter (dispatch ch w))) = queue_overflows (_stats (limiter w)) /\
  (messages_sent (_stats (limiter w)) <= messages_sent (_stats (limiter (dispatch ch w))))%Z.
Proof.
  unfold dispatch.
  destruct (_processing_tasks (limiter w) !! ch) as [[|item|item wake|item wake|item|wake|e]|];
    try destruct (Qle_bool wake (clock w));
    rewrite ?start_task_stats, ?global_phase_stats, ?after_global_wait_stats,
      ?consume_phase_stats, ?loop_top_stats; try (repeat split; lia).
  unfold complete. destruct (run (coro item)) as [v|e0]; [|destruct (is_exception e0)];
    cbn iota; rewrite ?loop_top_stats; cbn; repeat split; lia.
Qed.

Lemma resolve_length (fo : option nat) (r : outcome Val) (fs : list FutureState) :
  length (resolve fo r fs) = length fs.
Proof.
  unfold resolve. destruct fo as [id|]; [|reflexivity].
  destruct (fs !! id) as [[|]|]; try reflexivity. unfold set_done. apply length_insert.
Qed.

Lemma drain_step_length (v v' : view) :
  drain_step v v' -> length (snd v') = length (snd v).
Proof.
  intros Hstep.
  destruct Hstep as [v | qo t cs fs e | q t cs fs e Ht Hnil | q t cs fs v Ht Hnil Ho
                     | q t cs fs v Ht Ho | q item cs fs r v Ho | qo item cs fs r e
                     | qo t item cs fs v Hh Ho]; cbn [snd]; try reflexivity.
  - now rewrite (top_outcome_futures _ _ _ _ Ho).
  - now rewrite (top_outcome_futures _ _ _ _ Ho).
  - rewrite (top_outcome_futures _ _ _ _ Ho). apply resolve_length.
  - apply resolve_length.
  - now rewrite (held_outcome_futures _ _ _ _ _ Ho).
Qed.

Lemma counters_step (w : World) (e : event) :
  _enabled (limiter w) = true -> (0 <= _max_queue_size (limiter w))%Z ->
  keeps_admission e ->
  let st := _stats (limiter w) in
  let st' := _stats (limiter (step w e)) in
  _enabled (limiter (step w e)) = true /\
  _max_queue_size (limiter (step w e)) = _max_queue_size (limiter w) /\
  (messages_queued st' + queue_overflows st' =
     messages_queued st + queue_overflows st + Z.of_nat (enqueues [e]))%Z /\
  length (futures (step w e)) = (length (futures w) + enqueues [e])%nat /\
  rate_limit_hits st' = (rate_limit_hits st + Z.of_nat (responses [e]))%Z /\
  (messages_sent st <= messages_sent st')%Z.
Proof.
  intros Hen Hmax Hkeep. cbv zeta.
  destruct e as [ch c | ch | d | cho r | a b c0 d e1 | id]; cbn [step enqueues responses].
  6:{ destruct (run_created_task_fields id w) as (Hl & Hfu & _). cbv zeta in *.
      rewrite Hl, Hfu. repeat split; try assumption; lia. }
  - assert (exists q, _channel_queues (limiter w) !! ch = Some q \/
                      _channel_queues (limiter w) !! ch = None /\
                      deque_new (_max_queue_size (limiter w)) = Returned q) as [q Hq].
    { destruct (_channel_queues (limiter w) !! ch) as [q|]; [exists q; now left|].
      unfold deque_new. destruct (Z.ltb_spec (_max_queue_size (limiter w)) 0); [lia|].
      eexists. right. split; reflexivity. }
    destruct (enqueue_send_enabled ch c w q Hen Hq)
      as (_ & _ & _ & _ & _ & _ & _ & _ & _ & Em & Een & Hcase).
    cbv zeta in *. split; [exact Een|]. split; [exact Em|].
    destruct (_ <=? _)%Z; destruct Hcase as (Ef & _ & _ & Es); rewrite Ef, Es, length_app;
      cbn; repeat split; lia.
  - destruct (dispatch_spec ch w) as [Hd (Een & Em & _)].
    destruct (dispatch_stats ch w) as (S1 & S2 & S3 & S4).
    split; [congruence|]. split; [exact Em|]. rewrite S1, S2, S3.
    split; [cbn; lia|]. split; [|split; [cbn; lia | exact S4]].
    cbn. rewrite Nat.add_0_r. exact (drain_step_length _ _ Hd).
  - unfold advance. destruct (Qle_bool 0 d); cbn; repeat split; try assumption; lia.
  - destruct (rate_limit_update_fields cho r w) as (Ef & _ & _ & _ & _ & Een & Em).
    cbv zeta in *. split; [congruence|]. split; [exact Em|]. rewrite Ef.
    unfold rate_limit_update. destruct cho as [ch|].
    + unfold _get_channel_bucket. cbn [_channel_buckets set_stats limiter].
      destruct (_channel_buckets (limiter w) !! ch) as [b|] eqn:Eb.
      * cbn. rewrite Eb. cbn. repeat split; lia.
      * cbn [_channel_window _channel_rate_limit set_stats].
        destruct (Qeq_bool (_channel_window (limiter w)) 0); cbn; [repeat split; lia|].
        rewrite lookup_insert_eq. cbn. repeat split; lia.
    + cbn. repeat split; lia.
  - cbn in Hkeep. destruct Hkeep as [-> ->]. cbn. repeat split; try assumption; lia.
Qed.

(** X18.  The counters account for the calls.  While limiting stays enabled
    and [_max_queue_size] stays as it is, not negative, every call of
    [enqueue_send] makes one future and is counted once, in
    [messages_queued] or in [queue_overflows]; every call of
    [handle_rate_limit_response] is counted once in [rate_limit_hits];
    [messages_sent] never goes down. *)
Theorem X18_counters_account_for_calls (evs : list event) :
  forall w : World,
    _enabled (limiter w) = true -> (0 <= _max_queue_size (limiter w))%Z ->
    Forall keeps_admission evs ->
    let st := _stats (limiter w) in
    let st' := _stats (limiter (run_events w evs)) in
    (messages_queued st' + queue_overflows st' =
       messages_queued st + queue_overflows st + Z.of_nat (enqueues evs))%Z /\
    length (futures (run_events w evs)) = (length (futures w) + enqueues evs)%nat /\
    rate_limit_hits st' = (rate_limit_hits st + Z.of_nat (responses evs))%Z /\
    (messages_sent st <= messages_sent st')%Z.
Proof.
  induction evs as [|e evs IH]; intros w Hen Hmax Hkeep; cbv zeta.
  - cbn. repeat split; lia.
  - inversion Hkeep as [|? ? He Hrest]; subst.
    cbn [run_events fold_left].
    destruct (counters_step w e Hen Hmax He) as (Hen' & Hmax' & S1 & S2 & S3 & S4).
    cbv zeta in *.
    destruct (IH (step w e) Hen' ltac:(lia) Hrest) as (I1 & I2 & I3 & I4).
    cbv zeta in *. fold (run_events (step w e) evs) in *.
    assert (enqueues (e :: evs) = (enqueues [e] + enqueues evs)%nat) as ->
      by (destruct e; reflexivity).
    assert (responses (e :: evs) = (responses [e] + responses evs)%nat) as ->
      by (destruct e; reflexivity).
    repeat split; lia.
Qed.

(** A limiter without queues and drain tasks, as [__init__] leaves it. *)
Lemma fresh_limiter_in_order (w : World) :
  _channel_queues (limiter w) = ∅ -> _processing_tasks (limiter w) = ∅ ->
  queues_ok w /\ forall f, unreferenced f w.
Proof.
  intros Eq Et. split.
  - intros ch q. unfold view_of. rewrite Eq, lookup_empty. discriminate.
  - intros f. split.
    + intros ch q item. rewrite Eq, lookup_empty. discriminate.
    + intros ch t item. rewrite Et, lookup_empty. discriminate.
Qed.

(** ** [_send_spacing] is never read *)

Ltac spacing_norm :=
  cbn [set_limiter configure limiter clock futures created_tasks calls
       set_clock set_futures set_created_tasks set_calls
       _channel_queues _channel_locks _channel_buckets _processing_tasks _global_bucket
       _global_lock _audit_log_bucket _audit_log_lock _channel_rate_limit _channel_window
       _send_spacing _max_queue_size _enabled _stats
       set_channel_queues set_channel_locks set_channel_buckets set_processing_tasks
       set_global_bucket set_global_lock set_audit_log_bucket set_audit_log_lock set_stats
       set_task finish_task put_channel_bucket put_channel_queue put_global_bucket
       put_global_lock default from_option id fst snd negb].

Ltac spacing_cases :=
  spacing_norm;
  repeat (match goal with
          | |- context [match ?x with _ => _ end] =>
              lazymatch x with
              | context [match _ with _ => _ end] => fail
              | _ => destruct x
              end
          end; spacing_norm).

Ltac spacing_start w :=
  intros [? ->]; destruct w as [k [q l b t g gl a al rl cw sp m en st] fs ct cl];
  unfold spacing_apart.

Ltac spacing_leaf := eexists; reflexivity.

Lemma consume_phase_spacing (ch : Z) (item : QueuedItem) (w w' : World) :
  spacing_apart w w' -> spacing_apart (consume_phase ch item w) (consume_phase ch item w').
Proof. spacing_start w. unfold consume_phase. spacing_cases; spacing_leaf. Qed.

Lemma channel_phase_spacing (ch : Z) (item : QueuedItem) (w w' : World) :
  spacing_apart w w' -> spacing_apart (channel_phase ch item w) (channel_phase ch item w').
Proof.
  spacing_start w. unfold channel_phase. spacing_cases; try spacing_leaf.
  apply consume_phase_spacing. spacing_leaf.
Qed.

Lemma after_global_wait_spacing (ch : Z) (item : QueuedItem) (w w' : World) :
  spacing_apart w w' ->
  spacing_apart (after_global_wait ch item w) (after_global_wait ch item w').
Proof.
  spacing_start w. unfold after_global_wait. spacing_cases.
  apply channel_phase_spacing. spacing_leaf.
Qed.

Lemma global_phase_spacing (ch : Z) (item : QueuedItem) (w w' : World) :
  spacing_apart w w' -> spacing_apart (global_phase ch item w) (global_phase ch item w').
Proof.
  spacing_start w. unfold global_phase. spacing_cases; try spacing_leaf.
  apply after_global_wait_spacing. spacing_leaf.
Qed.

Lemma loop_top_spacing (ch : Z) (w w' : World) :
  spacing_apart w w' -> spacing_apart (loop_top ch w) (loop_top ch w').
Proof.
  spacing_start w. unfold loop_top. spacing_cases; try spacing_leaf.
  apply global_phase_spacing. spacing_leaf.
Qed.

Lemma start_task_spacing (ch : Z) (w w' : World) :
  spacing_apart w w' -> spacing_apart (start_task ch w) (start_task ch w').
Proof.
  spacing_start w.
  unfold start_task, _get_channel_queue, _get_channel_lock, _get_channel_bucket, deque_new.
  spacing_cases; try spacing_leaf; try congruence;
    apply loop_top_spacing; spacing_leaf.
Qed.

Lemma complete_spacing (ch : Z) (item : QueuedItem) (w w' : World) :
  spacing_apart w w' ->
  match complete ch item w, complete ch item w' with
  | Returned w1, Returned w1' => spacing_apart w1 w1'
  | Raised e, Raised e' => e = e'
  | _, _ => False
  end.
Proof. spacing_start w. unfold complete. spacing_cases; try spacing_leaf; reflexivity. Qed.

Lemma set_task_spacing (ch : Z) (t0 : Task) (w w' : World) :
  spacing_apart w w' -> spacing_apart (set_task ch t0 w) (set_task ch t0 w').
Proof. spacing_start w. spacing_norm. spacing_leaf. Qed.

Lemma dispatch_spacing (ch : Z) (w w' : World) :
  spacing_apart w w' -> spacing_apart (dispatch ch w) (dispatch ch w').
Proof.
  intros H. pose proof H as [s ->]. unfold dispatch.
  cbn [limiter set_limiter configure _processing_tasks clock].
  destruct (_processing_tasks (limiter w) !! ch) as [[|item|item wake|item wake|item|wake|e]|];
    try destruct (Qle_bool wake (clock w)); try exact H.
  - now apply start_task_spacing.
  - now apply global_phase_spacing.
  - now apply after_global_wait_spacing.
  - now apply consume_phase_spacing.
  - pose proof (complete_spacing ch item w _ H) as Hc.
    destruct (complete ch item w) as [w1|e1],
             (complete ch item (set_limiter (configure None None (Some s) None None (limiter w)) w))
               as [w1'|e1']; try contradiction.
    + now apply loop_top_spacing.
    + subst e1'. now apply set_task_spacing.
  - now apply loop_top_spacing.
Qed.

Lemma enqueue_send_spacing (ch : Z) (op : Op) (w w' : World) :
  spacing_apart w w' ->
  fst (enqueue_send ch op w') = fst (enqueue_send ch op w) /\
  spacing_apart (snd (enqueue_send ch op w)) (snd (enqueue_send ch op w')).
Proof.
  spacing_start w.
  unfold enqueue_send, _get_channel_queue, _get_channel_lock, deque_new.
  spacing_cases; try congruence; (split; [reflexivity | spacing_leaf]).
Qed.

Lemma rate_limit_update_spacing (cho : option Z) (r : Q) (w w' : World) :
  spacing_apart w w' ->
  fst (rate_limit_update cho r w') = fst (rate_limit_update cho r w) /\
  spacing_apart (snd (rate_limit_update cho r w)) (snd (rate_limit_update cho r w')).
Proof.
  spacing_start w.
  unfold rate_limit_update, _get_channel_bucket.
  spacing_cases; try congruence; (split; [reflexivity | spacing_leaf]).
Qed.

Lemma step_spacing (e : event) (w w' : World) :
  spacing_apart w w' -> spacing_apart (step w e) (step w' e).
Proof.
  intros H. destruct e as [ch c | ch | d | cho r | a b c0 d e1 | id]; cbn [step].
  6:{ destruct H as [s ->]. unfold run_created_task. cbn [created_tasks set_limiter].
      destruct (created_tasks w !! id) as [[c [|r]]|]; eexists; reflexivity. }
  - now apply enqueue_send_spacing.
  - now apply dispatch_spacing.
  - destruct H as [s ->]. unfold advance. cbn [clock set_limiter].
    destruct (Qle_bool 0 d); eexists; reflexivity.
  - now apply rate_limit_update_spacing.
  - destruct H as [s ->]. destruct w as [k [q l bs t g gl au al rl cw sp m en st] fs ct cl].
    destruct c0; eexists; reflexivity.
Qed.

Lemma audit_spacing (c : Op) (w w' : World) :
  spacing_apart w w' ->
  fst (execute_with_audit_log_limit c w') = fst (execute_with_audit_log_limit c w) /\
  spacing_apart (snd (execute_with_audit_log_limit c w))
                (snd (execute_with_audit_log_limit c w')).
Proof.
  spacing_start w. unfold execute_with_audit_log_limit, sleep.
  spacing_cases; (split; [reflexivity | spacing_leaf]).
Qed.

Lemma run_spacing (evs : list event) :
  forall w w' : World,
    spacing_apart w w' -> spacing_apart (run_events w evs) (run_events w' evs).
Proof.
  induction evs as [|e evs IH]; intros w w' H; [exact H|].
  cbn [run_events fold_left]. apply IH. now apply step_spacing.
Qed.

(** X21.  [_send_spacing] changes nothing.  [configure(send_spacing=...)]
    stores a value that no other code reads: along every schedule, two
    limiters that differ only in it invoke the same operations at the same
    times, resolve the same futures, and keep the same queues, drain tasks,
    buckets and counters; an audit fetch afterwards returns the same
    outcome. *)
Theorem X21_send_spacing_is_unused (s : Q) (evs : list event) (w : World) (c : Op) :
  let w1 := run_events w evs in
  let w2 := run_events
              (set_limiter (configure None None (Some s) None None (limiter w)) w) evs in
  clock w2 = clock w1 /\ calls w2 = calls w1 /\ futures w2 = futures w1 /\
  created_tasks w2 = created_tasks w1 /\
  _channel_queues (limiter w2) = _channel_queues (limiter w1) /\
  _processing_tasks (limiter w2) = _processing_tasks (limiter w1) /\
  _channel_buckets (limiter w2) = _channel_buckets (limiter w1) /\
  _global_bucket (limiter w2) = _global_bucket (limiter w1) /\
  _audit_log_bucket (limiter w2) = _audit_log_bucket (limiter w1) /\
  _stats (limiter w2) = _stats (limiter w1) /\
  fst (execute_with_audit_log_limit c w2) = fst (execute_with_audit_log_limit c w1) /\
  clock (snd (execute_with_audit_log_limit c w2)) =
    clock (snd (execute_with_audit_log_limit c w1)).
Proof.
  cbv zeta.
  assert (spacing_apart (run_events w evs)
            (run_events (set_limiter (configure None None (Some s) None None (limiter w)) w)
               evs)) as H
    by (apply run_spacing; eexists; reflexivity).
  destruct (audit_spacing c _ _ H) as [Er [s2 E2]]. rewrite Er, E2.
  destruct H as [s1 ->]. repeat split.
Qed.

(** ** Every caller gets the outcome of its own operation *)

(** A drain run brings no new item into its channel. *)
Lemma held_outcome_items (item : QueuedItem) (q : deque) (cs : list Op)
    (fs : list FutureState) (v : view) (x : QueuedItem) :
  held_outcome item (Some q) cs fs v -> view_items v x -> x = item \/ In x (items q).
Proof.
  intros Ho. inversion Ho; subst; cbn -[appendleft].
  1-4,6: intros [(q0 & [= <-] & Hin) | (t0 & [= <-] & Ht)];
    [now right | cbn in Ht; try discriminate; injection Ht as <-; now left].
  match goal with H : Some _ = Some _ |- _ => injection H as <- end.
  intros [(q0 & [= <-] & Hin) | (t0 & [= <-] & Ht)]; [|discriminate].
  apply in_appendleft in Hin. destruct Hin as [->|Hin]; [now left | now right].
Qed.

Lemma top_outcome_items (q : deque) (cs : list Op) (fs : list FutureState) (v : view)
    (x : QueuedItem) :
  top_outcome q cs fs v -> view_items v x -> In x (items q).
Proof.
  intros Ho. inversion Ho as [Hnil | item q' v' Hpop Hheld]; subst.
  - cbn. intros [(q0 & [= <-] & Hin) | (t0 & [=] & _)]. exact Hin.
  - unfold popleft in Hpop. destruct (items q) as [|y rest] eqn:Ei; [discriminate|].
    injection Hpop as <- <-. intros Hx.
    destruct (held_outcome_items _ _ _ _ _ x Hheld Hx) as [->|Hin]; [now left | now right].
Qed.

Lemma drain_step_items (v v' : view) (x : QueuedItem) :
  drain_step v v' -> view_items v' x -> view_items v x.
Proof.
  intros Hstep.
  destruct Hstep as [v | qo t cs fs e | q t cs fs e Ht Hnil | q t cs fs v Ht Hnil Ho
                     | q t cs fs v Ht Ho | q item cs fs r v Ho | qo item cs fs r e
                     | qo t item cs fs v Hh Ho].
  - tauto.
  - cbn. intros [H | (t0 & [= <-] & Hx)]; [now left | discriminate].
  - cbn. intros [(q0 & [= <-] & Hin) | (t0 & [= <-] & Hx)]; [|discriminate].
    rewrite Hnil in Hin. contradiction.
  - intros Hx. apply (top_outcome_items _ _ _ _ x Ho) in Hx. rewrite Hnil in Hx.
    contradiction.
  - intros Hx. apply (top_outcome_items _ _ _ _ x Ho) in Hx. left. eauto.
  - intros Hx. apply (top_outcome_items _ _ _ _ x Ho) in Hx. left. eauto.
  - cbn. intros [H | (t0 & [= <-] & Hx)]; [now left | discriminate].
  - destruct qo as [q|].
    + intros Hx. destruct (held_outcome_items _ _ _ _ _ x Ho Hx) as [->|Hin].
      * right. exists t. split; [reflexivity|].
        destruct t; cbn in *; try discriminate; exact Hh.
      * left. eauto.
    + inversion Ho; subst; cbn; try discriminate;
        intros [(q0 & [=] & _) | (t0 & [= <-] & Hx)]; cbn in Hx; try discriminate;
        injection Hx as <-; right; exists t; (split; [reflexivity|]);
        destruct t; cbn in *; try discriminate; exact Hh.
Qed.

(** A drain run that neither dies nor puts its item back loses no item but
    the one whose operation has ended. *)
Lemma held_outcome_keeps (item : QueuedItem) (q : deque) (cs : list Op)
    (fs : list FutureState) (v : view) (x : QueuedItem) :
  held_outcome item (Some q) cs fs v -> task_alive (snd (fst (fst v))) ->
  x = item \/ In x (items q) -> view_items v x.
Proof.
  intros Ho. inversion Ho; subst; cbn -[appendleft]; try contradiction; intros _ [->|Hin];
    try (right; eexists; split; reflexivity); left; eauto.
Qed.

Lemma top_outcome_keeps (q : deque) (cs : list Op) (fs : list FutureState) (v : view)
    (x : QueuedItem) :
  top_outcome q cs fs v -> task_alive (snd (fst (fst v))) -> In x (items q) ->
  view_items v x.
Proof.
  intros Ho. inversion Ho as [Hnil | item q' v' Hpop Hheld]; subst.
  - cbn. intros _ Hin. left. eauto.
  - unfold popleft in Hpop. destruct (items q) as [|y rest] eqn:Ei; [discriminate|].
    injection Hpop as <- <-. intros Ha [->|Hin];
      eapply held_outcome_keeps; eauto.
Qed.

Lemma drain_step_keeps (v v' : view) (x : QueuedItem) :
  drain_step v v' -> task_alive (snd (fst (fst v'))) -> view_items v x ->
  view_items v' x \/ snd (fst (fst v)) = Some (TAwaitCoro x).
Proof.
  intros Hstep.
  destruct Hstep as [v | qo t cs fs e | q t cs fs e Ht Hnil | q t cs fs v Ht Hnil Ho
                     | q t cs fs v Ht Ho | q item cs fs r v Ho | qo item cs fs r e
                     | qo t item cs fs v Hh Ho]; cbn [fst snd]; intros Ha Hx;
    try contradiction.
  - now left.
  - destruct Hx as [(q0 & [=] & _) | (t0 & [= <-] & Hx)].
    destruct t; cbn in *; try contradiction; discriminate.
  - destruct Hx as [(q0 & [= <-] & Hin) | (t0 & [= <-] & Hx)].
    + left. eapply top_outcome_keeps; eauto.
    + destruct t; cbn in *; try contradiction; discriminate.
  - destruct Hx as [(q0 & [= <-] & Hin) | (t0 & [= <-] & Hx)].
    + left. eapply top_outcome_keeps; eauto.
    + cbn in Hx. injection Hx as <-. now right.
  - left. destruct qo as [q|].
    + eapply held_outcome_keeps; [exact Ho | exact Ha |].
      destruct Hx as [(q0 & [= <-] & Hin) | (t0 & [= <-] & Hx)]; [now right|].
      left. destruct t; cbn in *; try discriminate; congruence.
    + destruct Hx as [(q0 & [=] & _) | (t0 & [= <-] & Hx)].
      assert (x = item) as -> by (destruct t; cbn in *; try discriminate; congruence).
      inversion Ho; subst; cbn in *; try contradiction; try discriminate;
        right; eexists; split; reflexivity.
Qed.

(** The futures after a drain run: as they were, unless the run began with
    the end of an operation, whose outcome then goes to the item's future. *)
Lemma drain_step_futures (v v' : view) :
  drain_step v v' ->
  (forall item, snd (fst (fst v)) <> Some (TAwaitCoro item)) -> snd v' = snd v.
Proof.
  intros Hstep.
  destruct Hstep as [v | qo t cs fs e | q t cs fs e Ht Hnil | q t cs fs v Ht Hnil Ho
                     | q t cs fs v Ht Ho | q item cs fs r v Ho | qo item cs fs r e
                     | qo t item cs fs v Hh Ho]; cbn [fst snd]; intros Hno;
    try reflexivity.
  - exact (top_outcome_futures _ _ _ _ Ho).
  - exact (top_outcome_futures _ _ _ _ Ho).
  - exfalso. exact (Hno item eq_refl).
  - exfalso. exact (Hno item eq_refl).
  - exact (held_outcome_futures _ _ _ _ _ Ho).
Qed.

Lemma loop_top_futures (ch : Z) (w : World) : futures (loop_top ch w) = futures w.
Proof.
  destruct (_channel_queues (limiter w) !! ch) as [q|] eqn:Eq.
  - destruct (loop_top_spec ch w q Eq) as [Ho _].
    exact (top_outcome_futures _ _ _ _ Ho).
  - rewrite loop_top_none by exact Eq. reflexivity.
Qed.

(** The run that finds an escaping operation ended only marks the task. *)
Lemma dispatch_escape (ch : Z) (w : World) (item : QueuedItem) :
  _processing_tasks (limiter w) !! ch = Some (TAwaitCoro item) ->
  escapes (coro item) = true ->
  exists e, run (coro item) = Raised e /\ dispatch ch w = set_task ch (TFailed e) w.
Proof.
  intros Et Hesc. unfold dispatch. rewrite Et.
  destruct (complete_cases ch item w) as [(Hc & _) | (_ & e & Er & _ & Ec)]; [congruence|].
  exists e. now rewrite Ec.
Qed.

Lemma dispatch_futures (ch : Z) (w : World) :
  match _processing_tasks (limiter w) !! ch with
  | Some (TAwaitCoro item) =>
      futures (dispatch ch w) =
        if escapes (coro item) then futures w
        else resolve (future item) (run (coro item)) (futures w)
  | _ => futures (dispatch ch w) = futures w
  end.
Proof.
  destruct (_processing_tasks (limiter w) !! ch) as [t|] eqn:Et.
  2:{ unfold dispatch. now rewrite Et. }
  assert ((exists item, t = TAwaitCoro item) \/ forall item, t <> TAwaitCoro item)
    as [[item ->] | Hno] by (destruct t; eauto; right; discriminate).
  - unfold dispatch. rewrite Et.
    destruct (complete_cases ch item w) as [(Hc & w1 & Ec) | (Hc & e & _ & _ & Ec)];
      rewrite Ec, Hc; [|reflexivity].
    rewrite loop_top_futures.
    now destruct (complete_fields ch item w w1 Ec) as (Cf & _).
  - destruct (dispatch_spec ch w) as [Hd _].
    pose proof (drain_step_futures _ _ Hd) as Hf. unfold view_of in Hf. cbn [fst snd] in Hf.
    rewrite Et in Hf.
    assert (futures (dispatch ch w) = futures w) as E
      by (apply Hf; intros item [= ->]; exact (Hno item eq_refl)).
    destruct t; try exact E. exfalso. exact (Hno _ eq_refl).
Qed.

Lemma resolve_own (f : nat) (c : Op) (fo : option nat) (r : outcome Val)
    (fs : list FutureState) :
  (fo = Some f -> r = run c) ->
  (fs !! f = Some Pending \/ fs !! f = Some (Done (run c))) ->
  resolve fo r fs !! f = Some Pending \/ resolve fo r fs !! f = Some (Done (run c)).
Proof.
  intros Hown Hf. destruct (decide (fo = Some f)) as [->|Hne].
  - rewrite (Hown eq_refl). unfold resolve. destruct Hf as [Hf|Hf]; rewrite Hf.
    + right. unfold set_done. apply list_lookup_insert_eq.
      eapply lookup_lt_Some; exact Hf.
    + now right.
  - now rewrite resolve_other.
Qed.

Lemma resolve_settles (f : nat) (r : outcome Val) (fs : list FutureState) :
  resolve (Some f) r fs !! f <> Some Pending.
Proof.
  unfold resolve. destruct (fs !! f) as [[|s]|] eqn:Ef.
  - unfold set_done. rewrite list_lookup_insert_eq; [discriminate|].
    eapply lookup_lt_Some; exact Ef.
  - rewrite Ef. discriminate.
  - rewrite Ef. discriminate.
Qed.

(** One run of the drain task keeps the future with its operation; when the
    task neither dies nor puts its item back, a future still pending still has
    its item in the channel. *)
Lemma owned_dispatch (f : nat) (c : Op) (ch : Z) (w : World) :
  owned f c (view_of ch w) ->
  task_alive (_processing_tasks (limiter (dispatch ch w)) !! ch) ->
  owned f c (view_of ch (dispatch ch w)).
Proof.
  intros (Ha & Hb & Hc) Halive.
  destruct (dispatch_spec ch w) as [Hd _].
  pose proof (dispatch_futures ch w) as Hf.
  unfold owned, view_of in *. cbn [fst snd] in *.
  assert (forall item, _processing_tasks (limiter w) !! ch = Some (TAwaitCoro item) ->
                       escapes (coro item) = false) as Hcaught.
  { intros item Et. destruct (escapes (coro item)) eqn:Hesc; [exfalso|reflexivity].
    destruct (dispatch_escape ch w item Et Hesc) as (e & _ & Ed).
    rewrite Ed in Halive. cbn in Halive. rewrite lookup_insert_eq in Halive.
    exact Halive. }
  split; [|split].
  - intros x Hx. apply Ha. exact (drain_step_items _ _ x Hd Hx).
  - intros Hp.
    assert (futures w !! f = Some Pending) as Hp0.
    { destruct Hc as [Hc|Hc]; [exact Hc|]. exfalso.
      destruct (_processing_tasks (limiter w) !! ch) as [[| | | |item| |]|];
        rewrite Hf in Hp; try congruence.
      rewrite (Hcaught item eq_refl) in Hp.
      rewrite (resolve_done f _ _ _ _ Hc) in Hp. discriminate. }
    destruct (Hb Hp0) as (x & Hx & Hfx).
    destruct (drain_step_keeps _ _ x Hd Halive Hx) as [Hx' | Ht].
    + exists x. split; assumption.
    + cbn [fst snd] in Ht. rewrite Ht in Hf. rewrite (Hcaught x Ht) in Hf.
      rewrite Hf, Hfx in Hp.
      exfalso. exact (resolve_settles f _ _ Hp).
  - destruct (_processing_tasks (limiter w) !! ch) as [[| | | |item| |]|] eqn:Et;
      rewrite Hf; try exact Hc.
    rewrite (Hcaught item eq_refl).
    apply resolve_own; [|exact Hc]. intros Hfi. rewrite (Ha item); [reflexivity| |exact Hfi].
    right. exists (TAwaitCoro item). split; reflexivity.
Qed.

Lemma routed_step (f : nat) (c : Op) (w : World) (e : event) :
  routed f c w -> routed f c (step w e).
Proof.
  intros [Ha Hc].
  assert (f < length (futures w))%nat as Hlt
    by (destruct Hc as [Hc|Hc]; eapply lookup_lt_Some; exact Hc).
  assert (forall w' : World,
            futures w' = futures w ->
            _channel_queues (limiter w') = _channel_queues (limiter w) ->
            _processing_tasks (limiter w') = _processing_tasks (limiter w) ->
            routed f c w') as Hsame.
  { intros w' Ef Eq Et. unfold routed, view_of, view_items in *. rewrite Ef, Eq, Et.
    split; assumption. }
  destruct e as [ch op | ch | d | cho r | a b c0 d e1 | id]; cbn [step].
  6:{ destruct (run_created_task_fields id w) as (Hl & Hfu & _). cbv zeta in *.
      apply Hsame; [exact Hfu | now rewrite Hl | now rewrite Hl]. }
  - (* enqueue_send: the new item carries a new future *)
    destruct (enqueue_send_futures ch op w) as (x & Ef & _).
    split; [|rewrite Ef, lookup_app_l by exact Hlt; exact Hc].
    destruct (enqueue_send_cases ch op w) as [El | (q & Hq & Hcase)]; cbv zeta in *.
    { unfold view_of, view_items in *. rewrite El. exact Ha. }
    assert (forall y, In y (items q) -> future y = Some f -> coro y = c) as Hqf.
    { intros y Hy. destruct Hq as [Hq | (_ & Hnil & _)].
      - apply (Ha ch). unfold view_of, view_items. left. eauto.
      - rewrite Hnil in Hy. contradiction. }
    intros ch0 y. specialize (Ha ch0 y). unfold view_of, view_items in *.
    destruct Hcase as [[Eq Et] | [Eq Et]]; rewrite Eq, Et.
    + intros [(q0 & Hq0 & Hin) | Ht]; [|apply Ha; now right].
      destruct (decide (ch = ch0)) as [<-|Hne].
      * rewrite lookup_insert_eq in Hq0. injection Hq0 as <-. now apply Hqf.
      * rewrite lookup_insert_ne in Hq0 by exact Hne. apply Ha. left. eauto.
    + intros [(q0 & Hq0 & Hin) | (t0 & Ht0 & Hit)].
      * destruct (decide (ch = ch0)) as [<-|Hne].
        -- rewrite lookup_insert_eq in Hq0. injection Hq0 as <-.
           apply in_append in Hin. destruct Hin as [->|Hin]; [|now apply Hqf].
           cbn. intros [= E]. lia.
        -- rewrite lookup_insert_ne in Hq0 by exact Hne. apply Ha. left. eauto.
      * destruct (_processing_tasks (limiter w) !! ch) eqn:E1; [apply Ha; right; eauto|].
        destruct (decide (ch = ch0)) as [<-|Hne].
        -- rewrite lookup_insert_eq in Ht0. injection Ht0 as <-. discriminate.
        -- rewrite lookup_insert_ne in Ht0 by exact Hne. apply Ha. right. eauto.
  - (* a drain task runs *)
    destruct (dispatch_spec ch w) as [Hd (_ & _ & Fo)].
    pose proof (dispatch_futures ch w) as Hf.
    split.
    + intros ch0 y Hy. destruct (decide (ch0 = ch)) as [->|Hne].
      * apply (Ha ch). exact (drain_step_items _ _ y Hd Hy).
      * apply (Ha ch0). unfold view_of, view_items in *.
        destruct (Fo ch0 Hne) as (Eq & Et & _). now rewrite <- Eq, <- Et.
    + destruct (_processing_tasks (limiter w) !! ch) as [[| | | |item| |]|] eqn:Et;
        rewrite Hf; try exact Hc.
      destruct (escapes (coro item)); [exact Hc|].
      apply resolve_own; [|exact Hc]. intros Hfi.
      rewrite (Ha ch item); [reflexivity| |exact Hfi].
      unfold view_of, view_items. right. exists (TAwaitCoro item). split; [exact Et|reflexivity].
  - apply Hsame; unfold advance; destruct (Qle_bool 0 d); reflexivity.
  - destruct (rate_limit_update_fields cho r w) as (Ef & _ & _ & Eq & Et & _).
    now apply Hsame.
  - now apply Hsame.
Qed.

Lemma routed_run (f : nat) (c : Op) (evs : list event) :
  forall w : World, routed f c w -> routed f c (run_events w evs).
Proof.
  induction evs as [|e evs IH]; intros w H; [exact H|].
  cbn [run_events fold_left]. apply IH. now apply routed_step.
Qed.

Lemma done_run (f : nat) (s : outcome Val) (evs : list event) :
  forall w : World,
    futures w !! f = Some (Done s) -> futures (run_events w evs) !! f = Some (Done s).
Proof.
  induction evs as [|e evs IH]; intros w Hf; [exact Hf|].
  cbn [run_events fold_left]. apply IH. now apply done_step.
Qed.

(** X22.  Every caller gets the outcome of its own operation.  The future
    that [enqueue_send(channel, c)] returns is, at every later moment and
    along every schedule, pending, or resolved with the overflow error (at
    once, when the queue was full), or resolved with the outcome of [c]
    itself: results are never mixed up between callers or channels. *)
Theorem X22_future_gets_own_outcome (ch : Z) (c : Op) (w : World) (f : nat)
    (evs : list event) :
  unreferenced (length (futures w)) w ->
  fst (enqueue_send ch c w) = Returned (HFuture f) ->
  let w1 := snd (enqueue_send ch c w) in
  f = length (futures w) /\
  (futures (run_events w1 evs) !! f = Some Pending \/
   futures (run_events w1 evs) !! f = Some (Done (run c)) \/
   futures (run_events w1 evs) !! f = Some overflow_failure).
Proof.
  intros [Uq Ut] Hres w1.
  destruct (_enabled (limiter w)) eqn:Hen.
  2:{ unfold enqueue_send in Hres. rewrite Hen in Hres. discriminate. }
  assert (exists q, _channel_queues (limiter w) !! ch = Some q \/
                    _channel_queues (limiter w) !! ch = None /\
                    deque_new (_max_queue_size (limiter w)) = Returned q) as [q Hq].
  { destruct (_channel_queues (limiter w) !! ch) as [q|] eqn:Eq; [exists q; now left|].
    destruct (deque_new (_max_queue_size (limiter w))) as [q|e] eqn:En;
      [exists q; now right|].
    unfold enqueue_send, _get_channel_queue in Hres. rewrite Hen, Eq, En in Hres.
    discriminate. }
  destruct (enqueue_send_enabled ch c w q Hen Hq)
    as (Hr & _ & _ & _ & _ & _ & _ & _ & _ & _ & _ & Hcase).
  cbv zeta in Hcase. rewrite Hr in Hres. injection Hres as <-.
  split; [reflexivity|].
  fold w1 in Hcase.
  assert (forall y, In y (items q) -> future y <> Some (length (futures w))) as Hqf.
  { intros y Hy. destruct Hq as [Hq | [_ Hnew]].
    - exact (Uq ch q y Hq Hy).
    - rewrite (deque_new_items _ _ Hnew) in Hy. contradiction. }
  destruct (_ <=? _)%Z.
  - (* refused at once *)
    destruct Hcase as (Ef & _). right. right. apply done_run.
    rewrite Ef. rewrite lookup_app_r by lia. now rewrite Nat.sub_diag.
  - destruct Hcase as (Ef & Eq & Et & _).
    assert (routed (length (futures w)) c w1) as Hrouted.
    { split.
      - intros ch0 y. unfold view_of, view_items. rewrite Eq, Et.
        intros [(q0 & Hq0 & Hin) | (t0 & Ht0 & Hit)] Hfy.
        + destruct (decide (ch = ch0)) as [<-|Hne].
          * rewrite lookup_insert_eq in Hq0. injection Hq0 as <-.
            apply in_append in Hin. destruct Hin as [->|Hin]; [reflexivity|].
            exfalso. exact (Hqf y Hin Hfy).
          * rewrite lookup_insert_ne in Hq0 by exact Hne.
            exfalso. exact (Uq ch0 q0 y Hq0 Hin Hfy).
        + exfalso. destruct (_processing_tasks (limiter w) !! ch) eqn:E1.
          * exact (Ut ch0 t0 y Ht0 Hit Hfy).
          * destruct (decide (ch = ch0)) as [<-|Hne].
            -- rewrite lookup_insert_eq in Ht0. injection Ht0 as <-. discriminate.
            -- rewrite lookup_insert_ne in Ht0 by exact Hne.
               exact (Ut ch0 t0 y Ht0 Hit Hfy).
      - left. rewrite Ef. rewrite lookup_app_r by lia. now rewrite Nat.sub_diag. }
    destruct (routed_run _ c evs w1 Hrouted) as [_ [H|H]]; [now left | right; now left].
Qed.

(** *** Delivery by a drain task that runs alone *)

Lemma seq_good_alive (ch : Z) (w : World) :
  seq_good ch w -> task_alive (_processing_tasks (limiter w) !! ch).
Proof.
  intros (_ & _ & Hshape).
  destruct (_processing_tasks (limiter w) !! ch) as [[]|]; cbn; (exact I || contradiction).
Qed.

Lemma drain_delivers (f : nat) (c : Op) (ch : Z) (fuel : nat) :
  forall w : World,
    seq_good ch w -> (rank ch w <= fuel)%nat -> owned f c (view_of ch w) ->
    (forall item, view_items (view_of ch w) item -> caught (coro item)) ->
    futures (drain fuel ch w) !! f = Some (Done (run c)).
Proof.
  induction fuel as [|fuel IH]; intros w Hgood Hrank Hown Hcaught.
  - pose proof (seq_good_rank ch w Hgood). lia.
  - cbn [drain].
    destruct (_processing_tasks (limiter w) !! ch) as [t|] eqn:Et.
    2:{ destruct Hgood as (_ & _ & Hshape). rewrite Et in Hshape. contradiction. }
    pose proof (seq_dispatch ch w t Hgood Et) as Hseq. cbv zeta in Hseq.
    set (wc := set_clock (wake_time t (clock w)) w) in *.
    assert (owned f c (view_of ch wc)) as Hownc by exact Hown.
    destruct Hseq as [(_ & Hseq) | (item & e & -> & Hesc & _)].
    2:{ exfalso. specialize (Hcaught item). unfold caught in Hcaught.
        rewrite Hesc in Hcaught. discriminate Hcaught.
        unfold view_of, view_items. right. exists (TAwaitCoro item).
        split; [exact Et | reflexivity]. }
    destruct Hseq as [(Hnone & q' & Hq' & Hnil) | (Hgood' & Hlt)].
    + assert (owned f c (view_of ch (dispatch ch wc))) as (_ & Hb & Hc)
        by (apply owned_dispatch; [exact Hownc | now rewrite Hnone]).
      rewrite drain_idle by exact Hnone.
      unfold view_of in Hb, Hc. cbn [fst snd] in Hb, Hc. rewrite Hq', Hnone in Hb.
      destruct Hc as [Hc|Hc]; [|exact Hc]. exfalso.
      destruct (Hb Hc) as (x & [(q0 & [= <-] & Hin) | (t0 & [=] & _)] & _).
      rewrite Hnil in Hin. contradiction.
    + apply IH; [exact Hgood' | lia | |].
      * apply owned_dispatch; [exact Hownc | now apply seq_good_alive].
      * intros item Hitem. apply Hcaught.
        exact (drain_step_items _ _ item (proj1 (dispatch_spec ch wc)) Hitem).
Qed.

Lemma queued_items_in (cs : list Op) :
  forall (start : nat) (now : Q) (item : QueuedItem),
    In item (queued_items start now cs) ->
    exists j, cs !! j = Some (coro item) /\ future item = Some (start + j)%nat.
Proof.
  induction cs as [|c cs IH]; intros start now item; cbn [queued_items]; [contradiction|].
  intros [<- | Hin].
  - exists 0%nat. cbn. split; [reflexivity|]. f_equal. lia.
  - destruct (IH _ _ _ Hin) as (j & Hj & Hf). exists (S j). split; [exact Hj|].
    rewrite Hf. f_equal. lia.
Qed.

Lemma queued_items_lookup (cs : list Op) :
  forall (start : nat) (now : Q) (i : nat) (c : Op),
    cs !! i = Some c -> In (mkItem c (Some (start + i)%nat) now) (queued_items start now cs).
Proof.
  induction cs as [|c0 cs IH]; intros start now i c; [discriminate|].
  destruct i as [|i]; cbn [queued_items].
  - intros [= ->]. left. f_equal. f_equal. lia.
  - intros Hi. right. replace (start + S i)%nat with (S start + i)%nat by lia.
    now apply IH.
Qed.

(** X23.  Delivery.  On a channel not used before, with limiting enabled,
    [N <= _max_queue_size] calls of [enqueue_send] whose operations return or
    raise an [Exception] (nothing that [except Exception] lets through),
    followed by the channel's drain task running alone (buckets able to
    deliver: global rate not zero, channel limit at least 1 over a positive
    window) leave every one of the [N] returned futures resolved with the
    outcome of its own operation, the returned value or the raised
    exception. *)
Theorem X23_drain_delivers_outcomes (M : nat) (ch : Z) (w : World) (cs : list Op) :
  _enabled (limiter w) = true ->
  _max_queue_size (limiter w) = Z.of_nat M ->
  _channel_queues (limiter w) !! ch = None ->
  _processing_tasks (limiter w) !! ch = None ->
  (length cs <= M)%nat ->
  _global_lock (limiter w) = false ->
  ~ refill_rate (_global_bucket (limiter w)) == 0 ->
  channel_ready ch (limiter w) ->
  Forall caught cs ->
  let w' := drain (3 * length cs + 1) ch (run_events w (map (EvEnqueue ch) cs)) in
  forall i c, cs !! i = Some c ->
    futures w' !! (length (futures w) + i)%nat = Some (Done (run c)).
Proof.
  intros Hen Hmax Hq Ht Hlen Hl Hg Hready Hcaught w' i c Hi.
  destruct cs as [|c0 rest]; [discriminate|].
  subst w'. cbn [map run_events fold_left step].
  change (fold_left step (map (EvEnqueue ch) rest) (snd (enqueue_send ch c0 w)))
    with (run_events (snd (enqueue_send ch c0 w)) (map (EvEnqueue ch) rest)).
  cbn [length] in Hlen.
  (* the first call makes the queue and the task *)
  destruct (enqueue_send_enabled ch c0 w (mkDeque [] M) Hen)
    as (_ & Ek & Ec & _ & Eb & EG & EL & Erl & Ecw & Em & Een & Hcase).
  { right. split; [exact Hq|]. rewrite Hmax. apply deque_new_nat. }
  cbv zeta in Hcase. cbn [items length] in Hcase.
  destruct (Z.leb_spec (_max_queue_size (limiter w)) (Z.of_nat 0)) as [Hle|_]; [lia|].
  destruct Hcase as (Ef & Eq & Et & _). rewrite Ht in Et.
  set (w0 := snd (enqueue_send ch c0 w)) in *.
  set (item0 := mkItem c0 (Some (length (futures w))) (clock w)) in *.
  rewrite append_room in Eq by (cbn; lia). cbn [items maxlen app] in Eq.
  assert (_channel_queues (limiter w0) !! ch = Some (mkDeque [item0] M)) as Hq0
    by (rewrite Eq; apply lookup_insert_eq).
  assert (_processing_tasks (limiter w0) !! ch = Some TStart) as Ht0
    by (rewrite Et; apply lookup_insert_eq).
  (* the other calls *)
  destruct (enqueue_many_queued ch rest w0 (mkDeque [item0] M) Een Hq0)
    as (Ff & Fq & Fk & _).
  { cbn. lia. }
  { cbn [items length]. rewrite Em, Hmax. lia. }
  destruct (enqueue_run_keeps M ch rest w0 Een ltac:(congruence))
    as (_ & KG & KL & Kb & Kr & Kw & Kt).
  cbv zeta in *. set (w1 := run_events w0 (map (EvEnqueue ch) rest)) in *.
  assert (_processing_tasks (limiter w1) !! ch = Some TStart) as Ht1
    by (destruct Kt as [Kt|Kt]; congruence).
  cbn [items maxlen] in Fq.
  assert (_channel_queues (limiter w1) !! ch =
          Some (mkDeque (queued_items (length (futures w)) (clock w) (c0 :: rest)) M)) as Hq1.
  { rewrite Fq. cbn [queued_items app]. rewrite Ef, length_app, Ek. cbn [length].
    rewrite Nat.add_1_r. reflexivity. }
  assert (futures w1 = futures w ++ replicate (length (c0 :: rest)) Pending) as Hf1.
  { rewrite Ff, Ef, <- app_assoc. reflexivity. }
  apply drain_delivers.
  - unfold seq_good. rewrite KG, EG, Hq1, Ht1, KL, EL. split; [exact Hg|]. split; [eauto|].
    split; [exact Hl|]. unfold channel_ready in *. now rewrite Kb, Kr, Kw, Eb, Erl, Ecw.
  - unfold rank. rewrite Hq1, Ht1. cbn [items kind_rank].
    rewrite queued_items_length. cbn [length]. lia.
  - unfold owned, view_of. cbn [fst snd]. rewrite Hq1, Ht1. split; [|split].
    + intros y [(q0 & [= <-] & Hin) | (t0 & [= <-] & Hy)]; [|discriminate].
      cbn [items] in Hin.
      destruct (queued_items_in (c0 :: rest) (length (futures w)) (clock w) y Hin)
        as (j & Hj & Hfj).
      rewrite Hfj. intros [= E]. assert (j = i) as -> by lia. congruence.
    + intros _. exists (mkItem c (Some (length (futures w) + i)%nat) (clock w)).
      split; [|reflexivity]. left. eexists. split; [reflexivity|].
      cbn [items]. now apply queued_items_lookup.
    + left. rewrite Hf1. rewrite lookup_app_r by lia.
      replace (length (futures w) + i - length (futures w))%nat with i by lia.
      apply lookup_replicate_2. apply lookup_lt_Some in Hi. exact Hi.
  - unfold view_of, view_items. rewrite Hq1, Ht1.
    intros y [(q0 & [= <-] & Hin) | (t0 & [= <-] & Hy)]; [|discriminate].
    cbn [items] in Hin.
    destruct (queued_items_in (c0 :: rest) (length (futures w)) (clock w) y Hin)
      as (j & Hj & _).
    exact (Forall_lookup_1 _ _ _ _ Hcaught Hj).
Qed.

(** ** The bypass: limiting switched off *)

Lemma consume_phase_bypass (ch : Z) (item : QueuedItem) (w : World) :
  created_tasks (consume_phase ch item w) = created_tasks w.
Proof. unfold consume_phase. stats_tac; reflexivity. Qed.

Lemma channel_phase_bypass (ch : Z) (item : QueuedItem) (w : World) :
  created_tasks (channel_phase ch item w) = created_tasks w.
Proof. unfold channel_phase. stats_tac; rewrite ?consume_phase_bypass; reflexivity. Qed.

Lemma after_global_wait_bypass (ch : Z) (item : QueuedItem) (w : World) :
  created_tasks (after_global_wait ch item w) = created_tasks w.
Proof. unfold after_global_wait. stats_tac; rewrite ?channel_phase_bypass; reflexivity. Qed.

Lemma global_phase_bypass (ch : Z) (item : QueuedItem) (w : World) :
  created_tasks (global_phase ch item w) = created_tasks w.
Proof. unfold global_phase. stats_tac; rewrite ?after_global_wait_bypass; reflexivity. Qed.

Lemma loop_top_bypass (ch : Z) (w : World) :
  created_tasks (loop_top ch w) = created_tasks w.
Proof. unfold loop_top. stats_tac; rewrite ?global_phase_bypass; reflexivity. Qed.

Lemma start_task_bypass (ch : Z) (w : World) :
  created_tasks (start_task ch w) = created_tasks w.
Proof.
  unfold start_task.
  destruct (_get_channel_queue ch (limiter w)) as [rl1|]; [|reflexivity].
  cbv zeta.
  destruct (_get_channel_bucket ch (clock w) (_get_channel_lock ch rl1)) as [rl3|];
    [|reflexivity].
  now rewrite loop_top_bypass.
Qed.

(** No drain task touches the tasks of the bypass. *)
Lemma dispatch_bypass (ch : Z) (w : World) :
  created_tasks (dispatch ch w) = created_tasks w.
Proof.
  unfold dispatch.
  destruct (_processing_tasks (limiter w) !! ch) as [[|item|item wake|item wake|item|wake|e]|];
    try destruct (Qle_bool wake (clock w));
    rewrite ?start_task_bypass, ?global_phase_bypass, ?after_global_wait_bypass,
      ?consume_phase_bypass, ?loop_top_bypass; try reflexivity.
  destruct (complete ch item w) as [w1|e] eqn:Ec; [|reflexivity].
  rewrite loop_top_bypass. unfold complete in Ec.
  destruct (run (coro item)) as [v|e0]; [|destruct (is_exception e0)];
    try discriminate; injection Ec as <-; reflexivity.
Qed.

(** An event leaves a task of the bypass as it is, unless it is the run of
    that very task while it is pending. *)
Lemma step_bypass (k : nat) (c : Op) (s : FutureState) (w : World) (e : event) :
  created_tasks w !! k = Some (c, s) ->
  e <> EvRunTask k \/ s <> Pending ->
  created_tasks (step w e) !! k = Some (c, s).
Proof.
  intros Hk Hother.
  destruct e as [ch op | ch | d | cho r | a b c0 d e0 | id]; cbn [step].
  - unfold enqueue_send. destruct (negb (_enabled (limiter w))).
    + cbn. rewrite lookup_app_l; [exact Hk|]. eapply lookup_lt_Some; exact Hk.
    + cbv zeta. destruct (_get_channel_queue ch (limiter w)) as [rl1|]; [|exact Hk].
      destruct (_channel_queues (_get_channel_lock ch rl1) !! ch); [|exact Hk].
      destruct (_ <=? _)%Z; exact Hk.
  - now rewrite dispatch_bypass.
  - unfold advance. destruct (Qle_bool 0 d); exact Hk.
  - unfold rate_limit_update. destruct cho as [ch|]; [|exact Hk].
    destruct (_get_channel_bucket ch (clock w) _) as [rl1|]; [|exact Hk].
    destruct (_channel_buckets rl1 !! ch); exact Hk.
  - exact Hk.
  - unfold run_created_task.
    destruct (created_tasks w !! id) as [[c1 [|r1]]|] eqn:Eid; try exact Hk.
    cbn [created_tasks set_calls set_created_tasks].
    destruct (decide (id = k)) as [->|Hne].
    + rewrite Hk in Eid. injection Eid as _ Es.
      destruct Hother as [H|H]; exfalso; now apply H.
    + rewrite list_lookup_insert_ne by exact Hne. exact Hk.
Qed.

Lemma run_bypass_pending (k : nat) (c : Op) (evs : list event) :
  forall w : World,
    created_tasks w !! k = Some (c, Pending) -> ~ In (EvRunTask k) evs ->
    created_tasks (run_events w evs) !! k = Some (c, Pending).
Proof.
  induction evs as [|e evs IH]; intros w Hk Hno; [exact Hk|].
  cbn [run_events fold_left]. apply IH.
  - apply step_bypass; [exact Hk|]. left. intros ->. apply Hno. now left.
  - intros Hin. apply Hno. now right.
Qed.

Lemma run_bypass_done (k : nat) (c : Op) (r : outcome Val) (evs : list event) :
  forall w : World,
    created_tasks w !! k = Some (c, Done r) ->
    created_tasks (run_events w evs) !! k = Some (c, Done r).
Proof.
  induction evs as [|e evs IH]; intros w Hk; [exact Hk|].
  cbn [run_events fold_left]. apply IH.
  apply step_bypass; [exact Hk|]. right. discriminate.
Qed.

(** C9.  With [_enabled] false, [enqueue_send] makes no future and touches
    neither the limiter (queues, locks, buckets, drain tasks, counters) nor
    the clock: it hands the operation to [asyncio.create_task] and returns
    that task, pending.  Whatever happens before the event loop runs the
    task, that run invokes the operation, once, without any wait, and the
    task then holds the outcome of the operation for good.
    [execute_with_audit_log_limit] invokes the operation at once and returns
    its outcome, the limiter and the clock being what they were. *)
Theorem C9_disabled_bypass (ch : Z) (c : Op) (w : World) :
  _enabled (limiter w) = false ->
  let k := length (created_tasks w) in
  let w1 := snd (enqueue_send ch c w) in
  let wa := snd (execute_with_audit_log_limit c w) in
  (fst (enqueue_send ch c w) = Returned (HTask k) /\
   created_tasks w1 = created_tasks w ++ [(c, Pending)] /\
   limiter w1 = limiter w /\ futures w1 = futures w /\
   calls w1 = calls w /\ clock w1 = clock w) /\
  (forall evs : list event,
      ~ In (EvRunTask k) evs ->
      let w2 := run_events w1 evs in
      let w3 := step w2 (EvRunTask k) in
      created_tasks w2 !! k = Some (c, Pending) /\
      created_tasks w3 !! k = Some (c, Done (run c)) /\
      calls w3 = calls w2 ++ [(FromBypass, c)] /\
      limiter w3 = limiter w2 /\ futures w3 = futures w2 /\ clock w3 = clock w2 /\
      forall evs' : list event,
        created_tasks (run_events w3 evs') !! k = Some (c, Done (run c))) /\
  (fst (execute_with_audit_log_limit c w) = run c /\
   calls wa = calls w ++ [(FromAudit, c)] /\
   limiter wa = limiter w /\ futures wa = futures w /\ clock wa = clock w /\
   created_tasks wa = created_tasks w).
Proof.
  intros Hen k w1 wa.
  assert (enqueue_send ch c w =
          (Returned (HTask k), set_created_tasks (created_tasks w ++ [(c, Pending)]) w))
    as Ee by (unfold enqueue_send; now rewrite Hen).
  assert (execute_with_audit_log_limit c w =
          (run c, set_calls (calls w ++ [(FromAudit, c)]) w))
    as Ea by (unfold execute_with_audit_log_limit; now rewrite Hen).
  subst w1 wa. rewrite Ee, Ea. cbn [fst snd].
  split; [repeat split|]. split; [|repeat split].
  intros evs Hno. cbv zeta.
  set (w1 := set_created_tasks (created_tasks w ++ [(c, Pending)]) w).
  assert (created_tasks (run_events w1 evs) !! k = Some (c, Pending)) as Hk.
  { apply run_bypass_pending; [|exact Hno]. cbn. unfold k.
    rewrite lookup_app_r by lia. now rewrite Nat.sub_diag. }
  split; [exact Hk|]. cbn [step]. unfold run_created_task. rewrite Hk.
  cbn [created_tasks calls limiter futures clock set_calls set_created_tasks].
  assert (<[k := (c, Done (run c))]> (created_tasks (run_events w1 evs)) !! k =
          Some (c, Done (run c))) as Hd
    by (apply list_lookup_insert_eq; eapply lookup_lt_Some; exact Hk).
  split; [exact Hd|]. repeat split.
  intros evs'. apply run_bypass_done. exact Hd.
Qed.

End Limiter.

(** C2 (counterexample).  On a limiter created at time 0, right after the
    reset of channel 42 with [retry_after = 2], [wait_time(1)] on that
    channel's bucket returns 3 at the instant of the reset and 1 once the
    handler has returned: in both cases 1 away from 2. *)
Lemma C2_counterexample :
  let w0 : @World unit unit := new_world 0 in
  let w1 := snd (rate_limit_update (Some 42%Z) 2 w0) in
  let w2 := snd (handle_rate_limit_response (Some 42%Z) 2 w0) in
  exists b1 b2 x1 x2,
    _channel_buckets (limiter w1) !! 42%Z = Some b1 /\
    fst (wait_time b1 1 (clock w1)) = Returned x1 /\
    x1 == 3 /\ Qabs (x1 - 2) == 1 /\
    _channel_buckets (limiter w2) !! 42%Z = Some b2 /\
    fst (wait_time b2 1 (clock w2)) = Returned x2 /\
    x2 == 1 /\ Qabs (x2 - 2) == 1.
Proof.
  cbv zeta.
  eexists _, _, _, _.
  split; [vm_compute; reflexivity|].
  split; [vm_compute; reflexivity|].
  split; [reflexivity|]. split; [reflexivity|].
  split; [vm_compute; reflexivity|].
  split; [vm_compute; reflexivity|].
  split; reflexivity.
Qed.

(** ** The model at work *)

(** Three calls on a fresh limiter, then the drain task alone: the operations
    run in the order of the calls, the futures carry their results, and the
    task has ended. *)
Example drain_three_calls :
  let w := drain echo 10 42%Z (run_events echo (new_world 0) (map (EvEnqueue 42%Z) [10; 11; 12]%nat)) in
  calls w = [(FromChannel 42%Z, 10); (FromChannel 42%Z, 11); (FromChannel 42%Z, 12)]%nat /\
  futures w = [Done (Returned 10%nat); Done (Raised (OtherError "odd")); Done (Returned 12%nat)] /\
  _processing_tasks (limiter w) !! 42%Z = None /\
  messages_sent (_stats (limiter w)) = 2%Z /\
  messages_queued (_stats (limiter w)) = 3%Z.
Proof. vm_compute. repeat split. Qed.

(** Six calls against the default channel bucket of five tokens: the sixth
    waits one second for its token. *)
Example drain_six_calls :
  let w := drain echo 30 7%Z
             (run_events echo (new_world 0) (map (EvEnqueue 7%Z) [0; 2; 4; 6; 8; 10]%nat)) in
  calls_of 7%Z (calls w) = [0; 2; 4; 6; 8; 10]%nat /\
  clock w == 1 /\
  messages_sent (_stats (limiter w)) = 6%Z.
Proof. vm_compute. repeat split. Qed.

(** A channel bucket too small for one token: every [consume] fails, the item
    goes back to the head of the queue each time and nothing is invoked. *)
Example drain_starved :
  let w0 : @World nat nat :=
    set_limiter (configure (Some (1 # 2)) None None None None (init 0)) (new_world 0) in
  let w := drain echo 20 7%Z (run_events echo w0 (map (EvEnqueue 7%Z) [0; 2]%nat)) in
  calls w = [] /\
  (exists q wake, _channel_queues (limiter w) !! 7%Z = Some q /\
                  map coro (items q) = [0; 2]%nat /\
                  _processing_tasks (limiter w) !! 7%Z = Some (TRetrySleep wake)).
Proof. vm_compute. split; [reflexivity|]. eexists _, _. repeat split. Qed.

(** ** Instances of the theorems *)

(** C1: the amended invariant on a schedule with a reset whose deadline is
    respected. *)
Lemma C1_bucket_bounds_timely_witness :
  Forall bucket_inv
    (observe (mkBucket 5 5 1 0) [(1, AConsume 1); (2, ABackoff 2); (5, ARefill); (6, AWaitTime 3)]) /\
  nondecreasing
    (map last_refill
       (mkBucket 5 5 1 0 ::
        observe (mkBucket 5 5 1 0)
          [(1, AConsume 1); (2, ABackoff 2); (5, ARefill); (6, AWaitTime 3)])).
Proof.
  apply (proj2 C1_bucket_bounds_timely).
  - split; apply Qle_bool_imp_le; reflexivity.
  - apply Qle_bool_imp_le; reflexivity.
  - cbn [timely timely_access].
    repeat (split; [split; [apply Qle_bool_imp_le; reflexivity
                          | try exact I; apply Qle_bool_imp_le; reflexivity]|]).
    exact I.
Defined.

(** C3: a limit of two, three calls. *)
Lemma C3_queue_overflow_witness :
  let w0 : @World nat nat :=
    set_limiter (configure None None None (Some 2%Z) None (init 0)) (new_world 0) in
  let wfull := run_events echo w0 (map (EvEnqueue 42%Z) [10; 11]%nat) in
  (fst (enqueue_send 42%Z 12%nat wfull) = Returned (HFuture (length (futures wfull))) /\
   futures (snd (enqueue_send 42%Z 12%nat wfull)) = futures wfull ++ [overflow_failure] /\
   _channel_queues (limiter (snd (enqueue_send 42%Z 12%nat wfull))) =
     _channel_queues (limiter wfull) /\
   queue_overflows (_stats (limiter (snd (enqueue_send 42%Z 12%nat wfull)))) =
     (queue_overflows (_stats (limiter wfull)) + 1)%Z /\
   messages_queued (_stats (limiter (snd (enqueue_send 42%Z 12%nat wfull)))) =
     messages_queued (_stats (limiter wfull))) /\
  (let w' := run_events echo w0 (map (EvEnqueue 42%Z) ([10; 11]%nat ++ [12%nat])) in
   futures w' = futures w0 ++ replicate 2 Pending ++ [overflow_failure] /\
   _channel_queues (limiter w') !! 42%Z =
     Some (mkDeque (queued_items (length (futures w0)) (clock w0) [10; 11]%nat) 2) /\
   queue_overflows (_stats (limiter w')) = (queue_overflows (_stats (limiter w0)) + 1)%Z /\
   messages_queued (_stats (limiter w')) =
     (messages_queued (_stats (limiter w0)) + Z.of_nat 2)%Z).
Proof.
  intros w0 wfull. split.
  - eapply (proj1 (C3_queue_overflow echo) 42%Z 12%nat wfull).
    + reflexivity.
    + vm_compute. reflexivity.
    + reflexivity.
  - apply (proj2 (C3_queue_overflow echo) 2%nat 42%Z [10; 11]%nat 12%nat w0);
      reflexivity.
Defined.


(** The same computed: the cancelled operation was invoked, its future and
    the future behind it stay pending, and the dead task stays registered
    with the third call in its queue. *)
Example drain_cancelled :
  let w := drain touchy 10 42%Z
             (run_events touchy (new_world 0) (map (EvEnqueue 42%Z) [11; 15; 12]%nat)) in
  calls w = [(FromChannel 42%Z, 11); (FromChannel 42%Z, 15)]%nat /\
  futures w = [Done (Raised (OtherError "odd")); Pending; Pending] /\
  _processing_tasks (limiter w) !! 42%Z = Some (TFailed (BaseError "CancelledError")) /\
  (exists q, _channel_queues (limiter w) !! 42%Z = Some q /\ map coro (items q) = [12%nat]) /\
  messages_sent (_stats (limiter w)) = 0%Z.
Proof. vm_compute. repeat split. eexists. split; reflexivity. Qed.

(** C7: an audit bucket that can hold only half a token: the single
    [consume] fails, and the operation runs nevertheless. *)
Lemma C7_audit_single_consume_witness :
  let w : @World nat nat :=
    set_limiter (set_audit_log_bucket (mkBucket 0 (1 # 2) 1 0) (init 0)) (new_world 0) in
  fst (execute_with_audit_log_limit echo 10%nat w) = echo 10%nat /\
  calls (snd (execute_with_audit_log_limit echo 10%nat w)) = [(FromAudit, 10%nat)] /\
  tokens (_audit_log_bucket (limiter (snd (execute_with_audit_log_limit echo 10%nat w)))) < 1.
Proof.
  intros w.
  destruct (C7_audit_single_consume echo 10%nat w) as (wt1 & E1 & Hres & Hcalls & _ & Hfail).
  - reflexivity.
  - intros H. vm_compute in H. discriminate.
  - split; [exact Hres|]. split; [exact Hcalls|].
    assert (wt1 = 1) as -> by (vm_compute in E1; now injection E1 as <-).
    destruct Hfail as (wt2 & _ & _ & Hlt & _); [reflexivity|]. exact Hlt.
Defined.

(** C9: a limiter switched off; the task of the bypass holds the failure of
    its operation whatever came before and comes after its run. *)
Lemma C9_disabled_bypass_witness :
  let w : @World nat nat :=
    set_limiter (configure None None None None (Some false) (init 0)) (new_world 0) in
  let k := length (created_tasks w) in
  let w1 := snd (enqueue_send 42%Z 11%nat w) in
  let wa := snd (execute_with_audit_log_limit echo 11%nat w) in
  (fst (enqueue_send 42%Z 11%nat w) = Returned (HTask k) /\
   created_tasks w1 = created_tasks w ++ [(11%nat, Pending)] /\
   limiter w1 = limiter w /\ futures w1 = futures w /\
   calls w1 = calls w /\ clock w1 = clock w) /\
  (forall evs : list event,
      ~ In (EvRunTask k) evs ->
      let w2 := run_events echo w1 evs in
      let w3 := step echo w2 (EvRunTask k) in
      created_tasks w2 !! k = Some (11%nat, Pending) /\
      created_tasks w3 !! k = Some (11%nat, Done (echo 11%nat)) /\
      calls w3 = calls w2 ++ [(FromBypass, 11%nat)] /\
      limiter w3 = limiter w2 /\ futures w3 = futures w2 /\ clock w3 = clock w2 /\
      forall evs' : list event,
        created_tasks (run_events echo w3 evs') !! k = Some (11%nat, Done (echo 11%nat))) /\
  (fst (execute_with_audit_log_limit echo 11%nat w) = echo 11%nat /\
   calls wa = calls w ++ [(FromAudit, 11%nat)] /\
   limiter wa = limiter w /\ futures wa = futures w /\ clock wa = clock w /\
   created_tasks wa = created_tasks w).
Proof.
  intros w. apply (C9_disabled_bypass echo 42%Z 11%nat w). reflexivity.
Defined.

(** The bypass at work: the call returns task 0, the limiter is switched on
    again and used, time passes; the task then runs and holds the value. *)
Example bypass_task_runs :
  let w0 : @World nat nat :=
    set_limiter (configure None None None None (Some false) (init 0)) (new_world 0) in
  let w := run_events echo w0
             [EvEnqueue 42%Z 10%nat; EvConfigure None None None None (Some true);
              EvEnqueue 42%Z 12%nat; EvDispatch 42%Z; EvAdvance 3; EvRunTask 0;
              EvRunTask 0] in
  created_tasks w = [(10%nat, Done (Returned 10%nat))] /\
  calls w = [(FromChannel 42%Z, 12%nat); (FromBypass, 10%nat)] /\
  futures w = [Pending].
Proof. vm_compute. repeat split. Qed.

(** C10: a queue made under a limit of two and filled; the limit is raised to
    five and a third call arrives.  The first call leaves the queue, and its
    future is still pending after the drain task has run four times. *)
Lemma C10_raised_limit_drops_oldest_witness :
  let w0 : @World nat nat :=
    set_limiter (configure None None None (Some 2%Z) None (init 0)) (new_world 0) in
  let w := run_events echo w0 (map (EvEnqueue 42%Z) [10; 12]%nat) in
  let w1 := set_limiter (configure None None None (Some 5%Z) None (limiter w)) w in
  let w2 := snd (enqueue_send 42%Z 14%nat w1) in
  let evs := [EvDispatch 42%Z; EvDispatch 42%Z; EvDispatch 42%Z; EvDispatch 42%Z] in
  _channel_queues (limiter w2) !! 42%Z =
    Some (mkDeque ([mkItem 12%nat (Some 1%nat) 0] ++
                   [mkItem 14%nat (Some (length (futures w))) (clock w)]) 2) /\
  futures w2 = futures w ++ [Pending] /\
  queue_overflows (_stats (limiter w2)) = queue_overflows (_stats (limiter w)) /\
  futures (run_events echo w2 evs) !! 0%nat = Some Pending.
Proof.
  intros w0 w w1 w2 evs.
  assert (_channel_queues (limiter w) =
          <[42%Z := mkDeque [mkItem 10%nat (Some 0%nat) 0; mkItem 12%nat (Some 1%nat) 0] 2]> ∅)
    as Hqs by (vm_compute; reflexivity).
  assert (_processing_tasks (limiter w) = <[42%Z := TStart]> ∅)
    as Hts by (vm_compute; reflexivity).
  assert (_enabled (limiter w) = true) as Hen by (vm_compute; reflexivity).
  assert (futures w !! 0%nat = Some Pending) as Hp by (vm_compute; reflexivity).
  assert (_channel_queues (limiter w) !! 42%Z =
          Some (mkDeque [mkItem 10%nat (Some 0%nat) 0; mkItem 12%nat (Some 1%nat) 0] 2))
    as Hq0 by (vm_compute; reflexivity).
  destruct (C10_raised_limit_drops_oldest echo 42%Z 14%nat w
              (mkDeque [mkItem 10%nat (Some 0%nat) 0; mkItem 12%nat (Some 1%nat) 0] 2)
              (mkItem 10%nat (Some 0%nat) 0) [mkItem 12%nat (Some 1%nat) 0] 5%Z
              Hen Hq0 eq_refl eq_refl eq_refl)
    as (_ & Hq & Hf & Ho & _ & _ & Hnever).
  split; [exact Hq|]. split; [exact Hf|]. split; [exact Ho|].
  apply (Hnever 0%nat eq_refl Hp).
  eapply unreferenced_one_queue; [exact Hqs | exact Hts |].
  intros item [<-|[]]. discriminate.
Defined.

(** The same schedule computed: the two calls still queued are resolved, the
    dropped one is not, and only two sends are counted. *)
Example dropped_call_computed :
  let w0 : @World nat nat :=
    set_limiter (configure None None None (Some 2%Z) None (init 0)) (new_world 0) in
  let w := run_events echo w0 (map (EvEnqueue 42%Z) [10; 12]%nat) in
  let w1 := set_limiter (configure None None None (Some 5%Z) None (limiter w)) w in
  let w2 := drain echo 10 42%Z (snd (enqueue_send 42%Z 14%nat w1)) in
  futures w2 = [Pending; Done (Returned 12%nat); Done (Returned 14%nat)] /\
  calls w2 = [(FromChannel 42%Z, 12%nat); (FromChannel 42%Z, 14%nat)] /\
  messages_queued (_stats (limiter w2)) = 3%Z /\
  messages_sent (_stats (limiter w2)) = 2%Z /\
  queue_overflows (_stats (limiter w2)) = 0%Z.
Proof. vm_compute. repeat split. Qed.






(** X8: a channel limit of half a message; the drain task waits, fails to
    consume, puts the item back and waits again. *)
Lemma X8_small_bucket_starves_witness :
  let w0 : @World nat nat :=
    set_limiter (configure (Some (1 # 2)) None None None None (init 0)) (new_world 0) in
  let w := run_events echo w0 [EvEnqueue 42%Z 10%nat; EvDispatch 42%Z] in
  let evs := [EvAdvance 10; EvDispatch 42%Z; EvDispatch 42%Z; EvAdvance 1; EvDispatch 42%Z] in
  calls_of 42%Z (calls (run_events echo w evs)) = calls_of 42%Z (calls w).
Proof.
  intros w0 w evs.
  apply (X8_small_bucket_starves echo 42%Z w (mkBucket (1 # 2) (1 # 2) (1 # 10) 0) evs).
  - vm_compute. reflexivity.
  - apply Qlt_alt. reflexivity.
Defined.

(** X9: new channel settings, a call, a run and a reset later. *)
Lemma X9_bucket_shape_is_kept_witness :
  let w : @World nat nat :=
    run_events echo (new_world 0) [EvEnqueue 42%Z 10%nat; EvDispatch 42%Z] in
  let evs := [EvConfigure (Some 100) (Some 1) None None None; EvEnqueue 42%Z 12%nat;
              EvDispatch 42%Z; EvRateLimited (Some 42%Z) 3] in
  exists b', _channel_buckets (limiter (run_events echo w evs)) !! 42%Z = Some b' /\
             capacity b' = capacity (mkBucket 4 5 (5 # 5) 0) /\
             refill_rate b' = refill_rate (mkBucket 4 5 (5 # 5) 0).
Proof.
  intros w evs.
  apply (X9_bucket_shape_is_kept echo 42%Z w (mkBucket 4 5 (5 # 5) 0) evs).
  vm_compute. reflexivity.
Defined.

(** X10: a channel with two calls queued under the limit of [__init__];
    the limit is lowered to one (the third call overflows), the drain task
    runs, the limit is raised and a fourth call is queued. *)
Lemma X10_queues_stay_in_order_witness :
  let w : @World nat nat :=
    run_events echo (new_world 0) [EvEnqueue 42%Z 10%nat; EvEnqueue 42%Z 11%nat] in
  let evs := [EvConfigure None None None (Some 1%Z) None; EvEnqueue 42%Z 12%nat;
              EvDispatch 42%Z; EvConfigure None None None (Some 500%Z) None;
              EvEnqueue 42%Z 14%nat] in
  let q := mkDeque (queued_items 0 0 [10; 11]%nat) 100 in
  _channel_queues (limiter w) !! 42%Z = Some q /\
  (exists q', _channel_queues (limiter (run_events echo w evs)) !! 42%Z = Some q' /\
              maxlen q' = maxlen q) /\
  (forall q', _channel_queues (limiter (run_events echo w evs)) !! 42%Z = Some q' ->
     (length (items q') <= maxlen q')%nat).
Proof.
  intros w evs q.
  assert (_channel_queues (limiter w) !! 42%Z = Some q) as Hq by (vm_compute; reflexivity).
  assert (queues_bounded w) as Hb.
  { apply (queues_bounded_run echo). intros ch. apply queue_ok_bounded.
    apply fresh_limiter_in_order; reflexivity. }
  split; [exact Hq|].
  destruct (X10_queues_stay_in_order echo evs w Hb 42%Z) as [Hm Hl].
  split; [exact (Hm q Hq) | exact Hl].
Defined.

(** X25: a call, and drain runs until the task has left the registry. *)
Lemma X25_queued_call_has_a_task_witness :
  let w : @World nat nat := new_world 0 in
  let evs := [EvEnqueue 42%Z 10%nat; EvDispatch 42%Z; EvDispatch 42%Z] in
  let q' : @deque nat := mkDeque [] 100 in
  _channel_queues (limiter (run_events echo w evs)) !! 42%Z = Some q' /\
  _processing_tasks (limiter (run_events echo w evs)) !! 42%Z = None /\
  items q' = [].
Proof.
  intros w evs q'.
  assert (_channel_queues (limiter (run_events echo w evs)) !! 42%Z = Some q') as Hq
    by (vm_compute; reflexivity).
  assert (_processing_tasks (limiter (run_events echo w evs)) !! 42%Z = None) as Ht
    by (vm_compute; reflexivity).
  split; [exact Hq|]. split; [exact Ht|].
  apply (X25_queued_call_has_a_task echo evs w 42%Z q'); [|exact Hq | exact Ht].
  apply fresh_limiter_in_order; reflexivity.
Defined.

(** X11: a drain task started under a zero window. *)
Lemma X11_dead_drain_task_is_final_witness :
  let w : @World nat nat :=
    run_events echo
      (set_limiter (configure None (Some 0) None None None (init 0)) (new_world 0))
      [EvEnqueue 42%Z 10%nat; EvDispatch 42%Z] in
  let evs := [EvConfigure None (Some 5) None None None; EvEnqueue 42%Z 12%nat;
              EvDispatch 42%Z; EvAdvance 10; EvDispatch 42%Z] in
  _processing_tasks (limiter (run_events echo w evs)) !! 42%Z =
    Some (TFailed ZeroDivisionError) /\
  calls_of 42%Z (calls (run_events echo w evs)) = calls_of 42%Z (calls w) /\
  forall f, futures w !! f = Some Pending -> only_in 42%Z f w ->
            futures (run_events echo w evs) !! f = Some Pending.
Proof.
  intros w evs. apply (X11_dead_drain_task_is_final echo 42%Z ZeroDivisionError w evs).
  vm_compute. reflexivity.
Defined.

(** X12: the window set to zero, a first call, and the window restored. *)
Lemma X12_zero_window_kills_channel_witness :
  let w : @World nat nat :=
    set_limiter (configure None (Some 0) None None None (init 0)) (new_world 0) in
  let evs := [EvConfigure None (Some 5) None None None; EvEnqueue 42%Z 12%nat;
              EvDispatch 42%Z; EvAdvance 10; EvDispatch 42%Z] in
  let fid := length (futures w) in
  let w1 := dispatch echo 42%Z (snd (enqueue_send 42%Z 10%nat w)) in
  fst (enqueue_send 42%Z 10%nat w) = Returned (HFuture fid) /\
  _processing_tasks (limiter w1) !! 42%Z = Some (TFailed ZeroDivisionError) /\
  _processing_tasks (limiter (run_events echo w1 evs)) !! 42%Z =
    Some (TFailed ZeroDivisionError) /\
  calls_of 42%Z (calls (run_events echo w1 evs)) = calls_of 42%Z (calls w) /\
  futures (run_events echo w1 evs) !! fid = Some Pending.
Proof.
  intros w evs.
  apply (X12_zero_window_kills_channel echo 42%Z 10%nat w evs).
  - reflexivity.
  - reflexivity.
  - unfold fits_ssize. cbn. lia.
  - reflexivity.
  - reflexivity.
  - reflexivity.
  - reflexivity.
  - apply fresh_limiter_in_order; reflexivity.
Defined.

(** X13: a negative limit, and a channel without a queue. *)
Lemma X13_enqueue_send_result_witness :
  let w : @World nat nat :=
    set_limiter (configure None None None (Some (-1)%Z) None (init 0)) (new_world 0) in
  ValueError "maxlen must be non-negative" = ValueError "maxlen must be non-negative" /\
  _enabled (limiter w) = true /\
  _channel_queues (limiter w) !! 42%Z = None /\
  (_max_queue_size (limiter w) < 0)%Z /\
  limiter (snd (enqueue_send 42%Z 10%nat w)) = limiter w /\
  futures (snd (enqueue_send 42%Z 10%nat w)) = futures w ++ [Pending].
Proof.
  intros w. apply (X13_enqueue_send_result 42%Z 10%nat w).
  unfold fits_ssize. cbn. lia.
Defined.

(** X15: the size of a queue that does not exist yet, under the limit of
    [__init__]. *)
Lemma X15_queue_size_creates_queue_witness :
  let rl := @init nat 0 in
  let rl' := set_channel_queues (<[42%Z := mkDeque [] 100]> (_channel_queues rl)) rl in
  (forall q, _channel_queues rl !! 42%Z = Some q -> 0%nat = length (items q) /\ rl' = rl) /\
  (_channel_queues rl !! 42%Z = None ->
   0%nat = 0%nat /\ (0 <= _max_queue_size rl)%Z /\
   _channel_queues rl' =
     <[42%Z := mkDeque [] (Z.to_nat (_max_queue_size rl))]> (_channel_queues rl) /\
   snd (get_stats rl') = S (snd (get_stats rl)) /\
   fst (fst (get_stats rl')) = fst (fst (get_stats rl))).
Proof.
  intros rl rl'. apply (X15_queue_size_creates_queue 42%Z rl).
  unfold fits_ssize. cbn. lia.
Defined.

(** X16: a call resolved with its result, and what follows. *)
Lemma X16_resolved_future_is_final_witness :
  let w : @World nat nat :=
    run_events echo (new_world 0) [EvEnqueue 42%Z 10%nat; EvDispatch 42%Z; EvDispatch 42%Z] in
  let evs := [EvEnqueue 42%Z 12%nat; EvDispatch 42%Z; EvDispatch 42%Z] in
  futures (run_events echo w evs) !! 0%nat = Some (Done (Returned 10%nat)).
Proof.
  intros w evs. apply (X16_resolved_future_is_final echo 0%nat (Returned 10%nat) evs w).
  vm_compute. reflexivity.
Defined.

(** X17: channel 42 while channel 7 is used, limited and reconfigured. *)
Lemma X17_channel_state_is_isolated_witness :
  let w : @World nat nat := run_events echo (new_world 0) [EvEnqueue 42%Z 10%nat] in
  let evs := [EvEnqueue 7%Z 11%nat; EvDispatch 7%Z; EvRateLimited None 1; EvAdvance 1;
              EvConfigure (Some 1) None None (Some 3%Z) None; EvRateLimited (Some 7%Z) 2;
              EvDispatch 7%Z] in
  _channel_queues (limiter (run_events echo w evs)) !! 42%Z =
    _channel_queues (limiter w) !! 42%Z /\
  _processing_tasks (limiter (run_events echo w evs)) !! 42%Z =
    _processing_tasks (limiter w) !! 42%Z /\
  _channel_buckets (limiter (run_events echo w evs)) !! 42%Z =
    _channel_buckets (limiter w) !! 42%Z /\
  calls_of 42%Z (calls (run_events echo w evs)) = calls_of 42%Z (calls w).
Proof.
  intros w evs. apply (X17_channel_state_is_isolated echo 42%Z evs w).
  repeat (constructor; [cbn; try exact I; try lia|]). constructor.
Defined.

(** X18: two calls under a limit of one, a response and a drain run. *)
Lemma X18_counters_account_for_calls_witness :
  let w : @World nat nat :=
    set_limiter (configure None None None (Some 1%Z) None (init 0)) (new_world 0) in
  let evs := [EvEnqueue 42%Z 10%nat; EvEnqueue 42%Z 12%nat; EvRateLimited None 1;
              EvDispatch 42%Z] in
  let st := _stats (limiter w) in
  let st' := _stats (limiter (run_events echo w evs)) in
  (messages_queued st' + queue_overflows st' =
     messages_queued st + queue_overflows st + Z.of_nat (enqueues evs))%Z /\
  length (futures (run_events echo w evs)) = (length (futures w) + enqueues evs)%nat /\
  rate_limit_hits st' = (rate_limit_hits st + Z.of_nat (responses evs))%Z /\
  (messages_sent st <= messages_sent st')%Z.
Proof.
  intros w evs. apply (X18_counters_account_for_calls echo evs w).
  - reflexivity.
  - cbn. lia.
  - repeat constructor.
Defined.

(** X19: four audit fetches on the bucket of [__init__], the last one a
    second after the third. *)
Lemma X19_audit_calls_are_paced_witness :
  let w : @World nat nat := new_world 0 in
  let cs := [(0, 10%nat); (0, 11%nat); (0, 12%nat); (1, 14%nat)] in
  let b := _audit_log_bucket (limiter w) in
  let w' := snd (audit_calls echo cs w) in
  fst (audit_calls echo cs w) = map (fun dc => echo (snd dc)) cs /\
  calls w' = calls w ++ map (fun dc => (FromAudit, snd dc)) cs /\
  inject_Z (Z.of_nat (length cs)) <= capacity b + (clock w' - clock w) * refill_rate b /\
  clock w' <= clock w + idle_time cs + inject_Z (Z.of_nat (length cs)) / refill_rate b.
Proof.
  intros w cs. apply (X19_audit_calls_are_paced echo cs w).
  split; [reflexivity|]. split; [split; apply Qle_bool_imp_le; reflexivity|].
  split; [apply Qlt_alt; reflexivity|].
  split; apply Qle_bool_imp_le; reflexivity.
Defined.

(** X22: the first call on a new limiter, then a second call and runs of the
    drain task. *)
Lemma X22_future_gets_own_outcome_witness :
  let w : @World nat nat := new_world 0 in
  let evs := [EvEnqueue 42%Z 12%nat; EvDispatch 42%Z; EvDispatch 42%Z; EvDispatch 42%Z] in
  let w1 := snd (enqueue_send 42%Z 10%nat w) in
  0%nat = length (futures w) /\
  (futures (run_events echo w1 evs) !! 0%nat = Some Pending \/
   futures (run_events echo w1 evs) !! 0%nat = Some (Done (echo 10%nat)) \/
   futures (run_events echo w1 evs) !! 0%nat = Some overflow_failure).
Proof.
  intros w evs.
  apply (X22_future_gets_own_outcome echo 42%Z 10%nat w 0%nat evs).
  - apply fresh_limiter_in_order; reflexivity.
  - reflexivity.
Defined.

(** X23: three calls, the second of which fails. *)
Lemma X23_drain_delivers_outcomes_witness :
  let w : @World nat nat := new_world 0 in
  let cs := [10; 11; 12]%nat in
  let w' := drain echo (3 * length cs + 1) 42%Z (run_events echo w (map (EvEnqueue 42%Z) cs)) in
  futures w' !! (length (futures w) + 0)%nat = Some (Done (echo 10%nat)) /\
  futures w' !! (length (futures w) + 1)%nat = Some (Done (echo 11%nat)) /\
  futures w' !! (length (futures w) + 2)%nat = Some (Done (echo 12%nat)).
Proof.
  intros w cs.
  pose proof (X23_drain_delivers_outcomes echo 100 42%Z w cs
                eq_refl eq_refl eq_refl eq_refl) as H.
  cbv zeta in H.
  assert (forall i c, cs !! i = Some c ->
            futures (drain echo (3 * length cs + 1) 42%Z
                       (run_events echo w (map (EvEnqueue 42%Z) cs)))
              !! (length (futures w) + i)%nat = Some (Done (echo c))) as Hall.
  { apply H.
    - cbn. lia.
    - reflexivity.
    - intros E. vm_compute in E. discriminate.
    - unfold channel_ready. cbn.
      split; [apply Qle_bool_imp_le | apply Qlt_alt]; reflexivity.
    - repeat (apply List.Forall_cons; [reflexivity|]). apply List.Forall_nil. }
  split; [apply (Hall 0%nat 10%nat); reflexivity|].
  split; [apply (Hall 1%nat 11%nat); reflexivity | apply (Hall 2%nat 12%nat); reflexivity].
Defined.
